(** * PaGMO core: self-adaptive differential evolution and the island

    A shallow embedding of [src/algorithm/de_self_adaptive.cpp] and
    [src/island.cpp].

    Conventions of the embedding:
    - [double] is read as an exact rational ([Q]); comparisons are the
      boolean tests the C++ code performs ([Qltb x y] for [x < y]);
    - [std::vector<T>] is a [list T]; [v[i]] is the total lookup [v !!! i]
      and [v[i] = e] is the list insert [<[i:=e]> v] (an index out of range
      is undefined behaviour in C++; the model then reads the default and
      writes nothing);
    - [std::size_t] and the other [size_type]s are [nat] where they count
      elements, and [Z] modulo [2^w] where the code does arithmetic that can
      wrap;
    - the random number generators [m_drng] and [m_urng] are abstract states
      with one function per distribution the code instantiates;
    - exceptions are results of the type [result];
    - a thread is a handle that holds its function object; the worker runs
      when the thread is joined.  Every public method of the island but
      [interrupt] and [busy] joins first, and those two read the handle
      only, so no method sees the island while the worker is under way. *)

From Stdlib Require Import ZArith QArith Qabs Lia Lqa Bool String.
From stdpp Require Import base list strings.

(** ** Results and exceptions *)

Inductive exn : Type :=
| value_error (msg : string)
| runtime_error (msg : string)
| thread_interrupted
| bad_numeric_cast.

(** [Diverge] stands for a rejection loop that did not find an index within
    the given fuel (the loops of the source have no bound of their own). *)
Inductive result (A : Type) : Type :=
| Ok (a : A)
| Throw (e : exn)
| Diverge.

Arguments Ok {A} a.
Arguments Throw {A} e.
Arguments Diverge {A}.

#[global] Instance result_ret : MRet result := fun A a => Ok a.

#[global] Instance result_bind : MBind result := fun A B k m =>
  match m with
  | Ok a => k a
  | Throw e => Throw e
  | Diverge => Diverge
  end.

(** ** Numbers and vectors (types.h) *)

Abbreviation decision_vector := (list Q).
Abbreviation fitness_vector := (list Q).

#[global] Instance Q_inhabited : Inhabited Q := populate 0%Q.

(** [x < y] on doubles. *)
Definition Qltb (x y : Q) : bool := negb (Qle_bool y x).

(** The width of [std::size_t] on the platform the code is built for. *)
Class Platform : Type := { size_t_bits : Z }.

(** Unsigned subtraction of two [size_type]s. *)
Definition size_sub {Pf : Platform} (a b : nat) : nat :=
  Z.to_nat ((Z.of_nat a - Z.of_nat b) mod 2 ^ size_t_bits).

(** [std::transform(a.begin(), a.end(), b.begin(), a.begin(), std::minus<double>())] *)
Definition transform_minus (a b : decision_vector) : decision_vector :=
  zip_with Qminus a b.

(** ** The problem capability (problem/base.h) *)

(** Modelled from the spec: [problem::base] is not among the sources; this is
    the "minimal surface the core consumes": the dimensions, the bounds, the
    objective function, the order on fitness vectors and [is_blocking]. *)
Record problem : Type := {
  get_dimension : nat;
  get_i_dimension : nat;
  get_c_dimension : nat;
  get_f_dimension : nat;
  get_lb : decision_vector;
  get_ub : decision_vector;
  objfun : decision_vector -> fitness_vector;
  compare_fitness : fitness_vector -> fitness_vector -> bool;
  problem_is_blocking : bool
}.

(** ** Individuals and the population (population.h) *)

(** Modelled from the spec: [population.h] is not among the sources; the
    fields are those of the data model ("Individual", "Population") that the
    code of [evolve] reads and writes. *)
Record individual_type : Type := {
  cur_x : decision_vector;
  cur_v : decision_vector;
  cur_f : fitness_vector;
  best_x : decision_vector;
  best_f : fitness_vector
}.

Record champion_type : Type := {
  champion_x : decision_vector;
  champion_f : fitness_vector
}.

(** The dominance lists of the population are left out: nothing below reads
    them. *)
Record population : Type := {
  pop_problem : problem;
  m_container : list individual_type;
  m_champion : champion_type
}.

#[global] Instance individual_inhabited : Inhabited individual_type :=
  populate {| cur_x := []; cur_v := []; cur_f := []; best_x := []; best_f := [] |}.

Definition pop_size (pop : population) : nat := length (m_container pop).

Definition get_individual (pop : population) (i : nat) : individual_type :=
  m_container pop !!! i.

(** Modelled from the spec: [population::update_champion] is not among the
    sources; the champion is the best individual ever seen, so slot [idx]
    replaces it when its best fitness is strictly better. *)
Definition update_champion (pop : population) (idx : nat) : population :=
  let ind := get_individual pop idx in
  if compare_fitness (pop_problem pop) (best_f ind) (champion_f (m_champion pop))
  then {| pop_problem := pop_problem pop;
          m_container := m_container pop;
          m_champion := {| champion_x := best_x ind; champion_f := best_f ind |} |}
  else pop.

(** Modelled from the spec: [population::set_x] is not among the sources.
    "When an individual's cur_x is updated via set_x, the population
    recomputes cur_f, refreshes best_x/best_f if improved, and updates
    champion accordingly."  An index past the end leaves the population as
    it is (the callers below only pass [idx < size]). *)
Definition set_x (pop : population) (idx : nat) (x : decision_vector) : population :=
  match m_container pop !! idx with
  | None => pop
  | Some ind =>
      let prob := pop_problem pop in
      let f := objfun prob x in
      let improved := compare_fitness prob f (best_f ind) in
      let ind' := {| cur_x := x;
                     cur_v := cur_v ind;
                     cur_f := f;
                     best_x := if improved then x else best_x ind;
                     best_f := if improved then f else best_f ind |} in
      update_champion
        {| pop_problem := prob;
           m_container := <[idx := ind']> (m_container pop);
           m_champion := m_champion pop |} idx
  end.

(** Modelled from the spec: [population::set_v] is not among the sources; it
    stores the velocity of slot [idx] and touches nothing else. *)
Definition set_v (pop : population) (idx : nat) (v : decision_vector) : population :=
  match m_container pop !! idx with
  | None => pop
  | Some ind =>
      {| pop_problem := pop_problem pop;
         m_container :=
           <[idx := {| cur_x := cur_x ind; cur_v := v; cur_f := cur_f ind;
                       best_x := best_x ind; best_f := best_f ind |}]>
             (m_container pop);
         m_champion := m_champion pop |}
  end.

(** Every current decision vector has the problem's dimension. *)
Definition pop_shaped (p : population) : Prop :=
  Forall (fun ind => length (cur_x ind) = get_dimension (pop_problem p))
    (m_container p).

(** [lb[j] <= x[j] <= ub[j]] for every component of [x]. *)
Definition in_box (prob : problem) (x : decision_vector) : Prop :=
  forall j, (j < get_dimension prob)%nat ->
    (get_lb prob !!! j <= x !!! j)%Q /\ (x !!! j <= get_ub prob !!! j)%Q.

(** "All cur_x lie in the box [lb, ub]." *)
Definition pop_in_box (p : population) : Prop :=
  Forall (fun ind => in_box (pop_problem p) (cur_x ind)) (m_container p).

(** [population::get_best_idx] and [population::get_worst_idx] are not among
    the sources and the spec does not define them: they are parameters. *)
Class PopulationRanking : Type := {
  get_best_idx : population -> nat;
  get_worst_idx : population -> nat
}.

(** ** Random sources (rng.h and the Boost distributions)

    [uniform_int a b g] is [boost::uniform_int<int>(a,b)(g)],
    [uniform_real a b g] is [boost::uniform_real<double>(a,b)(g)],
    [normal_distribution m s g] is [boost::normal_distribution<double>(m,s)(g)]
    and [next_double g] is the direct call [g()] of an [rng_double]; each
    returns the value drawn and the generator's next state. *)
Class RandomSource (rng_uint32 rng_double : Type) : Type := {
  uniform_int : nat -> nat -> rng_uint32 -> nat * rng_uint32;
  uniform_real : Q -> Q -> rng_double -> Q * rng_double;
  normal_distribution : Q -> Q -> rng_double -> Q * rng_double;
  next_double : rng_double -> Q * rng_double
}.

(** What the distributions promise about the values they return. *)
Class RandomSourceLaws {rng_uint32 rng_double : Type}
    (RS : RandomSource rng_uint32 rng_double) : Prop := {
  uniform_int_range : forall (a b : nat) (g : rng_uint32),
    (a <= b)%nat -> (a <= (uniform_int a b g).1 <= b)%nat;
  uniform_real_range : forall (a b : Q) (g : rng_double),
    (a <= b)%Q -> (a <= (uniform_real a b g).1)%Q /\ ((uniform_real a b g).1 <= b)%Q;
  next_double_range : forall g : rng_double,
    (0 <= (next_double g).1)%Q /\ ((next_double g).1 < 1)%Q
}.

(** ** algorithm::de_self_adaptive *)

Section de_self_adaptive.

Context {rng_uint32 rng_double : Type} {RS : RandomSource rng_uint32 rng_double}.
Context {PR : PopulationRanking} {Pf : Platform}.

Record de_self_adaptive : Type := {
  m_gen : Z;
  m_f : list Q;
  m_cr : list Q;
  m_variant : Z;
  m_variant_adptv : Z;
  m_ftol : Q;
  m_xtol : Q;
  m_restart : bool;
  m_drng : rng_double;
  m_urng : rng_uint32
}.

(** The constructor; the generators come from [algorithm::base]. *)
Definition make_de_self_adaptive (gen variant variant_adptv : Z) (ftol xtol : Q)
    (restart : bool) (drng : rng_double) (urng : rng_uint32) : result de_self_adaptive :=
  if (gen <? 0)%Z then
    Throw (value_error "number of generations must be nonnegative")
  else if ((variant <? 1) || (18 <? variant))%Z then
    Throw (value_error "variant index must be one of 1 ... 18")
  else if ((variant_adptv <? 0) || (1 <? variant_adptv))%Z then
    Throw (value_error "adaptive variant index must be one of 0 ... 1")
  else
    Ok {| m_gen := gen; m_f := []; m_cr := []; m_variant := variant;
          m_variant_adptv := variant_adptv; m_ftol := ftol; m_xtol := xtol;
          m_restart := restart; m_drng := drng; m_urng := urng |}.

Definition with_rngs (a : de_self_adaptive) (drng : rng_double) (urng : rng_uint32)
    : de_self_adaptive :=
  {| m_gen := m_gen a; m_f := m_f a; m_cr := m_cr a; m_variant := m_variant a;
     m_variant_adptv := m_variant_adptv a; m_ftol := m_ftol a; m_xtol := m_xtol a;
     m_restart := m_restart a; m_drng := drng; m_urng := urng |}.

Definition with_f_cr (a : de_self_adaptive) (f cr : list Q) : de_self_adaptive :=
  {| m_gen := m_gen a; m_f := f; m_cr := cr; m_variant := m_variant a;
     m_variant_adptv := m_variant_adptv a; m_ftol := m_ftol a; m_xtol := m_xtol a;
     m_restart := m_restart a; m_drng := m_drng a; m_urng := m_urng a |}.

(** *** The checks at the start of [evolve] (lines 88-103) *)

Definition Dc_of (prob : problem) : nat :=
  size_sub (get_dimension prob) (get_i_dimension prob).

Definition evolve_checks (pop : population) : result unit :=
  let prob := pop_problem pop in
  if (Dc_of prob =? 0)%nat then
    Throw (value_error "There is no continuous part in the problem decision vector for DE to optimise")
  else if negb (get_c_dimension prob =? 0)%nat then
    Throw (value_error "The problem is not box constrained and DE is not suitable to solve it")
  else if negb (get_f_dimension prob =? 1)%nat then
    Throw (value_error "The problem is not single objective and DE is not suitable to solve it")
  else if (pop_size pop <? 8)%nat then
    Throw (value_error "for DE Self-Adaptive at least 8 individuals in the population are needed")
  else Ok tt.

(** *** Initialisation of the F and CR vectors (lines 130-141) *)

(** [v.resize(n)]: cut, or fill with zeros. *)
Definition resize (n : nat) (v : list Q) : list Q :=
  take n v ++ replicate (n - length v) 0%Q.

(** [for (i = 0; i < NP; ++i) v[i] = draw(m_drng)], with [k] entries still
    to assign from index [i] on. *)
Fixpoint fill_loop (draw : rng_double -> Q * rng_double) (k i : nat)
    (v : list Q) (drng : rng_double) : list Q * rng_double :=
  match k with
  | O => (v, drng)
  | S k' =>
      let '(x, drng) := draw drng in
      fill_loop draw k' (i + 1) (<[i := x]> v) drng
  end.

Definition cr_init_draw (adptv : Z) : rng_double -> Q * rng_double :=
  if negb (adptv =? 0)%Z then normal_distribution 0.5 0.15 else uniform_real 0.0 1.0.

Definition f_init_draw (adptv : Z) : rng_double -> Q * rng_double :=
  if negb (adptv =? 0)%Z then normal_distribution 0.5 0.15 else uniform_real 0.1 1.0.

Definition needs_init (a : de_self_adaptive) (NP : nat) : bool :=
  negb (length (m_cr a) =? NP)%nat || negb (length (m_f a) =? NP)%nat || m_restart a.

Definition init_f_cr (a : de_self_adaptive) (NP : nat) : de_self_adaptive :=
  if needs_init a NP then
    let '(cr, drng) :=
      fill_loop (cr_init_draw (m_variant_adptv a)) NP 0 (resize NP (m_cr a)) (m_drng a) in
    let '(f, drng) :=
      fill_loop (f_init_draw (m_variant_adptv a)) NP 0 (resize NP (m_f a)) drng in
    with_rngs (with_f_cr a f cr) drng (m_urng a)
  else a.

(** *** Picking the indices r1..r7 (lines 148-179)

    [do { r = uniform_int(0,NP-1) } while (r == i || r == r1 || ...)]: the
    values to avoid are in [excl], in the order of the tests. *)
Fixpoint pick_index (fuel NP : nat) (excl : list nat) (urng : rng_uint32)
    : result (nat * rng_uint32) :=
  match fuel with
  | O => Diverge
  | S fuel' =>
      let '(r, urng) := uniform_int 0 (NP - 1) urng in
      if existsb (Nat.eqb r) excl then pick_index fuel' NP excl urng
      else Ok (r, urng)
  end.

Record indices : Type := {
  r1 : nat; r2 : nat; r3 : nat; r4 : nat; r5 : nat; r6 : nat; r7 : nat
}.

Definition pick_indices (fuel NP i : nat) (urng : rng_uint32)
    : result (indices * rng_uint32) :=
  '(a, urng) ← pick_index fuel NP [i] urng;
  '(b, urng) ← pick_index fuel NP [i; a] urng;
  '(c, urng) ← pick_index fuel NP [i; a; b] urng;
  '(d, urng) ← pick_index fuel NP [i; a; b; c] urng;
  '(e, urng) ← pick_index fuel NP [i; a; b; c; d] urng;
  '(f, urng) ← pick_index fuel NP [i; a; b; c; d; e] urng;
  '(g, urng) ← pick_index fuel NP [i; a; b; c; d; e; f] urng;
  Ok ({| r1 := a; r2 := b; r3 := c; r4 := d; r5 := e; r6 := f; r7 := g |}, urng).

(** *** Adapting F and CR for one trial (lines 181-191)

    The three normal draws of one expression are taken from left to right
    (C++ leaves the order of the operands open). *)
Definition adapt (adptv : Z) (v : list Q) (lo hi : Q) (i : nat) (r : indices)
    (drng : rng_double) : Q * rng_double :=
  if negb (adptv =? 0)%Z then
    let '(n1, drng) := normal_distribution 0.0 0.5 drng in
    let '(n2, drng) := normal_distribution 0.0 0.5 drng in
    let '(n3, drng) := normal_distribution 0.0 0.5 drng in
    ((v !!! i + n1 * (v !!! r1 r - v !!! r2 r)
              + n2 * (v !!! r3 r - v !!! r4 r)
              + n3 * (v !!! r5 r - v !!! r6 r))%Q, drng)
  else
    let '(u, drng) := next_double drng in
    if Qltb u 0.9 then (v !!! i, drng) else uniform_real lo hi drng.

(** *** Crossover (lines 193-399)

    [e t n] is the right-hand side of the assignment [tmp[n] = ...] of a
    variant, read in the trial [t] built so far. *)
Definition mutation : Type := decision_vector -> nat -> Q.

(** [do { tmp[n] = e; n = (n+1)%Dc; ++L; } while ((m_drng() < CR) && (L < Dc))].
    The loop runs at most [Dc] times, which is the fuel it is called with;
    the count [L] of assignments is returned with the trial. *)
Fixpoint exp_loop (fuel Dc : nat) (CR : Q) (e : mutation) (t : decision_vector)
    (n L : nat) (drng : rng_double) : decision_vector * nat * rng_double :=
  match fuel with
  | O => (t, L, drng)
  | S fuel' =>
      let t := <[n := e t n]> t in
      let n := ((n + 1) mod Dc)%nat in
      let L := (L + 1)%nat in
      let '(u, drng) := next_double drng in
      if Qltb u CR && (L <? Dc)%nat then exp_loop fuel' Dc CR e t n L drng
      else (t, L, drng)
  end.

(** [for (L = 0; L < Dc; ++L) { if ((m_drng() < CR) || L + 1 == Dc) tmp[n] = e;
    n = (n+1)%Dc; }], with [k] rounds still to run. *)
Fixpoint bin_loop (k Dc : nat) (CR : Q) (e : mutation) (t : decision_vector)
    (n L : nat) (drng : rng_double) : decision_vector * rng_double :=
  match k with
  | O => (t, drng)
  | S k' =>
      let '(u, drng) := next_double drng in
      let t := if Qltb u CR || (L + 1 =? Dc)%nat then <[n := e t n]> t else t in
      bin_loop k' Dc CR e t ((n + 1) mod Dc)%nat (L + 1)%nat drng
  end.

(** The trial under construction together with the two generators. *)
Definition trial_state : Type := decision_vector * rng_double * rng_uint32.

(** [tmp = popold[i]; n = uniform_int(0,Dc-1); L = 0; do ... while ...] *)
Definition exp_crossover (Dc : nat) (CR : Q) (e : mutation) (x : decision_vector)
    (s : trial_state) : trial_state :=
  let '(_, drng, urng) := s in
  let '(n, urng) := uniform_int 0 (Dc - 1) urng in
  let '(t, _, drng) := exp_loop Dc Dc CR e x n 0 drng in
  (t, drng, urng).

(** [tmp = popold[i]; n = uniform_int(0,Dc-1); for ...] *)
Definition bin_crossover (Dc : nat) (CR : Q) (e : mutation) (x : decision_vector)
    (s : trial_state) : trial_state :=
  let '(_, drng, urng) := s in
  let '(n, urng) := uniform_int 0 (Dc - 1) urng in
  let '(t, drng) := bin_loop Dc Dc CR e x n 0 drng in
  (t, drng, urng).

Section variants.

Variables (F : Q) (popold : list decision_vector) (gbIter : decision_vector).
Variables (i : nat) (r : indices).

Local Notation "'P' a n" := ((popold !!! a) !!! n)
  (at level 9, a at level 9, n at level 9).
Local Open Scope Q_scope.

Definition de_best_1 : mutation := fun t n =>
  gbIter !!! n + F * (P (r2 r) n - P (r3 r) n).
Definition de_rand_1 : mutation := fun t n =>
  P (r1 r) n + F * (P (r2 r) n - P (r3 r) n).
Definition de_rand_to_best_1 : mutation := fun t n =>
  t !!! n + F * (gbIter !!! n - t !!! n) + F * (P (r1 r) n - P (r2 r) n).
Definition de_best_2 : mutation := fun t n =>
  gbIter !!! n + (P (r1 r) n + P (r2 r) n - P (r3 r) n - P (r4 r) n) * F.
Definition de_rand_2 : mutation := fun t n =>
  P (r5 r) n + (P (r1 r) n + P (r2 r) n - P (r3 r) n - P (r4 r) n) * F.
Definition de_best_3 : mutation := fun t n =>
  gbIter !!! n + F * (P (r1 r) n - P (r2 r) n) + F * (P (r3 r) n - P (r4 r) n)
    + F * (P (r5 r) n - P (r6 r) n).
Definition de_rand_3 : mutation := fun t n =>
  P (r7 r) n + F * (P (r1 r) n - P (r2 r) n) + F * (P (r3 r) n - P (r4 r) n)
    + F * (P (r5 r) n - P (r6 r) n).
Definition de_rand_to_current_2 : mutation := fun t n =>
  P (r7 r) n + F * (P (r1 r) n - P i n) + F * (P (r3 r) n - P (r4 r) n).
Definition de_rand_to_best_and_current_2 : mutation := fun t n =>
  P (r7 r) n + F * (P (r1 r) n - P i n) + F * (gbIter !!! n - P (r4 r) n).

(** The chain of [if (m_variant == ...)] clauses: one chain for the variants
    1 to 10, then four separate [if ... else if ...] pairs.  A variant that
    matches no clause leaves [tmp] as it was. *)
Definition build_trial (variant : Z) (Dc : nat) (CR : Q) (s : trial_state)
    : trial_state :=
  let x := popold !!! i in
  let s :=
    if (variant =? 1)%Z then exp_crossover Dc CR de_best_1 x s
    else if (variant =? 2)%Z then exp_crossover Dc CR de_rand_1 x s
    else if (variant =? 3)%Z then exp_crossover Dc CR de_rand_to_best_1 x s
    else if (variant =? 4)%Z then exp_crossover Dc CR de_best_2 x s
    else if (variant =? 5)%Z then exp_crossover Dc CR de_rand_2 x s
    else if (variant =? 6)%Z then bin_crossover Dc CR de_best_1 x s
    else if (variant =? 7)%Z then bin_crossover Dc CR de_rand_1 x s
    else if (variant =? 8)%Z then bin_crossover Dc CR de_rand_to_best_1 x s
    else if (variant =? 9)%Z then bin_crossover Dc CR de_best_2 x s
    else if (variant =? 10)%Z then bin_crossover Dc CR de_rand_2 x s
    else s in
  let s :=
    if (variant =? 11)%Z then exp_crossover Dc CR de_best_3 x s
    else if (variant =? 12)%Z then bin_crossover Dc CR de_best_3 x s
    else s in
  let s :=
    if (variant =? 13)%Z then exp_crossover Dc CR de_rand_3 x s
    else if (variant =? 14)%Z then bin_crossover Dc CR de_rand_3 x s
    else s in
  let s :=
    if (variant =? 15)%Z then exp_crossover Dc CR de_rand_to_current_2 x s
    else if (variant =? 16)%Z then bin_crossover Dc CR de_rand_to_current_2 x s
    else s in
  if (variant =? 17)%Z then exp_crossover Dc CR de_rand_to_best_and_current_2 x s
  else if (variant =? 18)%Z then bin_crossover Dc CR de_rand_to_best_and_current_2 x s
  else s.

End variants.

(** The variants whose crossover is the exponential one, and the mutation
    each variant assigns. *)
Definition exponential_variants : list Z := [1; 2; 3; 4; 5; 11; 13; 15; 17]%Z.

Definition mutation_of (F : Q) (popold : list decision_vector)
    (gbIter : decision_vector) (i : nat) (r : indices) (variant : Z) : mutation :=
  match variant with
  | 1 | 6 => de_best_1 F popold gbIter r
  | 2 | 7 => de_rand_1 F popold r
  | 3 | 8 => de_rand_to_best_1 F popold gbIter r
  | 4 | 9 => de_best_2 F popold gbIter r
  | 5 | 10 => de_rand_2 F popold r
  | 11 | 12 => de_best_3 F popold gbIter r
  | 13 | 14 => de_rand_3 F popold r
  | 15 | 16 => de_rand_to_current_2 F popold i r
  | 17 | 18 => de_rand_to_best_and_current_2 F popold gbIter i r
  | _ => fun t n => t !!! n
  end%Z.

(** *** Feasibility (lines 401-408)

    [while (i2 < Dc) { if (tmp[i2] < lb[i2] || tmp[i2] > ub[i2]) tmp[i2] =
    uniform_real(lb[i2],ub[i2]); ++i2; }], with [k] components still to
    visit. *)
Fixpoint repair_loop (lb ub : decision_vector) (k i2 : nat) (t : decision_vector)
    (drng : rng_double) : decision_vector * rng_double :=
  match k with
  | O => (t, drng)
  | S k' =>
      let '(t, drng) :=
        if Qltb (t !!! i2) (lb !!! i2) || Qltb (ub !!! i2) (t !!! i2) then
          let '(x, drng) := uniform_real (lb !!! i2) (ub !!! i2) drng in
          (<[i2 := x]> t, drng)
        else (t, drng) in
      repair_loop lb ub k' (i2 + 1) t drng
  end.

Definition repair (prob : problem) (t : decision_vector) (drng : rng_double)
    : decision_vector * rng_double :=
  repair_loop (get_lb prob) (get_ub prob) (Dc_of prob) 0 t drng.

(** *** The state of one call of [evolve]

    The mutable members of the algorithm ([m_f], [m_cr] and the generators,
    in [algo]), the population, and the local vectors of the function. *)
Record evolve_state : Type := {
  algo : de_self_adaptive;
  pop : population;
  tmp : decision_vector;
  popold : list decision_vector;
  popnew : list decision_vector;
  gbX : decision_vector;
  gbIter : decision_vector;
  gbfit : fitness_vector;
  fit : list fitness_vector
}.

(** *** Selection (lines 410-434) *)
Definition selection (i : nat) (F CR : Q) (trial : decision_vector)
    (st : evolve_state) : evolve_state :=
  let newfitness := objfun (pop_problem (pop st)) trial in
  if compare_fitness (pop_problem (pop st)) newfitness (fit st !!! i) then
    let fit' := <[i := newfitness]> (fit st) in
    let popnew' := <[i := trial]> (popnew st) in
    let cr' := <[i := CR]> (m_cr (algo st)) in
    let f' := <[i := F]> (m_f (algo st)) in
    (* std::transform: tmp now holds tmp - cur_x *)
    let tmp' := transform_minus trial (cur_x (get_individual (pop st) i)) in
    let pop' := set_x (pop st) i (popnew' !!! i) in
    let pop' := set_v pop' i tmp' in
    let '(gbfit', gbX') :=
      if compare_fitness (pop_problem pop') newfitness (gbfit st)
      then (newfitness, tmp')
      else (gbfit st, gbX st) in
    {| algo := with_f_cr (algo st) f' cr'; pop := pop'; tmp := tmp';
       popold := popold st; popnew := popnew'; gbX := gbX';
       gbIter := gbIter st; gbfit := gbfit'; fit := fit' |}
  else
    {| algo := algo st; pop := pop st; tmp := trial;
       popold := popold st; popnew := <[i := popold st !!! i]> (popnew st);
       gbX := gbX st; gbIter := gbIter st; gbfit := gbfit st; fit := fit st |}.

(** The trial of individual [i]: indices, adapted F and CR, mutation and
    crossover, feasibility.  Returns the trial, F, CR and the generators. *)
Definition make_trial (fuel NP i : nat) (st : evolve_state)
    : result (decision_vector * Q * Q * rng_double * rng_uint32) :=
  let a := algo st in
  let prob := pop_problem (pop st) in
  '(r, urng) ← pick_indices fuel NP i (m_urng a);
  let '(F, drng) := adapt (m_variant_adptv a) (m_f a) 0.1 1.0 i r (m_drng a) in
  let '(CR, drng) := adapt (m_variant_adptv a) (m_cr a) 0.0 1.0 i r drng in
  let '(t, drng, urng) :=
    build_trial F (popold st) (gbIter st) i r (m_variant a) (Dc_of prob) CR
      (tmp st, drng, urng) in
  let '(t, drng) := repair prob t drng in
  Ok (t, F, CR, drng, urng).

Definition with_algo (st : evolve_state) (a : de_self_adaptive) : evolve_state :=
  {| algo := a; pop := pop st; tmp := tmp st; popold := popold st;
     popnew := popnew st; gbX := gbX st; gbIter := gbIter st;
     gbfit := gbfit st; fit := fit st |}.

Definition with_tmp (st : evolve_state) (t : decision_vector) : evolve_state :=
  {| algo := algo st; pop := pop st; tmp := t; popold := popold st;
     popnew := popnew st; gbX := gbX st; gbIter := gbIter st;
     gbfit := gbfit st; fit := fit st |}.

(** The body of the loop through the deme for individual [i]. *)
Definition individual_step (fuel NP i : nat) (st : evolve_state)
    : result evolve_state :=
  '(t, F, CR, drng, urng) ← make_trial fuel NP i st;
  Ok (selection i F CR t (with_algo st (with_rngs (algo st) drng urng))).

(** [for (i = 0; i < NP; ++i) ...], with [k] individuals still to visit. *)
Fixpoint deme_loop (fuel NP k i : nat) (st : evolve_state) : result evolve_state :=
  match k with
  | O => Ok st
  | S k' =>
      st ← individual_step fuel NP i st;
      deme_loop fuel NP k' (i + 1) st
  end.

(** [gbIter = gbX; std::swap(popold, popnew);] *)
Definition end_of_sweep (st : evolve_state) : evolve_state :=
  {| algo := algo st; pop := pop st; tmp := tmp st; popold := popnew st;
     popnew := popold st; gbX := gbX st; gbIter := gbX st;
     gbfit := gbfit st; fit := fit st |}.

(** *** The exit conditions (lines 445-468) *)

(** [for (i = 0; i < D; ++i) { tmp[i] = w[i] - b[i]; dx += fabs(tmp[i]); }] *)
Fixpoint dx_loop (k i : nat) (w b t : decision_vector) (dx : Q)
    : decision_vector * Q :=
  match k with
  | O => (t, dx)
  | S k' =>
      let t := <[i := (w !!! i - b !!! i)%Q]> t in
      dx_loop k' (i + 1) w b t (dx + Qabs (t !!! i))%Q
  end.

(** Returns [true] when [evolve] returns from inside the loop. *)
Definition exit_check (gen : Z) (st : evolve_state) : bool * evolve_state :=
  if negb (Z.rem gen 40 =? 0)%Z then
    let D := get_dimension (pop_problem (pop st)) in
    let w := get_individual (pop st) (get_worst_idx (pop st)) in
    let b := get_individual (pop st) (get_best_idx (pop st)) in
    let '(t, dx) := dx_loop D 0 (best_x w) (best_x b) (tmp st) 0%Q in
    let st := with_tmp st t in
    if Qltb dx (m_xtol (algo st)) then (true, st)
    else
      let mah := Qabs (best_f w !!! 0%nat - best_f b !!! 0%nat)%Q in
      if Qltb mah (m_ftol (algo st)) then (true, st) else (false, st)
  else (false, st).

(** One generation: the loop through the deme and the end of the sweep. *)
Definition generation (fuel NP : nat) (st : evolve_state) : result evolve_state :=
  st ← deme_loop fuel NP NP 0 st;
  Ok (end_of_sweep st).

(** [for (gen = 0; gen < m_gen; ++gen) ...], with [k] generations still to
    run. *)
Fixpoint gen_loop (fuel NP k : nat) (gen : Z) (st : evolve_state)
    : result evolve_state :=
  match k with
  | O => Ok st
  | S k' =>
      st ← generation fuel NP st;
      let '(stop, st) := exit_check gen st in
      if stop then Ok st else gen_loop fuel NP k' (gen + 1)%Z st
  end.

(** *** [de_self_adaptive::evolve] *)

Definition initial_state (a : de_self_adaptive) (p : population) : evolve_state :=
  let D := get_dimension (pop_problem p) in
  let xs := map cur_x (m_container p) in
  {| algo := init_f_cr a (pop_size p); pop := p; tmp := replicate D 0%Q;
     popold := xs; popnew := xs;
     gbX := champion_x (m_champion p); gbIter := champion_x (m_champion p);
     gbfit := champion_f (m_champion p);
     fit := map cur_f (m_container p) |}.

Definition evolve (fuel : nat) (a : de_self_adaptive) (p : population)
    : result (de_self_adaptive * population) :=
  _ ← evolve_checks p;
  if (m_gen a =? 0)%Z then Ok (a, p)
  else
    st ← gen_loop fuel (pop_size p) (Z.to_nat (m_gen a)) 0 (initial_state a p);
    Ok (algo st, pop st).

End de_self_adaptive.

Arguments de_self_adaptive : clear implicits.
Arguments evolve_state : clear implicits.

(** ** The island (island.cpp) *)

(** The interface [algorithm::base] as the island uses it.  [evolve] is a
    const method that changes mutable members, so it returns the algorithm
    as well. *)
Class Algorithm (A : Type) : Type := {
  algo_evolve : A -> population -> result (A * population);
  algo_is_blocking : A -> bool
}.

(** What surrounds an island: the clock, the archipelago it may belong to and
    the Boost thread library.  None of it is among the sources.
    - [local_time] is [microsec_clock::local_time()], in microseconds;
    - [sync_island_start], [pre_evolution] and [post_evolution] are the
      archipelago's methods (the last two may change the population through
      [accept_immigrants]);
    - [interruption_point] answers [true] when
      [boost::this_thread::interruption_point()] throws [thread_interrupted];
    - [thread_interrupt] is [boost::thread::interrupt()];
    - [thread_launch] answers [false] when [new boost::thread(...)] throws. *)
Class Environment (W : Type) : Type := {
  local_time : W -> Z * W;
  sync_island_start : W -> W;
  pre_evolution : W -> population -> W * population;
  post_evolution : W -> population -> W;
  interruption_point : W -> bool * W;
  thread_interrupt : W -> W;
  thread_launch : W -> bool * W
}.

(** [population::population(p, n)], the constructor that builds the
    population of a new island, is not among the sources and is taken as a
    parameter ([n] is an [int]). *)
Class PopulationConstructor : Type := {
  new_population : problem -> Z -> result population
}.

(** What island.cpp says of it, in the comment of the constructor of the
    island: "will initialise internal population to n individuals" and
    "Will fail if n is negative". *)
Class PopulationConstructorLaws (PC : PopulationConstructor) : Prop := {
  new_population_negative : forall (p : problem) (n : Z),
    (n < 0)%Z -> exists e, new_population p n = Throw e;
  new_population_size : forall (p : problem) (n : Z) (pop : population),
    new_population p n = Ok pop ->
    pop_problem pop = p /\ Z.of_nat (pop_size pop) = n
}.

(** What a run does to its surroundings, in order (a ghost record used to
    state how often and whether something is called). *)
Inductive event : Type :=
| ev_sync_island_start
| ev_pre_evolution
| ev_algo_evolve
| ev_post_evolution
| ev_interruption_point
| ev_thread_create
| ev_thread_interrupt
| ev_print (msg : string).

#[global] Instance event_eq_dec : EqDecision event.
Proof. solve_decision. Defined.

(** The function object a thread is created with. *)
Inductive evolver : Type :=
| int_evolver (m_n : nat)
| t_evolver (m_t : Z).

(** [boost::thread]: the thread runs its evolver; [th_joined] says that
    [join()] has returned for it (it is no longer joinable). *)
Record thread : Type := {
  th_body : evolver;
  th_joined : bool
}.

Section island.

Context {A : Type} {Alg : Algorithm A} {W : Type} {Env : Environment W}.
Context {Pf : Platform} {PC : PopulationConstructor}.

(** [m_archi] is [true] when the pointer to the archipelago is not null.
    The selection and replacement policies are left out: only the migration
    methods use them. *)
Record island : Type := {
  m_pop : population;
  m_algo : A;
  m_archi : bool;
  m_evo_time : Z;
  m_evo_thread : option thread;
  m_migr_prob : Q
}.

(** The constructor (lines 61-68).  The member [m_pop(p,n)] is built in the
    initialiser list, before the body looks at the migration probability,
    so a failure of [population(p,n)] comes first. *)
Definition make_island (p : problem) (a : A) (n : Z) (migr_prob : Q) : result island :=
  pop ← new_population p n;
  if Qltb migr_prob 0 || Qltb 1 migr_prob then
    Throw (value_error "invalid migration probability")
  else
    Ok {| m_pop := pop; m_algo := a; m_archi := false; m_evo_time := 0;
          m_evo_thread := None; m_migr_prob := migr_prob |}.

Definition is_blocking (i : island) : bool :=
  problem_is_blocking (pop_problem (m_pop i)) || algo_is_blocking (m_algo i).

(** [boost::numeric_cast<std::size_t>(n)] *)
Definition numeric_cast_size_t (n : Z) : result Z :=
  if ((0 <=? n) && (n <? 2 ^ size_t_bits))%Z then Ok n else Throw bad_numeric_cast.

(** [diff.total_milliseconds()] of a duration in microseconds. *)
Definition total_milliseconds (diff : Z) : Z := Z.quot diff 1000.

(** The island, its surroundings and the record of what has been done. *)
Record machine : Type := {
  isl : island;
  env : W;
  trace : list event
}.

(** Code that runs on a machine and returns, throws, or does not finish. *)
Definition run (X : Type) : Type := machine -> result X * machine.

#[global] Instance run_ret : MRet run := fun X x m => (Ok x, m).

#[global] Instance run_bind : MBind run := fun X Y k c m =>
  match c m with
  | (Ok x, m') => k x m'
  | (Throw e, m') => (Throw e, m')
  | (Diverge, m') => (Diverge, m')
  end.

Definition emit (e : event) : run unit := fun m =>
  (Ok tt, {| isl := isl m; env := env m; trace := trace m ++ [e] |}).

Definition get_island : run island := fun m => (Ok (isl m), m).

Definition put_island (i : island) : run unit := fun m =>
  (Ok tt, {| isl := i; env := env m; trace := trace m |}).

Definition throw {X : Type} (e : exn) : run X := fun m => (Throw e, m).

Definition lift_result {X : Type} (r : result X) : run X := fun m => (r, m).

Definition when (b : bool) (c : run unit) : run unit :=
  if b then c else mret tt.

(** [try { c } catch (...) { h }] *)
Definition try_catch (c : run unit) (h : exn -> run unit) : run unit := fun m =>
  match c m with
  | (Throw e, m') => h e m'
  | other => other
  end.

Definition with_pop_algo (i : island) (p : population) (a : A) : island :=
  {| m_pop := p; m_algo := a; m_archi := m_archi i; m_evo_time := m_evo_time i;
     m_evo_thread := m_evo_thread i; m_migr_prob := m_migr_prob i |}.

Definition with_evo_time (i : island) (t : Z) : island :=
  {| m_pop := m_pop i; m_algo := m_algo i; m_archi := m_archi i; m_evo_time := t;
     m_evo_thread := m_evo_thread i; m_migr_prob := m_migr_prob i |}.

Definition with_evo_thread (i : island) (th : option thread) : island :=
  {| m_pop := m_pop i; m_algo := m_algo i; m_archi := m_archi i;
     m_evo_time := m_evo_time i; m_evo_thread := th; m_migr_prob := m_migr_prob i |}.

(** The calls into the surroundings. *)
Definition read_clock (m : machine) : Z * machine :=
  let '(t, w) := local_time (env m) in
  (t, {| isl := isl m; env := w; trace := trace m |}).

Definition do_local_time : run Z := fun m =>
  let '(t, m) := read_clock m in (Ok t, m).

Definition do_sync_island_start : run unit := fun m =>
  emit ev_sync_island_start
    {| isl := isl m; env := sync_island_start (env m); trace := trace m |}.

Definition do_pre_evolution : run unit := fun m =>
  let '(w, p) := pre_evolution (env m) (m_pop (isl m)) in
  emit ev_pre_evolution
    {| isl := with_pop_algo (isl m) p (m_algo (isl m)); env := w; trace := trace m |}.

Definition do_post_evolution : run unit := fun m =>
  emit ev_post_evolution
    {| isl := isl m; env := post_evolution (env m) (m_pop (isl m)); trace := trace m |}.

Definition do_interruption_point : run unit := fun m =>
  let '(b, w) := interruption_point (env m) in
  let m' := {| isl := isl m; env := w; trace := trace m ++ [ev_interruption_point] |} in
  if b then (Throw thread_interrupted, m') else (Ok tt, m').

Definition do_thread_interrupt : run unit := fun m =>
  emit ev_thread_interrupt
    {| isl := isl m; env := thread_interrupt (env m); trace := trace m |}.

(** [m_i->m_algo->evolve(m_i->m_pop)] *)
Definition do_algo_evolve : run unit := fun m =>
  let m' := {| isl := isl m; env := env m; trace := trace m ++ [ev_algo_evolve] |} in
  match algo_evolve (m_algo (isl m)) (m_pop (isl m)) with
  | Ok (a, p) =>
      (Ok tt, {| isl := with_pop_algo (isl m) p a; env := env m; trace := trace m' |})
  | Throw e => (Throw e, m')
  | Diverge => (Diverge, m')
  end.

(** One round of the loops of the two [juice_impl]s, up to the interruption
    point. *)
Definition evolution_round : run unit :=
  i ← get_island;
  when (m_archi i) do_pre_evolution;;
  do_algo_evolve;;
  i ← get_island;
  when (m_archi i) do_post_evolution;;
  i ← get_island;
  when (negb (is_blocking i)) do_interruption_point.

(** [for (i = 0; i < m_n; ++i) ...] *)
Fixpoint int_loop (k : nat) : run unit :=
  match k with
  | O => mret tt
  | S k' => evolution_round;; int_loop k'
  end.

(** [do { ... } while (ms < 0 || numeric_cast<size_t>(ms) < m_t)]; the loop
    has no bound of its own and runs on [fuel]. *)
Fixpoint t_loop (fuel : nat) (m_t start : Z) : run unit :=
  match fuel with
  | O => fun m => (Diverge, m)
  | S fuel' =>
      evolution_round;;
      now ← do_local_time;
      let ms := total_milliseconds (now - start) in
      if (ms <? 0)%Z then t_loop fuel' m_t start
      else
        v ← lift_result (numeric_cast_size_t ms);
        if (v <? m_t)%Z then t_loop fuel' m_t start else mret tt
  end.

(** [juice_impl(start)]: [start] is assigned first, so the caller has it
    even when the rest throws. *)
Definition juice_impl (fuel : nat) (ev : evolver) (m : machine)
    : Z * (result unit * machine) :=
  let '(start, m) := read_clock m in
  (start,
   (i ← get_island;
    when (m_archi i && negb (is_blocking i)) do_sync_island_start;;
    match ev with
    | int_evolver n => int_loop n
    | t_evolver t => t_loop fuel t start
    end) m).

(** The last part of both [operator()]s: add the elapsed milliseconds to
    [m_evo_time] unless they are negative; [catch (...)] prints a message. *)
Definition add_evolution_time (start : Z) : run unit :=
  try_catch
    (now ← do_local_time;
     let ms := total_milliseconds (now - start) in
     if (0 <=? ms)%Z then
       v ← lift_result (numeric_cast_size_t ms);
       i ← get_island;
       put_island (with_evo_time i ((m_evo_time i + v) mod 2 ^ size_t_bits))
     else mret tt)
    (fun _ => emit (ev_print "Error calculating evolution time.")).

(** [int_evolver::operator()] and [t_evolver::operator()] *)
Definition evolver_call (fuel : nat) (ev : evolver) : run unit := fun m =>
  let blocking := is_blocking (isl m) in
  let '(start, (r, m)) := juice_impl fuel ev m in
  match r with
  | Ok _ => add_evolution_time start m
  | Diverge => (Diverge, m)
  | Throw e =>
      if blocking then (Throw e, m)
      else
        (match e with
         | thread_interrupted => mret tt
         | _ =>
             emit (ev_print
                     match ev with
                     | int_evolver _ => "Error during island evolution"
                     | t_evolver _ => "Error during evolution"
                     end)
         end;; add_evolution_time start) m
  end.

(** [island::join]: wait for the thread, which by then has run its evolver
    to the end.  The handle stays. *)
Definition join (fuel : nat) : run unit :=
  i ← get_island;
  match m_evo_thread i with
  | Some th =>
      if th_joined th then mret tt
      else
        evolver_call fuel (th_body th);;
        i ← get_island;
        put_island (with_evo_thread i (Some {| th_body := th_body th; th_joined := true |}))
  | None => mret tt
  end.

(** [new boost::thread(ev)] inside [try ... catch (...)] *)
Definition launch (ev : evolver) : run unit := fun m =>
  let '(ok, w) := thread_launch (env m) in
  let m := {| isl := isl m; env := w; trace := trace m |} in
  if ok then
    (emit ev_thread_create;;
     i ← get_island;
     put_island (with_evo_thread i (Some {| th_body := ev; th_joined := false |}))) m
  else (Throw (runtime_error "failed to launch the thread"), m).

(** [island::evolve(int n)] *)
Definition island_evolve (fuel : nat) (n : Z) : run unit :=
  join fuel;;
  n_evo ← lift_result (numeric_cast_size_t n);
  i ← get_island;
  if is_blocking i then evolver_call fuel (int_evolver (Z.to_nat n_evo))
  else launch (int_evolver (Z.to_nat n_evo)).

(** [island::evolve_t(int t)] *)
Definition island_evolve_t (fuel : nat) (t : Z) : run unit :=
  join fuel;;
  t_evo ← lift_result (numeric_cast_size_t t);
  i ← get_island;
  if is_blocking i then evolver_call fuel (t_evolver t_evo)
  else launch (t_evolver t_evo).

(** [island::interrupt] *)
Definition interrupt : run unit :=
  i ← get_island;
  match m_evo_thread i with
  | Some _ =>
      do_thread_interrupt;;
      throw (runtime_error "evolution interrupted")
  | None => mret tt
  end.

(** [island::busy] *)
Definition busy (i : island) : bool :=
  match m_evo_thread i with
  | None => false
  | Some th => negb (th_joined th)
  end.

(** [island::get_evolution_time] *)
Definition get_evolution_time (fuel : nat) : run Z :=
  join fuel;;
  i ← get_island;
  mret (m_evo_time i).

(** [island::set_algorithm] *)
Definition set_algorithm (fuel : nat) (a : A) : run unit :=
  join fuel;;
  i ← get_island;
  put_island (with_pop_algo i (m_pop i) a).

(** The accessors join and then answer from the island; a clone is the value
    itself. *)
Definition get_algorithm (fuel : nat) : run A :=
  join fuel;;
  i ← get_island;
  mret (m_algo i).

Definition get_problem (fuel : nat) : run problem :=
  join fuel;;
  i ← get_island;
  mret (pop_problem (m_pop i)).

Definition get_size (fuel : nat) : run nat :=
  join fuel;;
  i ← get_island;
  mret (pop_size (m_pop i)).

Definition get_migration_probability (fuel : nat) : run Q :=
  join fuel;;
  i ← get_island;
  mret (m_migr_prob i).

Definition get_population (fuel : nat) : run population :=
  join fuel;;
  i ← get_island;
  mret (m_pop i).

(** What one part of a run leaves behind: the events it adds to the record
    are [suf]. *)
Definition extends (m m' : machine) (suf : list event) : Prop :=
  trace m' = trace m ++ suf.

(** The parts of the island a round of evolution does not touch. *)
Definition same_frame (i i' : island) : Prop :=
  m_evo_thread i' = m_evo_thread i /\ m_evo_time i' = m_evo_time i /\
  m_archi i' = m_archi i.

(** A part of a run keeps the stored time within the range of
    [std::size_t]. *)
Definition time_in_range (i i' : island) : Prop :=
  (0 <= m_evo_time i < 2 ^ size_t_bits)%Z ->
  (0 <= m_evo_time i' < 2 ^ size_t_bits)%Z.

(** *** The calls of the algorithm *)

(** [n] calls of the algorithm in a row, each on what the call before has
    left. *)
Fixpoint evolve_n (n : nat) (a : A) (p : population) : result (A * population) :=
  match n with
  | O => Ok (a, p)
  | S n' => '(a, p) ← algo_evolve a p; evolve_n n' a p
  end.

(** The calls that a worker makes, as the list of the algorithm and the
    population each call is made on: the first call is made on the
    algorithm [a] and on the population [p] (in an archipelago: on what
    [pre_evolution] has made of [p]), every call returns, the next one is
    made on what it returns, and the last one returns [a'] and [p']. *)
Fixpoint calls_in_a_row (archi : bool) (calls : list (A * population))
    (a : A) (p : population) (a' : A) (p' : population) : Prop :=
  match calls with
  | [] => a' = a /\ p' = p
  | (a0, p0) :: rest =>
      a0 = a /\
      (if archi then exists w, p0 = (pre_evolution w p).2 else p0 = p) /\
      exists a1 p1, algo_evolve a0 p0 = Ok (a1, p1) /\
        calls_in_a_row archi rest a1 p1 a' p'
  end.

(** The island [i'] holds what [n] calls of the algorithm in a row make of
    the algorithm and the population of the island [i]; without an
    archipelago that is the result of [evolve_n n]. *)
Definition made_calls (n : nat) (i i' : island) : Prop :=
  (exists calls, length calls = n /\
     calls_in_a_row (m_archi i) calls (m_algo i) (m_pop i) (m_algo i') (m_pop i')) /\
  (m_archi i = false ->
   evolve_n n (m_algo i) (m_pop i) = Ok (m_algo i', m_pop i')).

(** *** The milliseconds that are measured *)

(** The machine [m] with the stored evolution time replaced by [t]. *)
Definition with_time (m : machine) (t : Z) : machine :=
  {| isl := with_evo_time (isl m) t; env := env m; trace := trace m |}.

(** What [add_evolution_time start] adds on the machine [m]: the
    milliseconds between [start] and the clock of [m], unless they are
    negative or do not fit [std::size_t]. *)
Definition measured_ms (start : Z) (m : machine) : Z :=
  let ms := total_milliseconds ((read_clock m).1 - start) in
  if ((0 <=? ms) && (ms <? 2 ^ size_t_bits))%Z then ms else 0%Z.

(** What the run of a worker adds: the milliseconds from the reading of the
    clock at its start to the reading at its end.  A worker that does not come
    to the end of [operator()] (it does not finish, or it throws on a
    blocking island, where nothing is caught) adds nothing. *)
Definition worker_ms (fuel : nat) (ev : evolver) (m : machine) : Z :=
  let '(start, (r, m1)) := juice_impl fuel ev m in
  match r with
  | Ok _ => measured_ms start m1
  | Throw _ => if is_blocking (isl m) then 0%Z else measured_ms start m1
  | Diverge => 0%Z
  end.

(** What a join adds: the milliseconds of the worker it waits for. *)
Definition join_ms (fuel : nat) (m : machine) : Z :=
  match m_evo_thread (isl m) with
  | Some th => if th_joined th then 0%Z else worker_ms fuel (th_body th) m
  | None => 0%Z
  end.

(** What [evolve] and [evolve_t] add: the milliseconds of the worker that
    was pending and, on a blocking island, those of the worker [ev] that
    is run in place. *)
Definition evolve_ms (fuel : nat) (count : Z) (ev : Z -> evolver) (m : machine) : Z :=
  (join_ms fuel m +
   match (join fuel m).1, numeric_cast_size_t count with
   | Ok _, Ok v =>
       if is_blocking (isl (join fuel m).2) then worker_ms fuel (ev v) (join fuel m).2
       else 0
   | _, _ => 0
   end)%Z.

(** *** The loop of [evolve_t] *)

(** [k] rounds of the loop of [t_evolver::juice_impl] from the machine [m]
    to the machine [m']: every round returns and is followed by a reading of
    the clock; the reading after each of the first [k - 1] rounds shows a
    negative time or less than [m_t] milliseconds since [start], and the
    reading after the last round shows at least [m_t]. *)
Inductive t_rounds (m_t start : Z) : machine -> nat -> machine -> Prop :=
| t_rounds_last (m m1 : machine) :
    evolution_round m = (Ok tt, m1) ->
    (0 <= total_milliseconds ((read_clock m1).1 - start) < 2 ^ size_t_bits)%Z ->
    (m_t <= total_milliseconds ((read_clock m1).1 - start))%Z ->
    t_rounds m_t start m 1 (read_clock m1).2
| t_rounds_more (m m1 m' : machine) (k : nat) :
    evolution_round m = (Ok tt, m1) ->
    (total_milliseconds ((read_clock m1).1 - start) < 0 \/
     total_milliseconds ((read_clock m1).1 - start) < Z.min m_t (2 ^ size_t_bits))%Z ->
    t_rounds m_t start (read_clock m1).2 k m' ->
    t_rounds m_t start m (S k) m'.

End island.

Arguments island : clear implicits.
Arguments machine : clear implicits.

(** The algorithm as the island sees it; [algorithm::base::is_blocking] is
    not overridden by [de_self_adaptive] and answers [false]. *)
#[global] Instance de_self_adaptive_algorithm {rng_uint32 rng_double : Type}
    {RS : RandomSource rng_uint32 rng_double} {PR : PopulationRanking}
    {Pf : Platform} (fuel : nat)
    : Algorithm (de_self_adaptive rng_uint32 rng_double) := {|
  algo_evolve := evolve fuel;
  algo_is_blocking := fun _ => false
|}.

(** What the island relies on without checking it: a call of [evolve] keeps
    the problem of the population and the answer of [is_blocking], and so
    does the migration of the archipelago. *)
Class AlgorithmLaws {A : Type} (Alg : Algorithm A) : Prop := {
  algo_evolve_stable : forall (a a' : A) (p p' : population),
    algo_evolve a p = Ok (a', p') ->
    algo_is_blocking a' = algo_is_blocking a /\ pop_problem p' = pop_problem p
}.

Class EnvironmentLaws {W : Type} (Env : Environment W) : Prop := {
  pre_evolution_problem : forall (w : W) (p : population),
    pop_problem (pre_evolution w p).2 = pop_problem p
}.

(** Two surroundings that differ at most in the barrier of the archipelago,
    the interruption points and the thread library: they have the same
    clock and the same migration. *)
Definition same_clock_and_migration {W : Type} (Env1 Env2 : Environment W) : Prop :=
  (forall w, @local_time W Env2 w = @local_time W Env1 w) /\
  (forall w p, @pre_evolution W Env2 w p = @pre_evolution W Env1 w p) /\
  (forall w p, @post_evolution W Env2 w p = @post_evolution W Env1 w p).

(** The public methods of an island, to speak about all of them at once. *)
Inductive operation (A : Type) : Type :=
| op_evolve (n : Z)
| op_evolve_t (t : Z)
| op_join
| op_interrupt
| op_get_evolution_time
| op_set_algorithm (a : A)
| op_get_algorithm
| op_get_problem
| op_get_size
| op_get_migration_probability
| op_get_population.

Arguments op_evolve {A} n.
Arguments op_evolve_t {A} t.
Arguments op_join {A}.
Arguments op_interrupt {A}.
Arguments op_get_evolution_time {A}.
Arguments op_set_algorithm {A} a.
Arguments op_get_algorithm {A}.
Arguments op_get_problem {A}.
Arguments op_get_size {A}.
Arguments op_get_migration_probability {A}.
Arguments op_get_population {A}.

Definition perform {A : Type} {Alg : Algorithm A} {W : Type} {Env : Environment W}
    {Pf : Platform} (fuel : nat) (o : operation A) : run unit :=
  match o with
  | op_evolve n => island_evolve fuel n
  | op_evolve_t t => island_evolve_t fuel t
  | op_join => join fuel
  | op_interrupt => interrupt
  | op_get_evolution_time => get_evolution_time fuel ≫= fun _ => mret tt
  | op_set_algorithm a => set_algorithm fuel a
  | op_get_algorithm => get_algorithm fuel ≫= fun _ => mret tt
  | op_get_problem => get_problem fuel ≫= fun _ => mret tt
  | op_get_size => get_size fuel ≫= fun _ => mret tt
  | op_get_migration_probability => get_migration_probability fuel ≫= fun _ => mret tt
  | op_get_population => get_population fuel ≫= fun _ => mret tt
  end.

(** The milliseconds that a method adds to the evolution time: those of
    the workers it runs to their end.  [interrupt] does not join. *)
Definition elapsed_ms {A : Type} {Alg : Algorithm A} {W : Type} {Env : Environment W}
    {Pf : Platform} (fuel : nat) (o : operation A) (m : machine A W) : Z :=
  match o with
  | op_evolve n => evolve_ms fuel n (fun v => int_evolver (Z.to_nat v)) m
  | op_evolve_t t => evolve_ms fuel t t_evolver m
  | op_interrupt => 0%Z
  | _ => join_ms fuel m
  end.

(** The events that only a run in a thread of its own produces. *)
Definition background_event (e : event) : bool :=
  match e with
  | ev_thread_create | ev_sync_island_start | ev_interruption_point => true
  | _ => false
  end.

(** How often the algorithm has been called. *)
Definition evolve_calls (t : list event) : nat :=
  length (filter (fun e => e = ev_algo_evolve) t).

(** ** The properties in the words of the specification *)

(** "dx = Σ_j |best_x[worst][j] − best_x[best][j]|" *)
Definition dx_spec {PR : PopulationRanking} (p : population) : Q :=
  let w := best_x (get_individual p (get_worst_idx p)) in
  let b := best_x (get_individual p (get_best_idx p)) in
  fold_left (fun s j => (s + Qabs (w !!! j - b !!! j))%Q)
    (seq 0 (get_dimension (pop_problem p))) 0%Q.

(** "df = |best_f[worst][0] − best_f[best][0]|" *)
Definition df_spec {PR : PopulationRanking} (p : population) : Q :=
  Qabs (best_f (get_individual p (get_worst_idx p)) !!! 0%nat
        - best_f (get_individual p (get_best_idx p)) !!! 0%nat)%Q.

(** "if the generation index modulo 40 is non-zero ...: if dx < xtol, halt;
    if df < ftol, halt." *)
Definition halts_spec {PR : PopulationRanking} (gen : Z) (xtol ftol : Q)
    (p : population) : bool :=
  negb (gen mod 40 =? 0)%Z && (Qltb (dx_spec p) xtol || Qltb (df_spec p) ftol).

(** The vectors of a call of [evolve] have the sizes the code gives them:
    NP rows of the problem's dimension, and [tmp] of that dimension. *)
Definition state_shaped {rng_uint32 rng_double : Type} (NP : nat)
    (st : evolve_state rng_uint32 rng_double) : Prop :=
  let D := get_dimension (pop_problem (pop st)) in
  pop_size (pop st) = NP /\ pop_shaped (pop st) /\
  length (popold st) = NP /\ Forall (fun x => length x = D) (popold st) /\
  length (popnew st) = NP /\ Forall (fun x => length x = D) (popnew st) /\
  length (tmp st) = D.

(** The population and both copies of its decision vectors are in the box. *)
Definition state_in_box {rng_uint32 rng_double : Type}
    (st : evolve_state rng_uint32 rng_double) : Prop :=
  pop_in_box (pop st) /\
  Forall (in_box (pop_problem (pop st))) (popold st) /\
  Forall (in_box (pop_problem (pop st))) (popnew st).

(** What every step of a call of [evolve] keeps: the problem, the variant,
    the sizes and, for a variant the constructor accepts, the box. *)
Definition evolve_invariant {rng_uint32 rng_double : Type} (NP : nat)
    (prob : problem) (variant : Z) (st : evolve_state rng_uint32 rng_double) : Prop :=
  pop_problem (pop st) = prob /\ m_variant (algo st) = variant /\
  state_shaped NP st /\ ((1 <= variant <= 18)%Z -> state_in_box st).

(** The box is not empty in the continuous components, and the integer part
    is not longer than the whole vector. *)
Definition problem_box_ok {Pf : Platform} (prob : problem) : Prop :=
  (get_i_dimension prob <= get_dimension prob)%nat /\
  (Z.of_nat (get_dimension prob) < 2 ^ size_t_bits)%Z /\
  forall j, (j < get_dimension prob)%nat -> (get_lb prob !!! j <= get_ub prob !!! j)%Q.

(** The halting test of the specification on the state a generation ends
    with. *)
Definition halts_after {rng_uint32 rng_double : Type} {PR : PopulationRanking}
    (gen : Z) (st : evolve_state rng_uint32 rng_double) : bool :=
  halts_spec gen (m_xtol (algo st)) (m_ftol (algo st)) (pop st).

(** [n] generations in a row from generation index [gen], each followed by
    its exit check, none of which ends the run. *)
Fixpoint after_generations {rng_uint32 rng_double : Type}
    {RS : RandomSource rng_uint32 rng_double} {PR : PopulationRanking}
    {Pf : Platform} (fuel NP n : nat) (gen : Z)
    (st : evolve_state rng_uint32 rng_double)
    : result (evolve_state rng_uint32 rng_double) :=
  match n with
  | O => Ok st
  | S n' =>
      st ← generation fuel NP st;
      after_generations fuel NP n' (gen + 1)%Z (exit_check gen st).2
  end.

(** The rejection sampling of the indices comes to an end within [fuel]
    draws, whatever the values to avoid (at most seven, as in [evolve]) and
    the state of the generator. *)
Definition sampling_returns {rng_uint32 rng_double : Type}
    {RS : RandomSource rng_uint32 rng_double} (fuel NP : nat) : Prop :=
  forall (excl : list nat) (g : rng_uint32),
    (length excl <= 7)%nat -> pick_index fuel NP excl g <> Diverge.

(** [n] values drawn one after the other. *)
Fixpoint draw_list {G : Type} (draw : G -> Q * G) (n : nat) (g : G) : list Q * G :=
  match n with
  | O => ([], g)
  | S n' =>
      let '(x, g) := draw g in
      let '(xs, g) := draw_list draw n' g in
      (x :: xs, g)
  end.

(** ** Concrete surroundings used to run the definitions *)

(** A generator that counts: the [k]-th draw of a distribution is a fixed
    function of [k] that respects the range of the distribution. *)
Definition counter_rng : RandomSource nat nat := {|
  uniform_int := fun lo hi g => ((lo + g mod (hi - lo + 1))%nat, S g);
  uniform_real := fun a b g =>
    (if Nat.even g then a else (a + (1 # 2) * (b - a))%Q, S g);
  normal_distribution := fun m s g =>
    ((m + s * ((Z.of_nat (g mod 7) - 3) # 2))%Q, S g);
  next_double := fun g => ((Z.of_nat (g mod 10) # 10)%Q, S g)
|}.

Definition lp64 : Platform := {| size_t_bits := 64 |}.
Definition ilp32 : Platform := {| size_t_bits := 32 |}.

(** The sphere function on [[-5,5]^D], smaller is better. *)
Definition sphere (D : nat) : problem := {|
  get_dimension := D;
  get_i_dimension := 0;
  get_c_dimension := 0;
  get_f_dimension := 1;
  get_lb := replicate D (-5)%Q;
  get_ub := replicate D 5%Q;
  objfun := fun x => [foldr (fun a s => (a * a + s)%Q) 0%Q x];
  compare_fitness := fun a b => Qltb (a !!! 0%nat) (b !!! 0%nat);
  problem_is_blocking := false
|}.

Definition individual_at (prob : problem) (x : decision_vector) : individual_type :=
  {| cur_x := x; cur_v := replicate (length x) 0%Q; cur_f := objfun prob x;
     best_x := x; best_f := objfun prob x |}.

(** Eight points on the line, the best of them at [1]. *)
Definition pop8 : population := {|
  pop_problem := sphere 1;
  m_container :=
    map (fun z => individual_at (sphere 1) [z]) [4; 1; -3; 2; 3; -2; -4; -5]%Q;
  m_champion := {| champion_x := [1%Q]; champion_f := [1%Q] |}
|}.

(** The first seven of them. *)
Definition pop7 : population := {|
  pop_problem := sphere 1;
  m_container := take 7 (m_container pop8);
  m_champion := m_champion pop8
|}.

(** Best and worst by the first fitness component. *)
Definition scan_ranking : PopulationRanking := {|
  get_best_idx := fun p =>
    foldr (fun i b =>
             if compare_fitness (pop_problem p) (best_f (get_individual p i))
                  (best_f (get_individual p b)) then i else b)
          0%nat (seq 0 (pop_size p));
  get_worst_idx := fun p =>
    foldr (fun i w =>
             if compare_fitness (pop_problem p) (best_f (get_individual p w))
                  (best_f (get_individual p i)) then i else w)
          0%nat (seq 0 (pop_size p))
|}.

Definition sade (gen variant adptv : Z) (restart : bool) : de_self_adaptive nat nat :=
  {| m_gen := gen; m_f := []; m_cr := []; m_variant := variant;
     m_variant_adptv := adptv; m_ftol := 0; m_xtol := 0; m_restart := restart;
     m_drng := 0%nat; m_urng := 0%nat |}.

(** The state the generations of the examples start from. *)
Definition st0 : evolve_state nat nat :=
  @initial_state nat nat counter_rng (sade 2 2 0 false) pop8.

(** A clock that advances by [step] microseconds at every reading, no
    archipelago, no interruption, threads that always start. *)
Definition ticking (step : Z) : Environment Z := {|
  local_time := fun w => (w, (w + step)%Z);
  sync_island_start := fun w => w;
  pre_evolution := fun w p => (w, p);
  post_evolution := fun w _ => w;
  interruption_point := fun w => (false, w);
  thread_interrupt := fun w => w;
  thread_launch := fun w => (true, w)
|}.

(** An algorithm that does nothing, blocking or not. *)
Definition idle_algorithm : Algorithm bool := {|
  algo_evolve := fun a p => Ok (a, p);
  algo_is_blocking := fun a => a
|}.

Definition island_of (A : Type) (a : A) (p : population) (t : Z)
    (th : option thread) : island A :=
  {| m_pop := p; m_algo := a; m_archi := false; m_evo_time := t;
     m_evo_thread := th; m_migr_prob := 0 |}.

Definition machine_of {A W : Type} (i : island A) (w : W) : machine A W :=
  {| isl := i; env := w; trace := [] |}.

(** ** The other methods of the island (island.cpp) *)

(** Modelled from the spec: the replacement policy is not among the sources.
    "A replacement policy is a function select(immigrants, population) →
    [(slot_index, immigrant_index)] returning a list of placements." *)
Definition replacement_policy : Type :=
  list individual_type -> population -> list (nat * nat).

(** The loop of [island::accept_immigrants] over the placements (lines
    454-461): the slot receives the immigrant and the champion is brought up
    to date.  [None] is a failed [pagmo_assert].  The dominance lists are
    left out of the population, so [update_dom_list] has nothing to do. *)
Fixpoint place_immigrants (immigrants : list individual_type)
    (rep : list (nat * nat)) (p : population) : option population :=
  match rep with
  | [] => Some p
  | (slot, k) :: rep' =>
      if (slot <? length (m_container p))%nat && (k <? length immigrants)%nat then
        place_immigrants immigrants rep'
          (update_champion
             {| pop_problem := pop_problem p;
                m_container := <[slot := immigrants !!! k]> (m_container p);
                m_champion := m_champion p |} slot)
      else None
  end.

Section island_methods.

Context {A : Type} {Alg : Algorithm A} {W : Type} {Env : Environment W}.
Context {Pf : Platform}.

Local Abbreviation island := (island A).
Local Abbreviation machine := (machine A W).
Local Abbreviation run := (@run A W).

(** [island::accept_immigrants]; it does not join. *)
Definition accept_immigrants (r_policy : replacement_policy)
    (immigrants : list individual_type) (i : island) : option island :=
  if m_archi i then
    p ← place_immigrants immigrants (r_policy immigrants (m_pop i)) (m_pop i);
    Some (with_pop_algo i p (m_algo i))
  else None.

(** [island::operator=] for an island [source] other than the one assigned
    to (the assignment of an island to itself does nothing): both islands
    are joined, the members are copied and the thread handle is reset.  The
    source is returned as its join leaves it.  The copy constructor is this
    assignment to an island that holds no thread. *)
Definition island_assign (fuel : nat) (source : island) : run island := fun m =>
  match join fuel m with
  | (Ok _, m1) =>
      match join fuel {| isl := source; env := env m1; trace := trace m1 |} with
      | (Ok _, m2) =>
          let src := isl m2 in
          (Ok src,
           {| isl := {| m_pop := m_pop src; m_algo := m_algo src;
                        m_archi := m_archi src; m_evo_time := m_evo_time src;
                        m_evo_thread := None; m_migr_prob := m_migr_prob src |};
              env := env m2; trace := trace m2 |})
      | (Throw e, m2) =>
          (Throw e, {| isl := isl m1; env := env m2; trace := trace m2 |})
      | (Diverge, m2) =>
          (Diverge, {| isl := isl m1; env := env m2; trace := trace m2 |})
      end
  | (Throw e, m1) => (Throw e, m1)
  | (Diverge, m1) => (Diverge, m1)
  end.

End island_methods.

(** ** More properties of a call of [evolve], in the words of the code *)

(** The seven indices and [i], in the order in which they are drawn. *)
Definition index_list (i : nat) (r : indices) : list nat :=
  [i; r1 r; r2 r; r3 r; r4 r; r5 r; r6 r; r7 r].

(** A right-hand side [e] that reads of the trial nothing but the component
    it assigns. *)
Definition reads_own_component (e : mutation) : Prop :=
  forall (t t' : decision_vector) (n : nat), t !!! n = t' !!! n -> e t n = e t' n.

(** [0.1 <= F <= 1] and [0 <= CR <= 1], the ranges of the draws of scheme 0. *)
Definition F_in_range (x : Q) : Prop := (0.1 <= x)%Q /\ (x <= 1.0)%Q.
Definition CR_in_range (x : Q) : Prop := (0.0 <= x)%Q /\ (x <= 1.0)%Q.

(** The local copies agree with the population: [popold] holds the current
    decision vectors and [fit] their fitness, one row per individual. *)
Definition mirrors_population {rng_uint32 rng_double : Type}
    (st : evolve_state rng_uint32 rng_double) : Prop :=
  popold st = map cur_x (m_container (pop st)) /\
  fit st = map cur_f (m_container (pop st)) /\
  length (popnew st) = pop_size (pop st).

(** The same in the middle of a sweep, before the step of individual [i]:
    [fit] holds the current fitness of every individual; the individuals
    before [i] have been visited and [popnew] holds their current decision
    vectors; [popold] holds those of the others. *)
Definition mirrors_in_sweep {rng_uint32 rng_double : Type} (i : nat)
    (st : evolve_state rng_uint32 rng_double) : Prop :=
  length (popold st) = pop_size (pop st) /\
  length (popnew st) = pop_size (pop st) /\
  fit st = map cur_f (m_container (pop st)) /\
  (forall k, (k < i)%nat -> popnew st !!! k = cur_x (get_individual (pop st) k)) /\
  (forall k, (i <= k < pop_size (pop st))%nat ->
     popold st !!! k = cur_x (get_individual (pop st) k)).

(** ** More concrete surroundings *)

(** A constructor of populations that refuses a negative size and puts every
    individual in the lower corner of the box. *)
Definition corner_population : PopulationConstructor := {|
  new_population := fun p n =>
    if (n <? 0)%Z then Throw (value_error "number of individuals cannot be negative")
    else
      Ok {| pop_problem := p;
            m_container := replicate (Z.to_nat n) (individual_at p (get_lb p));
            m_champion := {| champion_x := get_lb p; champion_f := objfun p (get_lb p) |} |}
|}.

(** An algorithm with a budget of calls: it throws once the budget is used
    up. *)
Definition budget_algorithm (blocking : bool) : Algorithm nat := {|
  algo_evolve := fun a p =>
    match a with
    | O => Throw (value_error "no calls left")
    | S a' => Ok (a', p)
    end;
  algo_is_blocking := fun _ => blocking
|}.

(** The surroundings [ticking], but with an interruption delivered at every
    interruption point. *)
Definition interrupting (step : Z) : Environment Z := {|
  local_time := fun w => (w, (w + step)%Z);
  sync_island_start := fun w => w;
  pre_evolution := fun w p => (w, p);
  post_evolution := fun w _ => w;
  interruption_point := fun w => (true, w);
  thread_interrupt := fun w => w;
  thread_launch := fun w => (true, w)
|}.

(** A policy that puts the first immigrant into slot 2. *)
Definition first_into_slot_2 : replacement_policy := fun _ _ => [(2%nat, 0%nat)].

(** The sphere on [[-5,5]^2] whose second component is an integer: one
    continuous component. *)
Definition mixed_sphere : problem := {|
  get_dimension := 2;
  get_i_dimension := 1;
  get_c_dimension := 0;
  get_f_dimension := 1;
  get_lb := replicate 2 (-5)%Q;
  get_ub := replicate 2 5%Q;
  objfun := fun x => [foldr (fun a s => (a * a + s)%Q) 0%Q x];
  compare_fitness := fun a b => Qltb (a !!! 0%nat) (b !!! 0%nat);
  problem_is_blocking := false
|}.

(** Eight points of it. *)
Definition pop8_mixed : population := {|
  pop_problem := mixed_sphere;
  m_container :=
    map (fun z => individual_at mixed_sphere [z.1; z.2])
      [(4, 1); (1, 2); (-3, 3); (2, -1); (3, -2); (-2, 0); (-4, 4); (-5, -3)]%Q;
  m_champion := {| champion_x := [1; 2]%Q; champion_f := [5%Q] |}
|}.

(** Eight rows of three components, to run the crossover on. *)
Definition rows3 : list decision_vector :=
  map (fun z => [z; z + 10; z + 20]%Q) [0; 1; 2; 3; 4; 5; 6; 7]%Q.

(** * Properties *)

(** ** Helpers on results, rationals and lists *)

Lemma bind_Ok_inv {X Y : Type} (m : result X) (k : X -> result Y) (y : Y) :
  m ≫= k = Ok y -> exists x, m = Ok x /\ k x = Ok y.
Proof. destruct m as [x| |]; cbn; [eauto | discriminate | discriminate]. Qed.

Lemma bind_Throw_inv {X Y : Type} (m : result X) (k : X -> result Y) (e : exn) :
  m ≫= k = Throw e -> m = Throw e \/ exists x, m = Ok x /\ k x = Throw e.
Proof. destruct m as [x| |]; cbn; [eauto | intros [= ->]; eauto | discriminate]. Qed.

Lemma Qltb_lt (x y : Q) : Qltb x y = true <-> (x < y)%Q.
Proof.
  unfold Qltb. rewrite negb_true_iff, <- not_true_iff_false, Qle_bool_iff.
  split; [apply Qnot_le_lt | apply Qlt_not_le].
Qed.

Lemma Qltb_ge (x y : Q) : Qltb x y = false <-> (y <= x)%Q.
Proof. unfold Qltb. rewrite negb_false_iff. apply Qle_bool_iff. Qed.

Section de_self_adaptive_facts.

Context {rng_uint32 rng_double : Type} {RS : RandomSource rng_uint32 rng_double}.
Context {PR : PopulationRanking} {Pf : Platform}.

Local Abbreviation de_self_adaptive := (de_self_adaptive rng_uint32 rng_double).
Local Abbreviation evolve_state := (evolve_state rng_uint32 rng_double).

(** *** The loops of [evolve] throw nothing *)

Lemma pick_index_no_throw (fuel NP : nat) (excl : list nat) (g : rng_uint32) (e : exn) :
  pick_index fuel NP excl g <> Throw e.
Proof.
  revert g; induction fuel as [|fuel IH]; intros g; cbn; [discriminate|].
  destruct (uniform_int 0 (NP - 1) g) as [r g'].
  destruct (existsb (Nat.eqb r) excl); [apply IH | discriminate].
Qed.

Lemma pick_indices_no_throw (fuel NP i : nat) (g : rng_uint32) (e : exn) :
  pick_indices fuel NP i g <> Throw e.
Proof.
  unfold pick_indices. intros H.
  repeat (apply bind_Throw_inv in H as [H | ([? ?] & _ & H)];
          [exact (pick_index_no_throw _ _ _ _ _ H)|]).
  discriminate.
Qed.

Lemma make_trial_no_throw (fuel NP i : nat) (st : evolve_state) (e : exn) :
  make_trial fuel NP i st <> Throw e.
Proof.
  unfold make_trial. intros H.
  apply bind_Throw_inv in H as [H | ([r g] & _ & H)];
    [exact (pick_indices_no_throw _ _ _ _ _ H)|].
  repeat (let p := fresh in destruct (adapt _ _ _ _ _ _ _) as [? ?]).
  destruct (build_trial _ _ _ _ _ _ _ _ _) as [[? ?] ?].
  destruct (repair _ _ _). discriminate.
Qed.

Lemma individual_step_no_throw (fuel NP i : nat) (st : evolve_state) (e : exn) :
  individual_step fuel NP i st <> Throw e.
Proof.
  unfold individual_step. intros H.
  apply bind_Throw_inv in H as [H | ([[[[? ?] ?] ?] ?] & _ & H)];
    [exact (make_trial_no_throw _ _ _ _ _ H) | discriminate].
Qed.

Lemma deme_loop_no_throw (fuel NP k i : nat) (st : evolve_state) (e : exn) :
  deme_loop fuel NP k i st <> Throw e.
Proof.
  revert i st; induction k as [|k IH]; intros i st; cbn; [discriminate|].
  intros H. apply bind_Throw_inv in H as [H | (st' & _ & H)].
  - exact (individual_step_no_throw _ _ _ _ _ H).
  - exact (IH _ _ H).
Qed.

Lemma generation_no_throw (fuel NP : nat) (st : evolve_state) (e : exn) :
  generation fuel NP st <> Throw e.
Proof.
  unfold generation. intros H.
  apply bind_Throw_inv in H as [H | (st' & _ & H)];
    [exact (deme_loop_no_throw _ _ _ _ _ _ H) | discriminate].
Qed.

Lemma gen_loop_no_throw (fuel NP k : nat) (gen : Z) (st : evolve_state) (e : exn) :
  gen_loop fuel NP k gen st <> Throw e.
Proof.
  revert gen st; induction k as [|k IH]; intros gen st; cbn; [discriminate|].
  intros H. apply bind_Throw_inv in H as [H | (st' & _ & H)].
  - exact (generation_no_throw _ _ _ _ H).
  - destruct (exit_check gen st') as [[] st'']; [discriminate | exact (IH _ _ H)].
Qed.

(** *** With a sampling that comes to an end the loops return *)

Lemma pick_index_returns (fuel NP : nat) (excl : list nat) (g : rng_uint32) :
  sampling_returns fuel NP -> (length excl <= 7)%nat ->
  exists r g', pick_index fuel NP excl g = Ok (r, g').
Proof.
  intros Hs Hl. destruct (pick_index fuel NP excl g) as [[r g']|e|] eqn:E.
  - eauto.
  - exfalso. exact (pick_index_no_throw _ _ _ _ _ E).
  - exfalso. exact (Hs _ _ Hl E).
Qed.

Lemma pick_indices_returns (fuel NP i : nat) (g : rng_uint32) :
  sampling_returns fuel NP -> exists r g', pick_indices fuel NP i g = Ok (r, g').
Proof.
  intros Hs. unfold pick_indices.
  repeat match goal with
         | |- context [pick_index fuel NP ?excl ?g0] =>
             let H := fresh in
             destruct (pick_index_returns fuel NP excl g0 Hs ltac:(cbn; lia))
               as (? & ? & H);
             rewrite H; cbn [mbind result_bind]
         end.
  eauto.
Qed.

Lemma make_trial_returns (fuel NP i : nat) (st : evolve_state) :
  sampling_returns fuel NP -> exists t, make_trial fuel NP i st = Ok t.
Proof.
  intros Hs. unfold make_trial.
  destruct (pick_indices_returns fuel NP i (m_urng (algo st)) Hs) as (r & g & ->).
  cbn [mbind result_bind].
  repeat (destruct (adapt _ _ _ _ _ _ _) as [? ?]).
  destruct (build_trial _ _ _ _ _ _ _ _ _) as [[? ?] ?].
  destruct (repair _ _ _). eauto.
Qed.

Lemma individual_step_returns (fuel NP i : nat) (st : evolve_state) :
  sampling_returns fuel NP -> exists st', individual_step fuel NP i st = Ok st'.
Proof.
  intros Hs. unfold individual_step.
  destruct (make_trial_returns fuel NP i st Hs) as ([[[[? ?] ?] ?] ?] & ->).
  cbn [mbind result_bind]. eauto.
Qed.

Lemma deme_loop_returns (fuel NP k i : nat) (st : evolve_state) :
  sampling_returns fuel NP -> exists st', deme_loop fuel NP k i st = Ok st'.
Proof.
  intros Hs. revert i st; induction k as [|k IH]; intros i st; cbn [deme_loop];
    [eauto|].
  destruct (individual_step_returns fuel NP i st Hs) as (st1 & ->).
  cbn [mbind result_bind]. apply IH.
Qed.

Lemma generation_returns (fuel NP : nat) (st : evolve_state) :
  sampling_returns fuel NP -> exists st', generation fuel NP st = Ok st'.
Proof.
  intros Hs. unfold generation.
  destruct (deme_loop_returns fuel NP NP 0 st Hs) as (st1 & ->).
  cbn [mbind result_bind]. eauto.
Qed.

Lemma gen_loop_returns (fuel NP k : nat) (gen : Z) (st : evolve_state) :
  sampling_returns fuel NP -> exists st', gen_loop fuel NP k gen st = Ok st'.
Proof.
  intros Hs. revert gen st; induction k as [|k IH]; intros gen st; cbn [gen_loop];
    [eauto|].
  destruct (generation_returns fuel NP st Hs) as (st1 & ->).
  cbn [mbind result_bind].
  destruct (exit_check gen st1) as [[] st2]; [eauto | apply IH].
Qed.

Lemma evolve_returns (fuel : nat) (a : de_self_adaptive) (p : population) :
  sampling_returns fuel (pop_size p) -> evolve_checks p = Ok tt ->
  exists a' p', evolve fuel a p = Ok (a', p').
Proof.
  intros Hs Hok. unfold evolve. rewrite Hok. cbn [mbind result_bind].
  destruct (m_gen a =? 0)%Z; [eauto|].
  destruct (gen_loop_returns fuel (pop_size p) (Z.to_nat (m_gen a)) 0
              (initial_state a p) Hs) as (st & ->).
  cbn [mbind result_bind]. eauto.
Qed.

Lemma evolve_checks_Ok (p : population) :
  evolve_checks p = Ok tt <->
  Dc_of (pop_problem p) <> 0%nat /\ get_c_dimension (pop_problem p) = 0%nat /\
  get_f_dimension (pop_problem p) = 1%nat /\ (8 <= pop_size p)%nat.
Proof.
  unfold evolve_checks.
  destruct (Nat.eqb_spec (Dc_of (pop_problem p)) 0);
    [split; [discriminate | intros (? & _); contradiction]|].
  destruct (Nat.eqb_spec (get_c_dimension (pop_problem p)) 0); cbn [negb];
    [|split; [discriminate | intros (_ & ? & _); contradiction]].
  destruct (Nat.eqb_spec (get_f_dimension (pop_problem p)) 1); cbn [negb];
    [|split; [discriminate | intros (_ & _ & ? & _); contradiction]].
  destruct (Nat.ltb_spec (pop_size p) 8);
    [split; [discriminate | intros (_ & _ & _ & ?); lia]|].
  split; [auto | reflexivity].
Qed.

Lemma evolve_checks_cases (p : population) :
  evolve_checks p = Ok tt \/ exists msg, evolve_checks p = Throw (value_error msg).
Proof.
  unfold evolve_checks.
  repeat match goal with |- context [if ?b then _ else _] => destruct b end; eauto.
Qed.

(** C2. [evolve] throws a value error exactly when Dc = 0, or the constraint
    dimension is not 0, or the fitness dimension is not 1, or the population
    has fewer than 8 individuals; the error is that of the checks at the
    start, whatever the algorithm's state.  With all dimensions in order a
    population of 7 is refused and a population of 8 is not: it passes the
    checks, nothing is thrown later, and [evolve] returns the evolved
    population as soon as the sampling of the indices comes to an end. *)
Theorem evolve_value_error_iff (fuel : nat) (a : de_self_adaptive) (p : population) :
  let prob := pop_problem p in
  ((exists msg, evolve fuel a p = Throw (value_error msg)) <->
     (Dc_of prob = 0%nat \/ get_c_dimension prob <> 0%nat \/
      get_f_dimension prob <> 1%nat \/ (pop_size p < 8)%nat)) /\
  (forall e, evolve fuel a p = Throw e -> evolve_checks p = Throw e) /\
  (pop_size p = 7%nat -> exists msg, evolve fuel a p = Throw (value_error msg)) /\
  (pop_size p = 8%nat -> Dc_of prob <> 0%nat -> get_c_dimension prob = 0%nat ->
   get_f_dimension prob = 1%nat ->
   evolve_checks p = Ok tt /\ (forall e, evolve fuel a p <> Throw e) /\
   (sampling_returns fuel 8 -> exists a' p', evolve fuel a p = Ok (a', p'))).
Proof.
  intros prob.
  assert (Hthrow : forall e, evolve fuel a p = Throw e -> evolve_checks p = Throw e).
  { intros e H. unfold evolve in H.
    apply bind_Throw_inv in H as [H | ([] & _ & H)]; [exact H|].
    destruct (m_gen a =? 0)%Z; [discriminate|].
    apply bind_Throw_inv in H as [H | (st & _ & H)]; [|discriminate].
    exfalso. exact (gen_loop_no_throw _ _ _ _ _ _ H). }
  assert (Hbad : (Dc_of prob = 0%nat \/ get_c_dimension prob <> 0%nat \/
                  get_f_dimension prob <> 1%nat \/ (pop_size p < 8)%nat) ->
                 exists msg, evolve fuel a p = Throw (value_error msg)).
  { intros Hc. destruct (evolve_checks_cases p) as [Hok | [msg Hmsg]].
    - apply evolve_checks_Ok in Hok. subst prob. lia.
    - exists msg. unfold evolve. rewrite Hmsg. reflexivity. }
  split; [split|split; [|split]].
  - intros [msg H]. apply Hthrow in H.
    destruct (Nat.eq_dec (Dc_of prob) 0); [auto|].
    destruct (Nat.eq_dec (get_c_dimension prob) 0); [|auto].
    destruct (Nat.eq_dec (get_f_dimension prob) 1); [|auto].
    destruct (Nat.lt_ge_cases (pop_size p) 8); [auto|].
    assert (evolve_checks p = Ok tt) as Hok by (apply evolve_checks_Ok; auto).
    congruence.
  - exact Hbad.
  - exact Hthrow.
  - intros H7. apply Hbad. lia.
  - intros H8 HDc HC HF.
    assert (evolve_checks p = Ok tt) as Hok by (apply evolve_checks_Ok; split_and!; auto; lia).
    split; [exact Hok|]. split.
    + intros e H. apply Hthrow in H. congruence.
    + intros Hs. apply evolve_returns; [rewrite H8; exact Hs | exact Hok].
Qed.

(** *** The constructor *)

Lemma make_de_self_adaptive_Ok (gen variant variant_adptv : Z) (ftol xtol : Q)
    (restart : bool) (drng : rng_double) (urng : rng_uint32) (a : de_self_adaptive) :
  make_de_self_adaptive gen variant variant_adptv ftol xtol restart drng urng = Ok a ->
  (0 <= m_gen a)%Z /\ (1 <= m_variant a <= 18)%Z /\ (0 <= m_variant_adptv a <= 1)%Z /\
  m_f a = [] /\ m_cr a = [].
Proof.
  unfold make_de_self_adaptive.
  destruct (Z.ltb_spec gen 0); [discriminate|].
  destruct (Z.ltb_spec variant 1); [discriminate|].
  destruct (Z.ltb_spec 18 variant); [discriminate|].
  destruct (Z.ltb_spec variant_adptv 0); [discriminate|].
  destruct (Z.ltb_spec 1 variant_adptv); [discriminate|].
  cbn. intros [= <-]. cbn. split_and!; try reflexivity; lia.
Qed.

(** *** Initialisation of F and CR *)

Lemma resize_length (n : nat) (v : list Q) : length (resize n v) = n.
Proof. unfold resize. rewrite length_app, length_take, length_replicate. lia. Qed.

Lemma fill_loop_draw_list (draw : rng_double -> Q * rng_double) (k i : nat)
    (v : list Q) (g : rng_double) :
  length v = (i + k)%nat ->
  fill_loop draw k i v g = (take i v ++ (draw_list draw k g).1, (draw_list draw k g).2).
Proof.
  revert i v g; induction k as [|k IH]; intros i v g Hlen; cbn.
  - rewrite app_nil_r, take_ge by lia. reflexivity.
  - destruct (draw g) as [x g'].
    rewrite IH by (rewrite length_insert; lia).
    destruct (draw_list draw k g') as [xs g'']; cbn. f_equal.
    replace (i + 1)%nat with (S i) by lia.
    rewrite (take_S_r _ _ x) by (apply list_lookup_insert_eq; lia).
    rewrite take_insert_ge by lia. rewrite <- app_assoc. reflexivity.
Qed.

Lemma draw_list_length {G : Type} (draw : G -> Q * G) (n : nat) (g : G) :
  length (draw_list draw n g).1 = n.
Proof.
  revert g; induction n as [|n IH]; intros g; cbn; [reflexivity|].
  destruct (draw g) as [x g']. specialize (IH g').
  destruct (draw_list draw n g'); cbn in *. lia.
Qed.

(** C6, amended.  A call of [evolve] that passes the checks and has a
    number of generations other than 0 starts its generations with the
    algorithm [init_f_cr a NP].  That leaves the algorithm alone when both
    vectors have length NP and the restart flag is off, and otherwise
    replaces CR by NP fresh draws and then F by NP fresh draws: from
    normal(0.5, 0.15) when the adaptation scheme is not 0, and from
    uniform(0, 1) for CR and uniform(0.1, 1) for F when it is 0. *)
Theorem init_f_cr_spec (a : de_self_adaptive) (p : population) (fuel : nat) :
  let NP := pop_size p in
  let adptv := m_variant_adptv a in
  let crs := draw_list (cr_init_draw adptv) NP (m_drng a) in
  let fs := draw_list (f_init_draw adptv) NP crs.2 in
  (evolve_checks p = Ok tt -> m_gen a <> 0%Z ->
   evolve fuel a p =
     (st ← gen_loop fuel NP (Z.to_nat (m_gen a)) 0 (initial_state a p);
      Ok (algo st, pop st)) /\
   algo (initial_state a p) = init_f_cr a NP) /\
  (needs_init a NP = true <->
     length (m_cr a) <> NP \/ length (m_f a) <> NP \/ m_restart a = true) /\
  (needs_init a NP = false -> init_f_cr a NP = a) /\
  (needs_init a NP = true ->
     init_f_cr a NP = with_rngs (with_f_cr a fs.1 crs.1) fs.2 (m_urng a) /\
     length fs.1 = NP /\ length crs.1 = NP) /\
  (adptv <> 0%Z ->
     cr_init_draw adptv = normal_distribution 0.5 0.15 /\
     f_init_draw adptv = normal_distribution 0.5 0.15) /\
  (adptv = 0%Z ->
     cr_init_draw adptv = uniform_real 0.0 1.0 /\
     f_init_draw adptv = uniform_real 0.1 1.0).
Proof.
  intros NP adptv crs fs. split_and!.
  - intros Hok Hgen. split; [|reflexivity].
    unfold evolve. rewrite Hok. cbn.
    destruct (Z.eqb_spec (m_gen a) 0); [contradiction | reflexivity].
  - unfold needs_init. rewrite !orb_true_iff, !negb_true_iff, !Nat.eqb_neq. tauto.
  - intros H. unfold init_f_cr. rewrite H. reflexivity.
  - intros H. split; [|split; apply draw_list_length].
    unfold init_f_cr. rewrite H.
    rewrite fill_loop_draw_list by (rewrite resize_length; reflexivity).
    fold adptv. fold crs. cbn [take app].
    rewrite fill_loop_draw_list by (rewrite resize_length; reflexivity).
    reflexivity.
  - intros H. unfold cr_init_draw, f_init_draw.
    destruct (Z.eqb_spec adptv 0); [contradiction | auto].
  - intros H. unfold cr_init_draw, f_init_draw. rewrite H. auto.
Qed.

(** *** Crossover *)

Lemma build_trial_exponential (F : Q) (popold : list decision_vector)
    (gbIter : decision_vector) (i : nat) (r : indices) (variant : Z) (Dc : nat)
    (CR : Q) (s : trial_state) :
  variant ∈ exponential_variants ->
  build_trial F popold gbIter i r variant Dc CR s =
  exp_crossover Dc CR (mutation_of F popold gbIter i r variant) (popold !!! i) s.
Proof.
  unfold exponential_variants. rewrite !elem_of_cons, elem_of_nil.
  destruct s as [[t0 g] u].
  intros [->|[->|[->|[->|[->|[->|[->|[->|[->|[]]]]]]]]]]; reflexivity.
Qed.

Lemma build_trial_binomial (F : Q) (popold : list decision_vector)
    (gbIter : decision_vector) (i : nat) (r : indices) (variant : Z) (Dc : nat)
    (CR : Q) (s : trial_state) :
  variant ∈ [6; 7; 8; 9; 10; 12; 14; 16; 18]%Z ->
  build_trial F popold gbIter i r variant Dc CR s =
  bin_crossover Dc CR (mutation_of F popold gbIter i r variant) (popold !!! i) s.
Proof.
  rewrite !elem_of_cons, elem_of_nil.
  destruct s as [[t0 g] u].
  intros [->|[->|[->|[->|[->|[->|[->|[->|[->|[]]]]]]]]]]; reflexivity.
Qed.

Lemma build_trial_other (F : Q) (popold : list decision_vector)
    (gbIter : decision_vector) (i : nat) (r : indices) (variant : Z) (Dc : nat)
    (CR : Q) (s : trial_state) :
  ~ (1 <= variant <= 18)%Z ->
  build_trial F popold gbIter i r variant Dc CR s = s.
Proof.
  intros H. unfold build_trial.
  repeat match goal with
         | |- context [(variant =? ?k)%Z] =>
             destruct (Z.eqb_spec variant k); [lia|]
         end.
  reflexivity.
Qed.

(** The rounds after the first leave the first position alone. *)
Lemma exp_loop_keeps (Dc : nat) (CR : Q) (e : mutation) (n0 : nat) (fuel : nat) :
  forall (t : decision_vector) (n L : nat) (g : rng_double),
    (n0 < Dc)%nat -> (1 <= L)%nat -> (fuel + L <= Dc)%nat ->
    n = ((n0 + L) mod Dc)%nat ->
    (exp_loop fuel Dc CR e t n L g).1.1 !!! n0 = t !!! n0.
Proof.
  induction fuel as [|fuel IH]; intros t n L g Hn0 HL Hfuel Hn; cbn [exp_loop];
    [reflexivity|].
  destruct (next_double g) as [u g'].
  assert (n <> n0) as Hne.
  { subst n. intros Heq.
    assert (((n0 + L) mod Dc) = (n0 mod Dc))%nat as Hmod
      by (rewrite Heq; symmetry; apply Nat.mod_small; lia).
    pose proof (Nat.Div0.div_mod (n0 + L) Dc) as H1.
    rewrite Hmod, (Nat.mod_small n0 Dc) in H1 by lia.
    assert (Dc * ((n0 + L) / Dc) = L)%nat as H2 by lia.
    destruct ((n0 + L) / Dc)%nat as [|q]; [lia | nia]. }
  destruct (Qltb u CR && (L + 1 <? Dc)%nat).
  - rewrite IH; [apply list_lookup_total_insert_ne; exact Hne | lia | lia | lia |].
    subst n. rewrite Nat.Div0.add_mod_idemp_l. f_equal. lia.
  - cbn. apply list_lookup_total_insert_ne. exact Hne.
Qed.

Lemma exp_loop_count (Dc : nat) (CR : Q) (e : mutation) (fuel : nat) :
  forall (t : decision_vector) (n L : nat) (g : rng_double),
    (L <= (exp_loop fuel Dc CR e t n L g).1.2)%nat /\
    (0 < fuel -> L < (exp_loop fuel Dc CR e t n L g).1.2)%nat.
Proof.
  induction fuel as [|fuel IH]; intros t n L g; cbn [exp_loop]; [cbn; lia|].
  destruct (next_double g) as [u g'].
  destruct (Qltb u CR && (L + 1 <? Dc)%nat); [|cbn; lia].
  match goal with |- context [exp_loop fuel Dc CR e ?t' ?n' ?L' ?g'] =>
    destruct (IH t' n' L' g') as [H _] end.
  lia.
Qed.

(** C10. For each of the variants 1, 2, 3, 4, 5, 11, 13, 15 and 17 the trial
    is built by the exponential crossover with the mutation of the variant,
    and its loop, started at position [n] of the vector [x], always makes at
    least one assignment: the count [L] it ends with is at least 1, the
    component at [n] is the mutation evaluated on [x] whatever CR and the
    generator are, and when CR <= 0 (with draws that are not negative) that
    assignment is the only change. *)
Theorem exponential_crossover_updates_first (F : Q) (popold : list decision_vector)
    (gbIter : decision_vector) (i : nat) (r : indices) (variant : Z) (Dc : nat)
    (CR : Q) (s : trial_state) :
  variant ∈ exponential_variants ->
  (0 < Dc)%nat ->
  let e := mutation_of F popold gbIter i r variant in
  build_trial F popold gbIter i r variant Dc CR s =
    exp_crossover Dc CR e (popold !!! i) s /\
  forall (x : decision_vector) (n : nat) (g : rng_double),
    let out := exp_loop Dc Dc CR e x n 0 g in
    (1 <= out.1.2)%nat /\
    ((n < Dc)%nat -> (n < length x)%nat -> out.1.1 !!! n = e x n) /\
    ((CR <= 0)%Q -> (0 <= (next_double g).1)%Q ->
     out = (<[n := e x n]> x, 1%nat, (next_double g).2)).
Proof.
  intros Hin HDc e. split; [apply build_trial_exponential; exact Hin|].
  intros x n g out. subst out. split_and!.
  - destruct (exp_loop_count Dc CR e Dc x n 0 g) as [_ H]. specialize (H HDc). lia.
  - intros Hn Hlen. destruct Dc as [|Dc']; [lia|]. cbn [exp_loop].
    destruct (next_double g) as [u g'].
    destruct (Qltb u CR && (0 + 1 <? S Dc')%nat).
    + rewrite (exp_loop_keeps (S Dc') CR e n); [| lia | lia | lia |].
      * apply list_lookup_total_insert_eq. exact Hlen.
      * reflexivity.
    + cbn. apply list_lookup_total_insert_eq. exact Hlen.
  - intros HCR Hu. destruct Dc as [|Dc']; [lia|]. cbn [exp_loop].
    destruct (next_double g) as [u g']. change (0 <= u)%Q in Hu.
    assert (Qltb u CR = false) as -> by (apply Qltb_ge; lra).
    reflexivity.
Qed.

(** *** The population operations keep sizes, the problem and the box *)

Lemma Dc_of_le (prob : problem) :
  problem_box_ok prob -> (Dc_of prob <= get_dimension prob)%nat.
Proof.
  intros (Hi & Hd & _). unfold Dc_of, size_sub.
  rewrite Z.mod_small by lia. lia.
Qed.

Lemma update_champion_container (p : population) (i : nat) :
  m_container (update_champion p i) = m_container p.
Proof. unfold update_champion. destruct (compare_fitness _ _ _); auto. Qed.

Lemma update_champion_problem (p : population) (i : nat) :
  pop_problem (update_champion p i) = pop_problem p.
Proof. unfold update_champion. destruct (compare_fitness _ _ _); auto. Qed.

Lemma set_x_problem (p : population) (i : nat) (x : decision_vector) :
  pop_problem (set_x p i x) = pop_problem p.
Proof.
  unfold set_x. destruct (m_container p !! i); [|reflexivity].
  rewrite update_champion_problem. reflexivity.
Qed.

Lemma set_v_problem (p : population) (i : nat) (v : decision_vector) :
  pop_problem (set_v p i v) = pop_problem p.
Proof. unfold set_v. destruct (m_container p !! i); reflexivity. Qed.

Lemma set_x_size (p : population) (i : nat) (x : decision_vector) :
  pop_size (set_x p i x) = pop_size p.
Proof.
  unfold set_x, pop_size. destruct (m_container p !! i); [|reflexivity].
  rewrite update_champion_container. cbn. apply length_insert.
Qed.

Lemma set_v_size (p : population) (i : nat) (v : decision_vector) :
  pop_size (set_v p i v) = pop_size p.
Proof.
  unfold set_v, pop_size. destruct (m_container p !! i); [|reflexivity].
  cbn. apply length_insert.
Qed.

(** [set_x] puts [x] in slot [i] and leaves the other current vectors. *)
Lemma set_x_cur_x (p : population) (i : nat) (x : decision_vector)
    (P : decision_vector -> Prop) :
  Forall (fun ind => P (cur_x ind)) (m_container p) -> P x ->
  Forall (fun ind => P (cur_x ind)) (m_container (set_x p i x)).
Proof.
  intros Hall Hx. unfold set_x. destruct (m_container p !! i) as [ind|]; [|exact Hall].
  rewrite update_champion_container.
  cbn. apply Forall_insert; [exact Hall | exact Hx].
Qed.

Lemma set_v_cur_x (p : population) (i : nat) (v : decision_vector)
    (P : decision_vector -> Prop) :
  Forall (fun ind => P (cur_x ind)) (m_container p) ->
  Forall (fun ind => P (cur_x ind)) (m_container (set_v p i v)).
Proof.
  intros Hall. unfold set_v. destruct (m_container p !! i) as [ind|] eqn:E; [|exact Hall].
  cbn. apply Forall_insert; [exact Hall|]. cbn.
  exact (Forall_lookup_1 _ _ _ _ Hall E).
Qed.

Lemma store_shaped (p : population) (i : nat) (x v : decision_vector) :
  pop_shaped p -> length x = get_dimension (pop_problem p) ->
  pop_shaped (set_v (set_x p i x) i v).
Proof.
  intros Hp Hx. unfold pop_shaped. rewrite set_v_problem, set_x_problem.
  apply (set_v_cur_x _ _ _ (fun y => length y = get_dimension (pop_problem p))).
  apply (set_x_cur_x _ _ _ (fun y => length y = get_dimension (pop_problem p)));
    assumption.
Qed.

Lemma store_in_box (p : population) (i : nat) (x v : decision_vector) :
  pop_in_box p -> in_box (pop_problem p) x ->
  pop_in_box (set_v (set_x p i x) i v).
Proof.
  intros Hp Hx. unfold pop_in_box. rewrite set_v_problem, set_x_problem.
  apply (set_v_cur_x _ _ _ (in_box (pop_problem p))).
  apply (set_x_cur_x _ _ _ (in_box (pop_problem p))); assumption.
Qed.

(** After [set_x] and [set_v] slot [i] holds exactly what was stored. *)
Lemma set_v_set_x_slot (p : population) (i : nat) (x v : decision_vector) :
  (i < pop_size p)%nat ->
  cur_x (get_individual (set_v (set_x p i x) i v) i) = x /\
  cur_v (get_individual (set_v (set_x p i x) i v) i) = v.
Proof.
  intros Hi. unfold pop_size in Hi.
  destruct (lookup_lt_is_Some_2 _ _ Hi) as [ind Hind].
  assert (m_container (set_x p i x) !! i =
          Some {| cur_x := x; cur_v := cur_v ind; cur_f := objfun (pop_problem p) x;
                  best_x := if compare_fitness (pop_problem p) (objfun (pop_problem p) x) (best_f ind)
                            then x else best_x ind;
                  best_f := if compare_fitness (pop_problem p) (objfun (pop_problem p) x) (best_f ind)
                            then objfun (pop_problem p) x else best_f ind |}) as Hx.
  { unfold set_x. rewrite Hind, update_champion_container.
    cbn. apply list_lookup_insert_eq. exact Hi. }
  unfold set_v, get_individual. rewrite Hx. cbn.
  rewrite list_lookup_total_insert_eq
    by (apply lookup_lt_is_Some_1; rewrite Hx; eauto).
  auto.
Qed.

Lemma variant_cases (variant : Z) :
  (1 <= variant <= 18)%Z ->
  variant ∈ exponential_variants \/ variant ∈ [6; 7; 8; 9; 10; 12; 14; 16; 18]%Z.
Proof.
  intros H. unfold exponential_variants. rewrite !elem_of_cons, !elem_of_nil. lia.
Qed.

(** *** Crossover and feasibility keep the size of the trial *)

Lemma exp_loop_length (Dc : nat) (CR : Q) (e : mutation) (fuel : nat) :
  forall (t : decision_vector) (n L : nat) (g : rng_double),
    length (exp_loop fuel Dc CR e t n L g).1.1 = length t.
Proof.
  induction fuel as [|fuel IH]; intros t n L g; cbn [exp_loop]; [reflexivity|].
  destruct (next_double g) as [u g'].
  destruct (Qltb u CR && (L + 1 <? Dc)%nat); [rewrite IH | cbn]; apply length_insert.
Qed.

Lemma bin_loop_length (Dc : nat) (CR : Q) (e : mutation) (k : nat) :
  forall (t : decision_vector) (n L : nat) (g : rng_double),
    length (bin_loop k Dc CR e t n L g).1 = length t.
Proof.
  induction k as [|k IH]; intros t n L g; cbn [bin_loop]; [reflexivity|].
  destruct (next_double g) as [u g']. rewrite IH.
  destruct (Qltb u CR || (L + 1 =? Dc)%nat); [apply length_insert | reflexivity].
Qed.

Lemma exp_crossover_length (Dc : nat) (CR : Q) (e : mutation) (x : decision_vector)
    (s : trial_state) :
  length (exp_crossover Dc CR e x s).1.1 = length x.
Proof.
  destruct s as [[t0 g] u]. unfold exp_crossover.
  destruct (uniform_int 0 (Dc - 1) u) as [n u'].
  pose proof (exp_loop_length Dc CR e Dc x n 0 g) as H.
  destruct (exp_loop Dc Dc CR e x n 0 g) as [[t L] g']. exact H.
Qed.

Lemma bin_crossover_length (Dc : nat) (CR : Q) (e : mutation) (x : decision_vector)
    (s : trial_state) :
  length (bin_crossover Dc CR e x s).1.1 = length x.
Proof.
  destruct s as [[t0 g] u]. unfold bin_crossover.
  destruct (uniform_int 0 (Dc - 1) u) as [n u'].
  pose proof (bin_loop_length Dc CR e Dc x n 0 g) as H.
  destruct (bin_loop Dc Dc CR e x n 0 g) as [t g']. exact H.
Qed.

Lemma build_trial_size (F : Q) (popold : list decision_vector)
    (gbIter : decision_vector) (i : nat) (r : indices) (variant : Z) (Dc : nat)
    (CR : Q) (s : trial_state) :
  length s.1.1 = length (popold !!! i) ->
  length (build_trial F popold gbIter i r variant Dc CR s).1.1 = length (popold !!! i).
Proof.
  intros Hs. destruct (decide (1 <= variant <= 18)%Z) as [Hv | Hv].
  - destruct (variant_cases variant Hv) as [Hin | Hin].
    + rewrite build_trial_exponential by exact Hin. apply exp_crossover_length.
    + rewrite build_trial_binomial by exact Hin. apply bin_crossover_length.
  - rewrite build_trial_other by exact Hv. exact Hs.
Qed.

Lemma repair_loop_length (lb ub : decision_vector) (k : nat) :
  forall (i2 : nat) (t : decision_vector) (g : rng_double),
    length (repair_loop lb ub k i2 t g).1 = length t.
Proof.
  induction k as [|k IH]; intros i2 t g; cbn [repair_loop]; [reflexivity|].
  destruct (Qltb _ _ || Qltb _ _).
  - destruct (uniform_real _ _ g) as [x g']. rewrite IH. apply length_insert.
  - apply IH.
Qed.

(** *** What crossover and feasibility change *)

Lemma exp_loop_frame (Dc : nat) (CR : Q) (e : mutation) (fuel : nat) :
  forall (t : decision_vector) (n L : nat) (g : rng_double),
    (n < Dc)%nat ->
    length (exp_loop fuel Dc CR e t n L g).1.1 = length t /\
    forall j, (Dc <= j)%nat -> (exp_loop fuel Dc CR e t n L g).1.1 !!! j = t !!! j.
Proof.
  induction fuel as [|fuel IH]; intros t n L g Hn; cbn [exp_loop]; [auto|].
  destruct (next_double g) as [u g'].
  destruct (Qltb u CR && (L + 1 <? Dc)%nat).
  - destruct (IH (<[n := e t n]> t) ((n + 1) mod Dc)%nat (L + 1)%nat g') as [Hlen Hj];
      [apply Nat.mod_upper_bound; lia|].
    rewrite Hlen, length_insert. split; [reflexivity|].
    intros j Hge. rewrite Hj by exact Hge.
    apply list_lookup_total_insert_ne. lia.
  - cbn. rewrite length_insert. split; [reflexivity|].
    intros j Hge. apply list_lookup_total_insert_ne. lia.
Qed.

Lemma bin_loop_frame (Dc : nat) (CR : Q) (e : mutation) (k : nat) :
  forall (t : decision_vector) (n L : nat) (g : rng_double),
    (n < Dc)%nat ->
    length (bin_loop k Dc CR e t n L g).1 = length t /\
    forall j, (Dc <= j)%nat -> (bin_loop k Dc CR e t n L g).1 !!! j = t !!! j.
Proof.
  induction k as [|k IH]; intros t n L g Hn; cbn [bin_loop]; [auto|].
  destruct (next_double g) as [u g'].
  set (t' := if Qltb u CR || (L + 1 =? Dc)%nat then <[n := e t n]> t else t).
  assert (length t' = length t /\ forall j, (Dc <= j)%nat -> t' !!! j = t !!! j)
    as [Hlen' Hj'].
  { subst t'. destruct (Qltb u CR || (L + 1 =? Dc)%nat); [|auto].
    rewrite length_insert. split; [reflexivity|].
    intros j Hge. apply list_lookup_total_insert_ne. lia. }
  destruct (IH t' ((n + 1) mod Dc)%nat (L + 1)%nat g') as [Hlen Hj];
    [apply Nat.mod_upper_bound; lia|].
  rewrite Hlen, Hlen'. split; [reflexivity|].
  intros j Hge. rewrite Hj, Hj' by exact Hge. reflexivity.
Qed.

(** For a variant the constructor accepts, the trial has the size of
    [popold[i]] and agrees with it outside the continuous part. *)
Lemma build_trial_frame (Hlaws : RandomSourceLaws RS) (F : Q)
    (popold : list decision_vector) (gbIter : decision_vector) (i : nat)
    (r : indices) (variant : Z) (Dc : nat) (CR : Q) (s : trial_state) :
  (1 <= variant <= 18)%Z -> (0 < Dc)%nat ->
  let t := (build_trial F popold gbIter i r variant Dc CR s).1.1 in
  length t = length (popold !!! i) /\
  forall j, (Dc <= j)%nat -> t !!! j = (popold !!! i) !!! j.
Proof.
  intros Hv HDc. destruct s as [[t0 g] u].
  pose proof (uniform_int_range 0 (Dc - 1) u (Nat.le_0_l _)) as Hrange.
  destruct (variant_cases variant Hv) as [Hin | Hin].
  - rewrite build_trial_exponential by exact Hin. unfold exp_crossover.
    destruct (uniform_int 0 (Dc - 1) u) as [n u']. cbn in Hrange.
    pose proof (exp_loop_frame Dc CR (mutation_of F popold gbIter i r variant) Dc
                  (popold !!! i) n 0 g) as Hf.
    destruct (exp_loop Dc Dc CR _ (popold !!! i) n 0 g) as [[t L] g'].
    cbn in *. apply Hf. lia.
  - rewrite build_trial_binomial by exact Hin. unfold bin_crossover.
    destruct (uniform_int 0 (Dc - 1) u) as [n u']. cbn in Hrange.
    pose proof (bin_loop_frame Dc CR (mutation_of F popold gbIter i r variant) Dc
                  (popold !!! i) n 0 g) as Hf.
    destruct (bin_loop Dc Dc CR _ (popold !!! i) n 0 g) as [t g'].
    cbn in *. apply Hf. lia.
Qed.

Lemma repair_loop_spec (Hlaws : RandomSourceLaws RS) (lb ub : decision_vector) (k : nat) :
  forall (i2 : nat) (t : decision_vector) (g : rng_double),
    (forall j, (i2 <= j < i2 + k)%nat -> (lb !!! j <= ub !!! j)%Q) ->
    (i2 + k <= length t)%nat ->
    let t' := (repair_loop lb ub k i2 t g).1 in
    length t' = length t /\
    (forall j, (j < i2 \/ i2 + k <= j)%nat -> t' !!! j = t !!! j) /\
    (forall j, (i2 <= j < i2 + k)%nat ->
       (lb !!! j <= t' !!! j)%Q /\ (t' !!! j <= ub !!! j)%Q).
Proof.
  induction k as [|k IH]; intros i2 t g Hbox Hlen; cbn [repair_loop].
  - cbn. split_and!; [reflexivity | reflexivity | intros j Hj; lia].
  - destruct (Qltb (t !!! i2) (lb !!! i2) || Qltb (ub !!! i2) (t !!! i2)) eqn:Hout.
    + pose proof (uniform_real_range (lb !!! i2) (ub !!! i2) g (Hbox i2 ltac:(lia)))
        as Hdraw.
      destruct (uniform_real (lb !!! i2) (ub !!! i2) g) as [x g']. cbn in Hdraw.
      destruct (IH (i2 + 1)%nat (<[i2 := x]> t) g') as (Hl & Hframe & Hin);
        [intros j Hj; apply Hbox; lia | rewrite length_insert; lia|].
      cbn zeta in *. rewrite Hl, length_insert. split_and!; [reflexivity | |].
      * intros j Hj. rewrite Hframe by lia.
        apply list_lookup_total_insert_ne. lia.
      * intros j Hj. destruct (decide (j = i2)) as [-> | Hne].
        -- rewrite Hframe by lia.
           rewrite list_lookup_total_insert_eq by lia. exact Hdraw.
        -- apply Hin. lia.
    + apply orb_false_iff in Hout as [H1 H2].
      apply Qltb_ge in H1, H2.
      destruct (IH (i2 + 1)%nat t g) as (Hl & Hframe & Hin);
        [intros j Hj; apply Hbox; lia | lia|].
      cbn zeta in *. split_and!; [exact Hl | intros j Hj; apply Hframe; lia|].
      intros j Hj. destruct (decide (j = i2)) as [-> | Hne].
      * rewrite Hframe by lia. auto.
      * apply Hin. lia.
Qed.

(** *** One individual *)

Lemma make_trial_spec (Hlaws : RandomSourceLaws RS) (fuel NP i : nat)
    (st : evolve_state) (t : decision_vector) (F CR : Q) (g : rng_double)
    (u : rng_uint32) :
  let prob := pop_problem (pop st) in
  problem_box_ok prob -> Dc_of prob <> 0%nat ->
  state_shaped NP st -> (i < NP)%nat ->
  make_trial fuel NP i st = Ok (t, F, CR, g, u) ->
  length t = get_dimension prob /\
  (forall j, (j < Dc_of prob)%nat ->
     (get_lb prob !!! j <= t !!! j)%Q /\ (t !!! j <= get_ub prob !!! j)%Q) /\
  ((1 <= m_variant (algo st) <= 18)%Z ->
   forall j, (Dc_of prob <= j)%nat -> t !!! j = (popold st !!! i) !!! j).
Proof.
  intros prob Hbox HDc (Hsize & Hshaped & Hlo & Hfo & Hln & Hfn & Htmp) Hi Hmk.
  subst prob. set (prob := pop_problem (pop st)) in *.
  pose proof (Dc_of_le prob Hbox) as HDcle.
  assert (length (popold st !!! i) = get_dimension prob) as Hrow.
  { apply (Forall_lookup_total_1 _ _ _ Hfo). lia. }
  unfold make_trial, repair in Hmk.
  apply bind_Ok_inv in Hmk as ([r u0] & _ & Hmk).
  change (pop_problem (pop st)) with prob in Hmk.
  destruct (adapt _ (m_f _) _ _ _ _ _) as [F0 g0].
  destruct (adapt _ (m_cr _) _ _ _ _ _) as [CR0 g1].
  pose proof (build_trial_size F0 (popold st) (gbIter st) i r
                (m_variant (algo st)) (Dc_of prob) CR0 (tmp st, g1, u0)
                ltac:(cbn; lia)) as Hlen.
  pose proof (fun Hv => build_trial_frame Hlaws F0 (popold st) (gbIter st) i r
                (m_variant (algo st)) (Dc_of prob) CR0 (tmp st, g1, u0)
                Hv ltac:(lia)) as Hframe.
  destruct (build_trial F0 (popold st) (gbIter st) i r (m_variant (algo st))
              (Dc_of prob) CR0 (tmp st, g1, u0)) as [[t1 g2] u1].
  cbn [fst snd] in Hlen, Hframe.
  destruct (repair_loop_spec Hlaws (get_lb prob) (get_ub prob) (Dc_of prob) 0 t1 g2)
    as (Hl & Hfr & Hin).
  { intros j Hj. apply Hbox. lia. }
  { lia. }
  destruct (repair_loop (get_lb prob) (get_ub prob) (Dc_of prob) 0 t1 g2) as [t2 g3].
  cbn [fst] in Hl, Hfr, Hin. injection Hmk as <- <- <- <- <-.
  split_and!.
  - lia.
  - intros j Hj. apply Hin. lia.
  - intros Hv j Hj. rewrite Hfr by lia. apply (Hframe Hv). exact Hj.
Qed.

Lemma selection_problem (i : nat) (F CR : Q) (t : decision_vector) (st : evolve_state) :
  pop_problem (pop (selection i F CR t st)) = pop_problem (pop st).
Proof.
  unfold selection. destruct (compare_fitness _ _ (fit st !!! i)); [|reflexivity].
  destruct (compare_fitness _ _ (gbfit st)); cbn;
    rewrite set_v_problem, set_x_problem; reflexivity.
Qed.

Lemma transform_minus_length (a b : decision_vector) :
  length a = length b -> length (transform_minus a b) = length a.
Proof. intros H. unfold transform_minus. rewrite length_zip_with. lia. Qed.

Lemma selection_shaped (NP i : nat) (F CR : Q) (t : decision_vector) (st : evolve_state) :
  state_shaped NP st -> (i < NP)%nat ->
  length t = get_dimension (pop_problem (pop st)) ->
  state_shaped NP (selection i F CR t st).
Proof.
  intros (Hsize & Hshaped & Hlo & Hfo & Hln & Hfn & Htmp) Hi Ht.
  unfold state_shaped. rewrite selection_problem.
  assert (length (cur_x (get_individual (pop st) i)) = get_dimension (pop_problem (pop st)))
    as Hcur.
  { apply (Forall_lookup_total_1 _ _ _ Hshaped). unfold pop_size in Hsize. lia. }
  assert (length (popold st !!! i) = get_dimension (pop_problem (pop st))) as Hrow.
  { apply (Forall_lookup_total_1 _ _ _ Hfo). lia. }
  unfold selection. destruct (compare_fitness _ _ (fit st !!! i)).
  - assert (<[i := t]> (popnew st) !!! i = t) as Hti
      by (apply list_lookup_total_insert_eq; lia).
    destruct (compare_fitness _ _ (gbfit st)); cbn [pop popold popnew tmp];
      rewrite Hti, set_v_size, set_x_size, length_insert;
      (split_and!;
       [ exact Hsize
       | apply store_shaped; [exact Hshaped | exact Ht]
       | exact Hlo | exact Hfo | exact Hln
       | apply Forall_insert; [exact Hfn | exact Ht]
       | rewrite transform_minus_length; lia ]).
  - cbn [pop popold popnew tmp]. rewrite length_insert.
    split_and!; try assumption.
    apply Forall_insert; [exact Hfn | exact Hrow].
Qed.

Lemma selection_in_box (NP i : nat) (F CR : Q) (t : decision_vector) (st : evolve_state) :
  state_shaped NP st -> (i < NP)%nat ->
  state_in_box st -> in_box (pop_problem (pop st)) t ->
  state_in_box (selection i F CR t st).
Proof.
  intros (Hsize & Hshaped & Hlo & Hfo & Hln & Hfn & Htmp) Hi (Hp & Ho & Hn) Ht.
  unfold state_in_box. rewrite selection_problem.
  unfold selection. destruct (compare_fitness _ _ (fit st !!! i)).
  - assert (<[i := t]> (popnew st) !!! i = t) as Hti
      by (apply list_lookup_total_insert_eq; lia).
    destruct (compare_fitness _ _ (gbfit st)); cbn [pop popold popnew tmp];
      rewrite Hti;
      (split_and!;
       [ apply store_in_box; [exact Hp | exact Ht]
       | exact Ho
       | apply Forall_insert; [exact Hn | exact Ht] ]).
  - cbn [pop popold popnew tmp]. split_and!; try assumption.
    apply Forall_insert; [exact Hn|].
    apply (Forall_lookup_total_1 _ _ _ Ho). lia.
Qed.

Lemma individual_step_invariant (Hlaws : RandomSourceLaws RS) (fuel NP i : nat)
    (st st' : evolve_state) :
  problem_box_ok (pop_problem (pop st)) -> Dc_of (pop_problem (pop st)) <> 0%nat ->
  state_shaped NP st -> (i < NP)%nat ->
  individual_step fuel NP i st = Ok st' ->
  pop_problem (pop st') = pop_problem (pop st) /\
  m_variant (algo st') = m_variant (algo st) /\
  state_shaped NP st' /\
  ((1 <= m_variant (algo st) <= 18)%Z -> state_in_box st -> state_in_box st').
Proof.
  intros Hbox HDc Hsh Hi Hstep. unfold individual_step in Hstep.
  apply bind_Ok_inv in Hstep as ([[[[t F] CR] g] u] & Hmk & Hsel).
  injection Hsel as <-.
  destruct (make_trial_spec Hlaws fuel NP i st t F CR g u Hbox HDc Hsh Hi Hmk)
    as (Hlen & Hin & Hframe).
  set (st1 := with_algo st (with_rngs (algo st) g u)).
  assert (state_shaped NP st1) as Hsh1 by exact Hsh.
  split_and!.
  - rewrite selection_problem. reflexivity.
  - unfold selection. destruct (compare_fitness _ _ (fit st1 !!! i));
      [destruct (compare_fitness _ _ (gbfit st1))|]; reflexivity.
  - apply selection_shaped; assumption.
  - intros Hv Hib. apply (selection_in_box NP); [exact Hsh1 | exact Hi | exact Hib|].
    intros j Hj. destruct (Nat.lt_ge_cases j (Dc_of (pop_problem (pop st)))) as [Hlt | Hge].
    + apply Hin. exact Hlt.
    + cbn. rewrite (Hframe Hv j Hge).
      destruct Hib as (_ & Ho & _). destruct Hsh as (_ & _ & Hlo & _).
      assert (in_box (pop_problem (pop st)) (popold st !!! i)) as Hrow.
      { apply (Forall_lookup_total_1 _ _ _ Ho). lia. }
      apply Hrow. exact Hj.
Qed.

(** *** The loops keep the invariant *)

Section invariant.

Context (Hlaws : RandomSourceLaws RS).
Variables (NP : nat) (prob : problem) (variant : Z).
Hypothesis Hbox : problem_box_ok prob.
Hypothesis HDc : Dc_of prob <> 0%nat.

Lemma individual_step_keeps (fuel i : nat) (st st' : evolve_state) :
  (i < NP)%nat -> evolve_invariant NP prob variant st ->
  individual_step fuel NP i st = Ok st' ->
  evolve_invariant NP prob variant st'.
Proof.
  intros Hi (Hp & Hv & Hsh & Hib) Hstep. subst prob variant.
  destruct (individual_step_invariant Hlaws fuel NP i st st' Hbox HDc Hsh Hi Hstep)
    as (Hp' & Hv' & Hsh' & Hib').
  unfold evolve_invariant. rewrite Hp', Hv'.
  split_and!; [reflexivity | reflexivity | exact Hsh' |].
  intros Hvar. exact (Hib' Hvar (Hib Hvar)).
Qed.

Lemma deme_loop_keeps (fuel k : nat) :
  forall (i : nat) (st st' : evolve_state),
    (i + k <= NP)%nat -> evolve_invariant NP prob variant st ->
    deme_loop fuel NP k i st = Ok st' ->
    evolve_invariant NP prob variant st'.
Proof.
  induction k as [|k IH]; intros i st st' Hik Hinv Hloop; cbn in Hloop.
  - injection Hloop as <-. exact Hinv.
  - apply bind_Ok_inv in Hloop as (st1 & Hstep & Hloop).
    apply (IH (i + 1)%nat st1 st'); [lia | | exact Hloop].
    apply (individual_step_keeps fuel i st); [lia | exact Hinv | exact Hstep].
Qed.

Lemma end_of_sweep_keeps (st : evolve_state) :
  evolve_invariant NP prob variant st ->
  evolve_invariant NP prob variant (end_of_sweep st).
Proof.
  intros (Hp & Hv & (Hsize & Hshaped & Hlo & Hfo & Hln & Hfn & Htmp) & Hib).
  unfold evolve_invariant, state_shaped, state_in_box. cbn.
  split_and!; try assumption.
  intros Hvar. destruct (Hib Hvar) as (H1 & H2 & H3). auto.
Qed.

Lemma dx_loop_length (k : nat) :
  forall (i : nat) (w b t : decision_vector) (dx : Q),
    length (dx_loop k i w b t dx).1 = length t.
Proof.
  induction k as [|k IH]; intros i w b t dx; cbn [dx_loop]; [reflexivity|].
  rewrite IH. apply length_insert.
Qed.

Lemma exit_check_frame (gen : Z) (st : evolve_state) :
  exists t, (exit_check gen st).2 = with_tmp st t /\ length t = length (tmp st).
Proof.
  unfold exit_check. destruct (negb (Z.rem gen 40 =? 0)%Z).
  - pose proof (dx_loop_length (get_dimension (pop_problem (pop st))) 0
        (best_x (get_individual (pop st) (get_worst_idx (pop st))))
        (best_x (get_individual (pop st) (get_best_idx (pop st)))) (tmp st) 0%Q) as Hl.
    destruct (dx_loop _ _ _ _ _ _) as [t dx]. cbn in Hl. exists t.
    split; [|exact Hl].
    destruct (Qltb dx _); [reflexivity|]. destruct (Qltb _ _); reflexivity.
  - exists (tmp st). split; [destruct st; reflexivity | reflexivity].
Qed.

Lemma exit_check_keeps (gen : Z) (st : evolve_state) :
  evolve_invariant NP prob variant st ->
  evolve_invariant NP prob variant (exit_check gen st).2.
Proof.
  intros (Hp & Hv & (Hsize & Hshaped & Hlo & Hfo & Hln & Hfn & Htmp) & Hib).
  destruct (exit_check_frame gen st) as (t & -> & Hlen).
  unfold evolve_invariant, state_shaped, state_in_box. cbn.
  split_and!; try assumption. lia.
Qed.

Lemma generation_keeps (fuel : nat) (st st' : evolve_state) :
  evolve_invariant NP prob variant st ->
  generation fuel NP st = Ok st' ->
  evolve_invariant NP prob variant st'.
Proof.
  intros Hinv Hgen. unfold generation in Hgen.
  apply bind_Ok_inv in Hgen as (st1 & Hloop & Hgen). injection Hgen as <-.
  apply end_of_sweep_keeps.
  apply (deme_loop_keeps fuel NP 0 st); [lia | exact Hinv | exact Hloop].
Qed.

Lemma gen_loop_keeps (fuel k : nat) :
  forall (gen : Z) (st st' : evolve_state),
    evolve_invariant NP prob variant st ->
    gen_loop fuel NP k gen st = Ok st' ->
    evolve_invariant NP prob variant st'.
Proof.
  induction k as [|k IH]; intros gen st st' Hinv Hloop; cbn in Hloop.
  - injection Hloop as <-. exact Hinv.
  - apply bind_Ok_inv in Hloop as (st1 & Hgen & Hloop).
    pose proof (exit_check_keeps gen st1 (generation_keeps fuel st st1 Hinv Hgen)) as Hinv1.
    destruct (exit_check gen st1) as [[] st2]; cbn in Hinv1.
    + injection Hloop as <-. exact Hinv1.
    + exact (IH _ _ _ Hinv1 Hloop).
Qed.

End invariant.

Lemma init_f_cr_variant (a : de_self_adaptive) (NP : nat) :
  m_variant (init_f_cr a NP) = m_variant a.
Proof.
  unfold init_f_cr. destruct (needs_init a NP); [|reflexivity].
  destruct (fill_loop _ _ _ _ _) as [cr g].
  destruct (fill_loop _ _ _ _ _) as [f g']. reflexivity.
Qed.

Lemma initial_state_invariant (a : de_self_adaptive) (p : population) :
  pop_shaped p -> pop_in_box p ->
  evolve_invariant (pop_size p) (pop_problem p) (m_variant a) (initial_state a p).
Proof.
  intros Hsh Hib. unfold evolve_invariant, state_shaped, state_in_box, initial_state.
  cbn. rewrite init_f_cr_variant, !length_map, length_replicate.
  split_and!; try reflexivity; try assumption;
    try (apply Forall_fmap; exact Hsh).
  intros _. split_and!; [exact Hib | |]; apply Forall_fmap; exact Hib.
Qed.

(** *** The loops keep the sizes, whatever the generators do *)

Lemma individual_step_shaped (fuel NP i : nat) (st st' : evolve_state) :
  state_shaped NP st -> (i < NP)%nat ->
  individual_step fuel NP i st = Ok st' ->
  state_shaped NP st' /\ pop_problem (pop st') = pop_problem (pop st).
Proof.
  intros Hsh Hi Hstep. unfold individual_step in Hstep.
  apply bind_Ok_inv in Hstep as ([[[[t F] CR] g] u] & Hmk & Hsel).
  injection Hsel as <-. split; [|rewrite selection_problem; reflexivity].
  apply selection_shaped; [exact Hsh | exact Hi|]. cbn.
  destruct Hsh as (Hsize & Hshaped & Hlo & Hfo & Hln & Hfn & Htmp).
  assert (length (popold st !!! i) = get_dimension (pop_problem (pop st))) as Hrow
    by (apply (Forall_lookup_total_1 _ _ _ Hfo); lia).
  unfold make_trial, repair in Hmk.
  apply bind_Ok_inv in Hmk as ([r u0] & _ & Hmk).
  destruct (adapt _ (m_f _) _ _ _ _ _) as [F0 g0].
  destruct (adapt _ (m_cr _) _ _ _ _ _) as [CR0 g1].
  pose proof (build_trial_size F0 (popold st) (gbIter st) i r (m_variant (algo st))
                (Dc_of (pop_problem (pop st))) CR0 (tmp st, g1, u0)
                ltac:(cbn; lia)) as Hlen.
  destruct (build_trial _ _ _ _ _ _ _ _ _) as [[t1 g2] u1]. cbn [fst] in Hlen.
  pose proof (repair_loop_length (get_lb (pop_problem (pop st)))
                (get_ub (pop_problem (pop st))) (Dc_of (pop_problem (pop st))) 0 t1 g2)
    as Hl.
  destruct (repair_loop _ _ _ _ _ _) as [t2 g3]. cbn [fst] in Hl.
  injection Hmk as <- <- <- <- <-. lia.
Qed.

Lemma deme_loop_shaped (fuel NP k : nat) :
  forall (i : nat) (st st' : evolve_state),
    (i + k <= NP)%nat -> state_shaped NP st ->
    deme_loop fuel NP k i st = Ok st' ->
    state_shaped NP st' /\ pop_problem (pop st') = pop_problem (pop st).
Proof.
  induction k as [|k IH]; intros i st st' Hik Hsh Hloop; cbn in Hloop.
  - injection Hloop as <-. auto.
  - apply bind_Ok_inv in Hloop as (st1 & Hstep & Hloop).
    destruct (individual_step_shaped fuel NP i st st1 Hsh ltac:(lia) Hstep) as [Hsh1 Hp1].
    destruct (IH (i + 1)%nat st1 st' ltac:(lia) Hsh1 Hloop) as [Hsh' Hp'].
    split; [exact Hsh' | congruence].
Qed.

Lemma generation_shaped (fuel NP : nat) (st st' : evolve_state) :
  state_shaped NP st -> generation fuel NP st = Ok st' -> state_shaped NP st'.
Proof.
  intros Hsh Hgen. unfold generation in Hgen.
  apply bind_Ok_inv in Hgen as (st1 & Hloop & Hgen). injection Hgen as <-.
  destruct (deme_loop_shaped fuel NP NP 0 st st1 ltac:(lia) Hsh Hloop)
    as [(Hsize & Hshaped & Hlo & Hfo & Hln & Hfn & Htmp) _].
  unfold state_shaped. cbn. split_and!; assumption.
Qed.

Lemma exit_check_shaped (NP : nat) (gen : Z) (st : evolve_state) :
  state_shaped NP st -> state_shaped NP (exit_check gen st).2.
Proof.
  intros (Hsize & Hshaped & Hlo & Hfo & Hln & Hfn & Htmp).
  destruct (exit_check_frame gen st) as (t & -> & Hlen).
  unfold state_shaped. cbn. split_and!; try assumption. lia.
Qed.

(** *** The exit conditions *)

Lemma rem_mod_zero (gen : Z) : (Z.rem gen 40 =? 0)%Z = (gen mod 40 =? 0)%Z.
Proof.
  destruct (Z.eqb_spec (Z.rem gen 40) 0) as [H | H];
    destruct (Z.eqb_spec (gen mod 40) 0) as [H' | H']; try reflexivity; exfalso.
  - apply Z.rem_divide in H; [|lia]. apply H'. apply Z.mod_divide; [lia | exact H].
  - apply Z.mod_divide in H'; [|lia]. apply H. apply Z.rem_divide; [lia | exact H'].
Qed.

Lemma dx_loop_spec (w b : decision_vector) (k : nat) :
  forall (i : nat) (t : decision_vector) (dx : Q),
    (i + k <= length t)%nat ->
    (dx_loop k i w b t dx).2 =
      fold_left (fun s j => (s + Qabs (w !!! j - b !!! j))%Q) (seq i k) dx /\
    (forall j, (j < i)%nat -> (dx_loop k i w b t dx).1 !!! j = t !!! j) /\
    (forall j, (i <= j < i + k)%nat ->
       (dx_loop k i w b t dx).1 !!! j = (w !!! j - b !!! j)%Q).
Proof.
  induction k as [|k IH]; intros i t dx Hlen; cbn [dx_loop seq fold_left].
  - split_and!; [reflexivity | reflexivity | intros j Hj; lia].
  - destruct (IH (i + 1)%nat (<[i := (w !!! i - b !!! i)%Q]> t)
                (dx + Qabs (<[i := (w !!! i - b !!! i)%Q]> t !!! i))%Q) as (Hsum & Hlow & Hhigh);
      [rewrite length_insert; lia|].
    rewrite list_lookup_total_insert_eq in Hsum by lia.
    replace (i + 1)%nat with (S i) in * by lia.
    split_and!.
    + rewrite list_lookup_total_insert_eq by lia. exact Hsum.
    + intros j Hj. rewrite Hlow by lia. apply list_lookup_total_insert_ne. lia.
    + intros j Hj. destruct (decide (j = i)) as [-> | Hne].
      * rewrite Hlow by lia. apply list_lookup_total_insert_eq. lia.
      * apply Hhigh. lia.
Qed.

Lemma exit_check_decision (gen : Z) (st : evolve_state) :
  (get_dimension (pop_problem (pop st)) <= length (tmp st))%nat ->
  (exit_check gen st).1 = halts_after gen st.
Proof.
  intros Hlen. unfold exit_check, halts_after, halts_spec. rewrite rem_mod_zero.
  destruct (negb (gen mod 40 =? 0)%Z); [|reflexivity]. cbn [andb].
  destruct (dx_loop_spec
      (best_x (get_individual (pop st) (get_worst_idx (pop st))))
      (best_x (get_individual (pop st) (get_best_idx (pop st))))
      (get_dimension (pop_problem (pop st))) 0 (tmp st) 0%Q Hlen) as (Hsum & _ & _).
  destruct (dx_loop _ _ _ _ _ _) as [t dx]. cbn [snd] in Hsum.
  unfold dx_spec, df_spec. rewrite <- Hsum. cbn [algo with_tmp].
  destruct (Qltb dx (m_xtol (algo st))); [reflexivity|].
  destruct (Qltb _ (m_ftol (algo st))); reflexivity.
Qed.

Lemma after_generations_shaped (fuel NP n : nat) :
  forall (gen : Z) (st st' : evolve_state),
    state_shaped NP st -> after_generations fuel NP n gen st = Ok st' ->
    state_shaped NP st'.
Proof.
  induction n as [|n IH]; intros gen st st' Hsh Hrun; cbn in Hrun.
  - injection Hrun as <-. exact Hsh.
  - apply bind_Ok_inv in Hrun as (st1 & Hgen & Hrun).
    apply (IH _ _ _ (exit_check_shaped NP gen st1 (generation_shaped _ _ _ _ Hsh Hgen)) Hrun).
Qed.


(** *** Feasibility and the box *)

Lemma repair_loop_redraw (lb ub : decision_vector) (k : nat) :
  forall (i2 : nat) (t : decision_vector) (g : rng_double),
    (i2 + k <= length t)%nat ->
    let t' := (repair_loop lb ub k i2 t g).1 in
    (forall j, (j < i2)%nat -> t' !!! j = t !!! j) /\
    (forall j, (i2 <= j < i2 + k)%nat ->
       if Qltb (t !!! j) (lb !!! j) || Qltb (ub !!! j) (t !!! j)
       then exists g0, t' !!! j = (uniform_real (lb !!! j) (ub !!! j) g0).1
       else t' !!! j = t !!! j).
Proof.
  induction k as [|k IH]; intros i2 t g Hlen; cbn [repair_loop].
  - cbn. split; [reflexivity | intros j Hj; lia].
  - destruct (Qltb (t !!! i2) (lb !!! i2) || Qltb (ub !!! i2) (t !!! i2)) eqn:Hout.
    + destruct (uniform_real (lb !!! i2) (ub !!! i2) g) as [x g'] eqn:Hdraw.
      destruct (IH (i2 + 1)%nat (<[i2 := x]> t) g') as (Hlow & Hhigh);
        [rewrite length_insert; lia|].
      cbn zeta in *. split.
      * intros j Hj. rewrite Hlow by lia. apply list_lookup_total_insert_ne. lia.
      * intros j Hj. destruct (decide (j = i2)) as [-> | Hne].
        -- rewrite Hout, Hlow by lia. exists g. rewrite Hdraw.
           apply list_lookup_total_insert_eq. lia.
        -- specialize (Hhigh j ltac:(lia)).
           rewrite list_lookup_total_insert_ne in Hhigh by lia. exact Hhigh.
    + destruct (IH (i2 + 1)%nat t g) as (Hlow & Hhigh); [lia|].
      cbn zeta in *. split; [intros j Hj; apply Hlow; lia|].
      intros j Hj. destruct (decide (j = i2)) as [-> | Hne].
      * rewrite Hout. apply Hlow. lia.
      * apply Hhigh. lia.
Qed.

(** C4. Feasibility visits every continuous component [j < Dc] of a trial:
    one outside [lb[j], ub[j]] is replaced by a draw of
    [uniform_real(lb[j], ub[j])], one inside is kept, and either way the
    component ends inside; the trial that is evaluated for an individual
    has been through it.  Hence a call of [evolve] that returns, on a
    population whose current decision vectors all lie in the box, leaves
    all of them in the box. *)
Theorem evolve_keeps_box (prob : problem) :
  RandomSourceLaws RS -> problem_box_ok prob ->
  (forall (t : decision_vector) (g : rng_double) (j : nat),
     length t = get_dimension prob -> (j < Dc_of prob)%nat ->
     let t' := (repair prob t g).1 in
     (if Qltb (t !!! j) (get_lb prob !!! j) || Qltb (get_ub prob !!! j) (t !!! j)
      then exists g0,
        t' !!! j = (uniform_real (get_lb prob !!! j) (get_ub prob !!! j) g0).1
      else t' !!! j = t !!! j) /\
     (get_lb prob !!! j <= t' !!! j)%Q /\ (t' !!! j <= get_ub prob !!! j)%Q) /\
  (forall (fuel NP i : nat) (st : evolve_state) (t : decision_vector) (F CR : Q)
          (g : rng_double) (u : rng_uint32) (j : nat),
     pop_problem (pop st) = prob -> Dc_of prob <> 0%nat ->
     state_shaped NP st -> (i < NP)%nat ->
     make_trial fuel NP i st = Ok (t, F, CR, g, u) -> (j < Dc_of prob)%nat ->
     (get_lb prob !!! j <= t !!! j)%Q /\ (t !!! j <= get_ub prob !!! j)%Q) /\
  (forall (fuel : nat) (a a' : de_self_adaptive) (p p' : population),
     pop_problem p = prob -> (1 <= m_variant a <= 18)%Z ->
     pop_shaped p -> pop_in_box p ->
     evolve fuel a p = Ok (a', p') ->
     pop_problem p' = prob /\ pop_in_box p').
Proof.
  intros Hlaws Hbox. pose proof (Dc_of_le prob Hbox) as HDcle. split; [|split].
  - intros t g j Hlen Hj t'. subst t'. unfold repair.
    destruct (repair_loop_redraw (get_lb prob) (get_ub prob) (Dc_of prob) 0 t g
                ltac:(lia)) as (_ & Hre).
    destruct (repair_loop_spec Hlaws (get_lb prob) (get_ub prob) (Dc_of prob) 0 t g)
      as (_ & _ & Hin); [intros i Hi; apply Hbox; lia | lia|].
    split; [apply Hre; lia | apply Hin; lia].
  - intros fuel NP i st t F CR g u j Hp HDc Hsh Hi Hmk Hj. subst prob.
    destruct (make_trial_spec Hlaws fuel NP i st t F CR g u Hbox HDc Hsh Hi Hmk)
      as (_ & Hin & _).
    apply Hin. exact Hj.
  - intros fuel a a' p p' Hp Hv Hsh Hib Hev. unfold evolve in Hev.
    apply bind_Ok_inv in Hev as ([] & Hchecks & Hev).
    destruct (m_gen a =? 0)%Z.
    + injection Hev as <- <-. auto.
    + apply bind_Ok_inv in Hev as (st & Hloop & Hev). injection Hev as <- <-.
      apply evolve_checks_Ok in Hchecks as (HDc & _). rewrite Hp in HDc.
      pose proof (initial_state_invariant a p Hsh Hib) as Hinv. rewrite Hp in Hinv.
      destruct (gen_loop_keeps Hlaws (pop_size p) prob (m_variant a) Hbox HDc fuel
                  _ _ _ _ Hinv Hloop) as (Hp' & _ & _ & Hbox').
      split; [exact Hp'|]. destruct (Hbox' Hv) as (H & _). exact H.
Qed.

(** *** Selection *)

(** C5. When the fitness of the trial of individual [i] does not beat
    [fit[i]], the step leaves [fit], the population (so [cur_x] and [cur_v]
    of every slot), [m_f] and [m_cr] as they were and copies [popold[i]] to
    [popnew[i]]; the global best is untouched as well.  When it does beat
    it, [fit[i]], [popnew[i]], [m_f[i]] and [m_cr[i]] take the new fitness,
    the trial and the adapted F and CR, and the population is written with
    [set_x] and [set_v]. *)
Theorem rejected_trial_changes_nothing (fuel NP i : nat) (st st' : evolve_state) :
  individual_step fuel NP i st = Ok st' ->
  exists (t : decision_vector) (F CR : Q) (g : rng_double) (u : rng_uint32),
    make_trial fuel NP i st = Ok (t, F, CR, g, u) /\
    let prob := pop_problem (pop st) in
    let newfitness := objfun prob t in
    (compare_fitness prob newfitness (fit st !!! i) = false ->
     fit st' = fit st /\ pop st' = pop st /\
     m_f (algo st') = m_f (algo st) /\ m_cr (algo st') = m_cr (algo st) /\
     popnew st' = <[i := popold st !!! i]> (popnew st) /\
     ((i < length (popnew st))%nat -> popnew st' !!! i = popold st !!! i) /\
     gbX st' = gbX st /\ gbfit st' = gbfit st) /\
    (compare_fitness prob newfitness (fit st !!! i) = true ->
     fit st' = <[i := newfitness]> (fit st) /\
     popnew st' = <[i := t]> (popnew st) /\
     m_f (algo st') = <[i := F]> (m_f (algo st)) /\
     m_cr (algo st') = <[i := CR]> (m_cr (algo st)) /\
     pop st' = set_v (set_x (pop st) i (<[i := t]> (popnew st) !!! i)) i
                 (transform_minus t (cur_x (get_individual (pop st) i)))).
Proof.
  intros Hstep. unfold individual_step in Hstep.
  apply bind_Ok_inv in Hstep as ([[[[t F] CR] g] u] & Hmk & Hsel).
  injection Hsel as <-. exists t, F, CR, g, u. split; [exact Hmk|].
  intros prob newfitness. unfold selection. cbn [pop fit with_algo].
  fold prob. fold newfitness.
  destruct (compare_fitness prob newfitness (fit st !!! i)).
  - split; [discriminate|]. intros _.
    destruct (compare_fitness _ newfitness _); cbn; auto.
  - split; [|discriminate]. intros _. cbn. split_and!; try reflexivity.
    intros Hi. apply list_lookup_total_insert_eq. exact Hi.
Qed.

(** What an accepted trial that beats the global best leaves in [gbX]: the
    velocity that [set_v] has just stored, not the trial stored by [set_x]. *)
Lemma selection_stores_velocity_in_gbX (i : nat) (F CR : Q) (t : decision_vector)
    (st : evolve_state) :
  let prob := pop_problem (pop st) in
  let st' := selection i F CR t st in
  (i < pop_size (pop st))%nat -> (i < length (popnew st))%nat ->
  compare_fitness prob (objfun prob t) (fit st !!! i) = true ->
  compare_fitness prob (objfun prob t) (gbfit st) = true ->
  cur_x (get_individual (pop st') i) = t /\
  cur_v (get_individual (pop st') i) =
    transform_minus t (cur_x (get_individual (pop st) i)) /\
  gbfit st' = objfun prob t /\
  gbX st' = transform_minus t (cur_x (get_individual (pop st) i)).
Proof.
  intros prob st' Hi Hlen Hacc Hbest. subst st'. unfold selection.
  fold prob. rewrite Hacc. rewrite set_v_problem, set_x_problem. fold prob.
  rewrite Hbest. cbn [pop gbfit gbX].
  rewrite list_lookup_total_insert_eq by exact Hlen.
  destruct (set_v_set_x_slot (pop st) i t
              (transform_minus t (cur_x (get_individual (pop st) i))) Hi) as [Hx Hv].
  auto.
Qed.

(** *** [evolve] keeps the problem of the population *)

Lemma gen_loop_problem (fuel NP k : nat) :
  forall (gen : Z) (st st' : evolve_state),
    gen_loop fuel NP k gen st = Ok st' ->
    pop_problem (pop st') = pop_problem (pop st).
Proof.
  assert (forall i st st', individual_step fuel NP i st = Ok st' ->
            pop_problem (pop st') = pop_problem (pop st)) as Hstep.
  { intros i st st' H. unfold individual_step in H.
    apply bind_Ok_inv in H as ([[[[t F] CR] g] u] & _ & H). injection H as <-.
    rewrite selection_problem. reflexivity. }
  assert (forall n i st st', deme_loop fuel NP n i st = Ok st' ->
            pop_problem (pop st') = pop_problem (pop st)) as Hdeme.
  { induction n as [|n IHn]; intros i st st' H; cbn in H.
    - injection H as <-. reflexivity.
    - apply bind_Ok_inv in H as (st1 & H1 & H).
      rewrite (IHn _ _ _ H). exact (Hstep _ _ _ H1). }
  induction k as [|k IH]; intros gen st st' H; cbn in H.
  - injection H as <-. reflexivity.
  - apply bind_Ok_inv in H as (st1 & Hgen & H).
    unfold generation in Hgen. apply bind_Ok_inv in Hgen as (st2 & Hloop & Hgen).
    injection Hgen as <-.
    destruct (exit_check_frame gen (end_of_sweep st2)) as (t & Heq & _).
    destruct (exit_check gen (end_of_sweep st2)) as [[] st3]; cbn in Heq; subst st3.
    + injection H as <-. cbn. exact (Hdeme _ _ _ _ Hloop).
    + rewrite (IH _ _ _ H). cbn. exact (Hdeme _ _ _ _ Hloop).
Qed.

Lemma evolve_problem (fuel : nat) (a a' : de_self_adaptive) (p p' : population) :
  evolve fuel a p = Ok (a', p') -> pop_problem p' = pop_problem p.
Proof.
  intros H. unfold evolve in H.
  apply bind_Ok_inv in H as ([] & _ & H).
  destruct (m_gen a =? 0)%Z; [injection H as <- <-; reflexivity|].
  apply bind_Ok_inv in H as (st & Hloop & H). injection H as <- <-.
  exact (gen_loop_problem _ _ _ _ _ _ Hloop).
Qed.

Lemma initial_state_shaped (a : de_self_adaptive) (p : population) :
  pop_shaped p -> state_shaped (pop_size p) (initial_state a p).
Proof.
  intros Hsh. unfold state_shaped, initial_state. cbn.
  rewrite !length_map, length_replicate.
  split_and!; try reflexivity; try assumption; apply Forall_fmap; exact Hsh.
Qed.

End de_self_adaptive_facts.

(** ** The island *)

Lemma evolve_calls_app (t1 t2 : list event) :
  evolve_calls (t1 ++ t2) = (evolve_calls t1 + evolve_calls t2)%nat.
Proof. unfold evolve_calls. rewrite filter_app, length_app. reflexivity. Qed.

Section island_facts.

Context {A : Type} {Alg : Algorithm A} {W : Type} {Env : Environment W}.
Context {Pf : Platform} {PC : PopulationConstructor}.

Local Abbreviation island := (island A).
Local Abbreviation machine := (machine A W).
Local Abbreviation run := (@run A W).

Lemma extends_refl (m : machine) : extends m m [].
Proof. unfold extends. rewrite app_nil_r. reflexivity. Qed.

Lemma extends_trans (m1 m2 m3 : machine) (s1 s2 : list event) :
  extends m1 m2 s1 -> extends m2 m3 s2 -> extends m1 m3 (s1 ++ s2).
Proof. unfold extends. intros H1 H2. rewrite H2, H1, app_assoc. reflexivity. Qed.

(** One round calls the algorithm once, whatever comes of it; on a blocking
    island it adds no event of a background run and the island stays
    blocking. *)
Lemma evolution_round_spec (m : machine) :
  exists suf,
    extends m (evolution_round m).2 suf /\
    same_frame (isl m) (isl (evolution_round m).2) /\
    evolve_calls suf = 1%nat /\
    (AlgorithmLaws Alg -> EnvironmentLaws Env -> is_blocking (isl m) = true ->
     is_blocking (isl (evolution_round m).2) = true /\
     Forall (fun e => background_event e = false) suf).
Proof.
  destruct m as [i w tr].
  unfold evolution_round, mbind, run_bind, get_island, when, mret, run_ret,
    do_pre_evolution, do_post_evolution, do_algo_evolve, do_interruption_point,
    emit, extends, same_frame, is_blocking.
  cbn.
  pose proof (fun (HA : AlgorithmLaws Alg) => algo_evolve_stable (m_algo i)) as Hst.
  pose proof (fun (HE : EnvironmentLaws Env) => pre_evolution_problem w (m_pop i)) as Hpre.
  destruct (m_archi i) eqn:Harchi; cbn.
  - destruct (pre_evolution w (m_pop i)) as [w1 p1]; cbn in *.
    destruct (algo_evolve (m_algo i) p1) as [[a2 p2]| |] eqn:Hev; cbn.
    + rewrite Harchi; cbn.
      destruct (problem_is_blocking (pop_problem p2) || algo_is_blocking a2) eqn:Hb2; cbn.
      * exists [ev_pre_evolution; ev_algo_evolve; ev_post_evolution].
        rewrite <- !app_assoc. split_and!; try reflexivity; try assumption.
        intros _ _ _. split; [exact Hb2 | repeat constructor].
      * destruct (interruption_point (post_evolution w1 p2)) as [[] w3]; cbn;
          (exists [ev_pre_evolution; ev_algo_evolve; ev_post_evolution;
                   ev_interruption_point];
           rewrite <- !app_assoc; split_and!; try reflexivity; try assumption;
           intros HA HE Hb; exfalso;
           destruct (Hst HA _ _ _ Hev) as [Hba Hbp];
           rewrite Hba, Hbp, (Hpre HE), Hb in Hb2; discriminate).
    + exists [ev_pre_evolution; ev_algo_evolve].
      rewrite <- !app_assoc. split_and!; try reflexivity; try assumption.
      intros _ HE Hb. rewrite (Hpre HE). split; [exact Hb | repeat constructor].
    + exists [ev_pre_evolution; ev_algo_evolve].
      rewrite <- !app_assoc. split_and!; try reflexivity; try assumption.
      intros _ HE Hb. rewrite (Hpre HE). split; [exact Hb | repeat constructor].
  - destruct (algo_evolve (m_algo i) (m_pop i)) as [[a2 p2]| |] eqn:Hev; cbn.
    + rewrite Harchi; cbn.
      destruct (problem_is_blocking (pop_problem p2) || algo_is_blocking a2) eqn:Hb2; cbn.
      * exists [ev_algo_evolve]. split_and!; try reflexivity; try assumption.
        intros _ _ _. split; [exact Hb2 | repeat constructor].
      * destruct (interruption_point w) as [[] w3]; cbn;
          (exists [ev_algo_evolve; ev_interruption_point];
           rewrite <- !app_assoc; split_and!; try reflexivity; try assumption;
           intros HA HE Hb; exfalso;
           destruct (Hst HA _ _ _ Hev) as [Hba Hbp];
           rewrite Hba, Hbp, Hb in Hb2; discriminate).
    + exists [ev_algo_evolve]. split_and!; try reflexivity; try assumption.
      intros _ _ Hb. split; [exact Hb | repeat constructor].
    + exists [ev_algo_evolve]. split_and!; try reflexivity; try assumption.
      intros _ _ Hb. split; [exact Hb | repeat constructor].
Qed.

Lemma int_loop_spec (k : nat) :
  forall m : machine,
    exists suf,
      extends m (int_loop k m).2 suf /\
      same_frame (isl m) (isl (int_loop k m).2) /\
      (evolve_calls suf <= k)%nat /\
      ((int_loop k m).1 = Ok tt -> evolve_calls suf = k) /\
      (AlgorithmLaws Alg -> EnvironmentLaws Env -> is_blocking (isl m) = true ->
       is_blocking (isl (int_loop k m).2) = true /\
       Forall (fun e => background_event e = false) suf).
Proof.
  induction k as [|k IH]; intros m.
  - exists []. cbn. split_and!.
    + apply extends_refl.
    + unfold same_frame. auto.
    + reflexivity.
    + reflexivity.
    + intros _ _ Hb. split; [exact Hb | constructor].
  - destruct (evolution_round_spec m) as (s1 & Hext1 & (Ht1 & Hm1 & Ha1) & Hc1 & Hb1).
    cbn [int_loop]. unfold mbind, run_bind.
    destruct (evolution_round m) as [[[]| e |] m1]; cbn [fst snd] in *.
    + destruct (IH m1) as (s2 & Hext2 & (Ht2 & Hm2 & Ha2) & Hc2 & Hok2 & Hb2).
      exists (s1 ++ s2). rewrite evolve_calls_app, Hc1.
      split_and!.
      * exact (extends_trans _ _ _ _ _ Hext1 Hext2).
      * unfold same_frame. split_and!; congruence.
      * lia.
      * intros Hok. rewrite (Hok2 Hok). reflexivity.
      * intros HA HE Hb. destruct (Hb1 HA HE Hb) as [Hb' Hq1].
        destruct (Hb2 HA HE Hb') as [Hb'' Hq2].
        split; [exact Hb'' | apply Forall_app; auto].
    + exists s1. rewrite Hc1.
      split_and!; [exact Hext1 | unfold same_frame; auto | lia | discriminate | exact Hb1].
    + exists s1. rewrite Hc1.
      split_and!; [exact Hext1 | unfold same_frame; auto | lia | discriminate | exact Hb1].
Qed.

Lemma read_clock_spec (m : machine) :
  isl (read_clock m).2 = isl m /\ trace (read_clock m).2 = trace m.
Proof. unfold read_clock. destruct (local_time (env m)); auto. Qed.

Lemma t_loop_spec (fuel : nat) (m_t start : Z) :
  forall m : machine,
    exists suf,
      extends m (t_loop fuel m_t start m).2 suf /\
      same_frame (isl m) (isl (t_loop fuel m_t start m).2) /\
      (AlgorithmLaws Alg -> EnvironmentLaws Env -> is_blocking (isl m) = true ->
       is_blocking (isl (t_loop fuel m_t start m).2) = true /\
       Forall (fun e => background_event e = false) suf).
Proof.
  induction fuel as [|fuel IH]; intros m.
  - exists []. cbn. split_and!; [apply extends_refl | unfold same_frame; auto |].
    intros _ _ Hb. split; [exact Hb | constructor].
  - destruct (evolution_round_spec m) as (s1 & Hext1 & (Ht1 & Hm1 & Ha1) & Hc1 & Hb1).
    cbn [t_loop]. unfold mbind, run_bind, do_local_time.
    destruct (evolution_round m) as [[[]| e |] m1]; cbn [fst snd] in *;
      [| exists s1; split_and!; [exact Hext1 | unfold same_frame; auto | exact Hb1] ..].
    destruct (read_clock_spec m1) as [Hi Htr].
    destruct (read_clock m1) as [now m2]. cbn [fst snd] in *.
    assert (forall c : run unit,
              (exists suf, extends m2 (c m2).2 suf /\
                 same_frame (isl m2) (isl (c m2).2) /\
                 (AlgorithmLaws Alg -> EnvironmentLaws Env ->
                  is_blocking (isl m2) = true ->
                  is_blocking (isl (c m2).2) = true /\
                  Forall (fun e => background_event e = false) suf)) ->
              exists suf, extends m (c m2).2 suf /\
                 same_frame (isl m) (isl (c m2).2) /\
                 (AlgorithmLaws Alg -> EnvironmentLaws Env ->
                  is_blocking (isl m) = true ->
                  is_blocking (isl (c m2).2) = true /\
                  Forall (fun e => background_event e = false) suf)) as Hcont.
    { intros c (s2 & Hext2 & (Ht2 & Hm2 & Ha2) & Hb2).
      exists (s1 ++ s2). split_and!.
      - unfold extends in *. rewrite Hext2, Htr, Hext1, app_assoc. reflexivity.
      - unfold same_frame. rewrite Ht2, Hm2, Ha2, Hi. auto.
      - intros HA HE Hb. destruct (Hb1 HA HE Hb) as [Hb' Hq1].
        rewrite Hi in Hb2. destruct (Hb2 HA HE Hb') as [Hb'' Hq2].
        split; [exact Hb'' | apply Forall_app; auto]. }
    assert (exists suf, extends m2 m2 suf /\ same_frame (isl m2) (isl m2) /\
              (AlgorithmLaws Alg -> EnvironmentLaws Env ->
               is_blocking (isl m2) = true ->
               is_blocking (isl m2) = true /\
               Forall (fun e => background_event e = false) suf)) as Hstop.
    { exists []. split_and!; [apply extends_refl | unfold same_frame; auto |].
      intros _ _ Hb. split; [exact Hb | constructor]. }
    destruct (total_milliseconds (now - start) <? 0)%Z.
    + apply (Hcont (t_loop fuel m_t start)). apply IH.
    + unfold lift_result.
      destruct (numeric_cast_size_t (total_milliseconds (now - start))) as [v| e |];
        cbn [fst snd].
      * destruct (v <? m_t)%Z.
        -- apply (Hcont (t_loop fuel m_t start)). apply IH.
        -- apply (Hcont (fun m => (Ok tt, m))). exact Hstop.
      * apply (Hcont (fun m => (Throw e, m))). exact Hstop.
      * apply (Hcont (fun m => (Diverge, m))). exact Hstop.
Qed.

Lemma juice_impl_spec (fuel : nat) (ev : evolver) (m : machine) :
  let out := (juice_impl fuel ev m).2 in
  exists suf,
    extends m out.2 suf /\
    same_frame (isl m) (isl out.2) /\
    (forall n, ev = int_evolver n ->
       (evolve_calls suf <= n)%nat /\ (out.1 = Ok tt -> evolve_calls suf = n)) /\
    (AlgorithmLaws Alg -> EnvironmentLaws Env -> is_blocking (isl m) = true ->
     is_blocking (isl out.2) = true /\
     Forall (fun e => background_event e = false) suf).
Proof.
  unfold juice_impl.
  destruct (read_clock_spec m) as [Hi Htr].
  destruct (read_clock m) as [start m1]. cbn [fst snd] in *.
  unfold mbind, run_bind, get_island, when.
  destruct (m_archi (isl m1) && negb (is_blocking (isl m1))) eqn:Hsync.
  - (* the barrier is awaited: the island is not blocking *)
    apply andb_true_iff in Hsync as [_ Hnb]. apply negb_true_iff in Hnb.
    unfold do_sync_island_start, emit. cbn [isl env trace].
    set (m2 := {| isl := isl m1; env := sync_island_start (env m1);
                  trace := trace m1 ++ [ev_sync_island_start] |}).
    destruct ev as [n | t].
    + destruct (int_loop_spec n m2) as (s & Hext & (Ht & Hm & Ha) & Hle & Hok & _).
      exists ([ev_sync_island_start] ++ s). rewrite evolve_calls_app.
      split_and!.
      * unfold extends in *. rewrite Hext. cbn. rewrite Htr, <- app_assoc. reflexivity.
      * unfold same_frame. cbn in Ht, Hm, Ha. rewrite Ht, Hm, Ha, Hi. auto.
      * intros n' [= <-].
        replace (evolve_calls [ev_sync_island_start]) with 0%nat by reflexivity.
        split; [lia | exact Hok].
      * intros _ _ Hb. rewrite Hi in Hnb. congruence.
    + destruct (t_loop_spec fuel t start m2) as (s & Hext & (Ht & Hm & Ha) & _).
      exists ([ev_sync_island_start] ++ s).
      split_and!.
      * unfold extends in *. rewrite Hext. cbn. rewrite Htr, <- app_assoc. reflexivity.
      * unfold same_frame. cbn in Ht, Hm, Ha. rewrite Ht, Hm, Ha, Hi. auto.
      * intros n' [=].
      * intros _ _ Hb. rewrite Hi in Hnb. congruence.
  - unfold mret, run_ret. destruct ev as [n | t].
    + destruct (int_loop_spec n m1) as (s & Hext & (Ht & Hm & Ha) & Hle & Hok & Hb).
      exists s. split_and!.
      * unfold extends in *. rewrite Hext, Htr. reflexivity.
      * unfold same_frame. rewrite Ht, Hm, Ha, Hi. auto.
      * intros n' [= <-]. split; [exact Hle | exact Hok].
      * rewrite Hi in Hb. exact Hb.
    + destruct (t_loop_spec fuel t start m1) as (s & Hext & (Ht & Hm & Ha) & Hb).
      exists s. split_and!.
      * unfold extends in *. rewrite Hext, Htr. reflexivity.
      * unfold same_frame. rewrite Ht, Hm, Ha, Hi. auto.
      * intros n' [=].
      * rewrite Hi in Hb. exact Hb.
Qed.

(** The end of a run: the elapsed time is added when it is not negative and
    fits [std::size_t], and nothing else of the island changes. *)
Lemma add_evolution_time_spec (start : Z) (m : machine) :
  let ms := total_milliseconds ((read_clock m).1 - start) in
  let out := add_evolution_time start m in
  out.1 = Ok tt /\
  isl out.2 =
    (if ((0 <=? ms) && (ms <? 2 ^ size_t_bits))%Z
     then with_evo_time (isl m) ((m_evo_time (isl m) + ms) mod 2 ^ size_t_bits)
     else isl m) /\
  exists suf, extends m out.2 suf /\ evolve_calls suf = 0%nat /\
    Forall (fun e => background_event e = false) suf.
Proof.
  unfold add_evolution_time, try_catch, mbind, run_bind, do_local_time.
  destruct (read_clock_spec m) as [Hi Htr].
  destruct (read_clock m) as [now m1]. cbn [fst snd] in *.
  unfold numeric_cast_size_t, lift_result.
  destruct (0 <=? total_milliseconds (now - start))%Z eqn:H0; cbn [andb].
  - destruct (total_milliseconds (now - start) <? 2 ^ size_t_bits)%Z eqn:H1.
    + cbn. rewrite Hi. split_and!; try reflexivity.
      exists []. split_and!; [|reflexivity|constructor].
      unfold extends. cbn. rewrite Htr, app_nil_r. reflexivity.
    + cbn. rewrite Hi. split_and!; try reflexivity.
      exists [ev_print "Error calculating evolution time."].
      split_and!; [|reflexivity|repeat constructor].
      unfold extends. cbn. rewrite Htr. reflexivity.
  - cbn. split_and!; [reflexivity | exact Hi|].
    exists []. split_and!; [|reflexivity|constructor].
    unfold extends. rewrite Htr, app_nil_r. reflexivity.
Qed.

Lemma time_in_range_refl (i i' : island) :
  m_evo_time i' = m_evo_time i -> time_in_range i i'.
Proof. intros H Hr. rewrite H. exact Hr. Qed.

Lemma time_in_range_trans (i1 i2 i3 : island) :
  time_in_range i1 i2 -> time_in_range i2 i3 -> time_in_range i1 i3.
Proof. intros H12 H23 Hr. exact (H23 (H12 Hr)). Qed.

Lemma evolver_call_spec (fuel : nat) (ev : evolver) (m : machine) :
  let out := evolver_call fuel ev m in
  exists suf,
    extends m out.2 suf /\
    m_evo_thread (isl out.2) = m_evo_thread (isl m) /\
    m_archi (isl out.2) = m_archi (isl m) /\
    time_in_range (isl m) (isl out.2) /\
    (forall n, ev = int_evolver n ->
       (evolve_calls suf <= n)%nat /\
       ((juice_impl fuel ev m).2.1 = Ok tt -> out.1 = Ok tt /\ evolve_calls suf = n)) /\
    (AlgorithmLaws Alg -> EnvironmentLaws Env -> is_blocking (isl m) = true ->
     is_blocking (isl out.2) = true /\
     Forall (fun e => background_event e = false) suf /\
     (out.1 = Ok tt -> forall n, ev = int_evolver n -> evolve_calls suf = n)).
Proof.
  unfold evolver_call.
  destruct (juice_impl_spec fuel ev m) as (s1 & Hext1 & (Ht1 & Hm1 & Ha1) & Hn1 & Hb1).
  destruct (juice_impl fuel ev m) as [start [r m1]]. cbn [fst snd] in *.
  assert (forall m2 (s2 : list event), extends m1 m2 s2 -> isl m2 = isl m1 ->
            evolve_calls s2 = 0%nat ->
            Forall (fun e => background_event e = false) s2 ->
            is_blocking (isl m) = false \/ r = Ok tt ->
            let out := add_evolution_time start m2 in
            exists suf,
              extends m out.2 suf /\
              m_evo_thread (isl out.2) = m_evo_thread (isl m) /\
              m_archi (isl out.2) = m_archi (isl m) /\
              time_in_range (isl m) (isl out.2) /\
              (forall n, ev = int_evolver n ->
                 (evolve_calls suf <= n)%nat /\
                 (r = Ok tt -> out.1 = Ok tt /\ evolve_calls suf = n)) /\
              (AlgorithmLaws Alg -> EnvironmentLaws Env -> is_blocking (isl m) = true ->
               is_blocking (isl out.2) = true /\
               Forall (fun e => background_event e = false) suf /\
               (out.1 = Ok tt -> forall n, ev = int_evolver n -> evolve_calls suf = n)))
    as Hfinish.
  { intros m2 s2 He2 Hi2 Hc2 Hq2 Hcase out. subst out.
    destruct (add_evolution_time_spec start m2) as (Hok & Hisl & s & Hext & Hc & Hq).
    cbn zeta in *.
    exists (s1 ++ s2 ++ s). rewrite !evolve_calls_app, Hc2, Hc.
    assert (m_evo_thread (isl (add_evolution_time start m2).2) = m_evo_thread (isl m1) /\
            m_archi (isl (add_evolution_time start m2).2) = m_archi (isl m1) /\
            is_blocking (isl (add_evolution_time start m2).2) = is_blocking (isl m1) /\
            time_in_range (isl m1) (isl (add_evolution_time start m2).2))
      as (Ht & Ha & Hb & Htime).
    { rewrite Hisl, Hi2. destruct ((0 <=? _) && (_ <? _))%Z eqn:Hms.
      - split_and!; try reflexivity.
        apply andb_true_iff in Hms as [H0 H1]. apply Z.leb_le in H0.
        intros Hr. cbn. apply Z.mod_pos_bound; lia.
      - split_and!; try reflexivity. apply time_in_range_refl. reflexivity. }
    split_and!.
    - unfold extends in *. rewrite Hext, He2, Hext1, !app_assoc. reflexivity.
    - congruence.
    - congruence.
    - apply (time_in_range_trans _ (isl m1)); [apply time_in_range_refl; exact Hm1 | exact Htime].
    - intros n Hn. destruct (Hn1 n Hn) as [Hle Heq]. split; [lia|].
      intros Hr. split; [exact Hok|]. rewrite (Heq Hr). lia.
    - intros HA HE Hbl. destruct (Hb1 HA HE Hbl) as [Hbl1 Hq1].
      split_and!; [congruence | repeat (apply Forall_app; split); assumption|].
      intros _ n Hn. destruct (Hn1 n Hn) as [_ Heq].
      destruct Hcase as [Hnb | ->]; [congruence|]. rewrite Heq by reflexivity. lia. }
  destruct r as [[]| e |].
  - apply (Hfinish m1 []); auto using extends_refl.
  - destruct (is_blocking (isl m)) eqn:Hbl; cbn [fst snd].
    + exists s1. split_and!; auto.
      * apply time_in_range_refl. exact Hm1.
      * intros n Hn. split; [apply Hn1; exact Hn | discriminate].
      * intros HA HE _. destruct (Hb1 HA HE eq_refl) as [Hb' Hq].
        split_and!; [exact Hb' | exact Hq | discriminate].
    + unfold mbind, run_bind.
      destruct e; cbn [fst snd mret run_ret emit];
        first [ apply (Hfinish m1 []); auto using extends_refl
              | apply (Hfinish _ [ev_print match ev with
                                           | int_evolver _ => "Error during island evolution"
                                           | t_evolver _ => "Error during evolution"
                                           end]);
                [reflexivity | reflexivity | reflexivity | repeat constructor | auto] ].
  - exists s1. cbn [fst snd]. split_and!; auto.
    + apply time_in_range_refl. exact Hm1.
    + intros n Hn. split; [apply Hn1; exact Hn | discriminate].
    + intros HA HE Hbl. destruct (Hb1 HA HE Hbl) as [Hb' Hq].
      split_and!; [exact Hb' | exact Hq | discriminate].
Qed.

(** *** Joining, launching and the public methods *)

Lemma join_idle (fuel : nat) (m : machine) :
  busy (isl m) = false -> join fuel m = (Ok tt, m).
Proof.
  unfold busy, join, mbind, run_bind, get_island. cbn.
  destruct (m_evo_thread (isl m)) as [[body joined]|]; cbn; [|reflexivity].
  destruct joined; [reflexivity | discriminate].
Qed.

Lemma join_spec (fuel : nat) (m : machine) :
  let out := join fuel m in
  time_in_range (isl m) (isl out.2) /\
  m_archi (isl out.2) = m_archi (isl m) /\
  (m_evo_thread (isl out.2) = None <-> m_evo_thread (isl m) = None) /\
  (out.1 = Ok tt -> busy (isl out.2) = false).
Proof.
  unfold join, mbind, run_bind, get_island, busy. cbn.
  destruct (m_evo_thread (isl m)) as [[body joined]|] eqn:Hth; cbn.
  - destruct joined; cbn.
    + rewrite ?Hth. cbn.
      split_and!; [apply time_in_range_refl | | |]; reflexivity.
    + destruct (evolver_call_spec fuel body m) as (s & _ & Ht & Ha & Htime & _).
      destruct (evolver_call fuel body m) as [[[]| e |] m1]; cbn in *.
      * split_and!; [exact Htime | exact Ha | split; discriminate | reflexivity].
      * rewrite ?Ht, ?Hth.
        split_and!; [exact Htime | exact Ha | reflexivity | discriminate].
      * rewrite ?Ht, ?Hth.
        split_and!; [exact Htime | exact Ha | reflexivity | discriminate].
  - rewrite ?Hth. split_and!; [apply time_in_range_refl | | |]; reflexivity.
Qed.

Lemma launch_spec (ev : evolver) (m : machine) :
  let out := launch ev m in
  m_evo_time (isl out.2) = m_evo_time (isl m) /\
  (out.1 = Ok tt ->
   m_evo_thread (isl out.2) = Some {| th_body := ev; th_joined := false |} /\
   trace out.2 = trace m ++ [ev_thread_create]) /\
  (out.1 <> Ok tt -> isl out.2 = isl m /\ trace out.2 = trace m).
Proof.
  unfold launch. destruct (thread_launch (env m)) as [[] w]; cbn.
  - split_and!; [reflexivity | auto | intros H; contradiction].
  - split_and!; [reflexivity | discriminate | auto].
Qed.

End island_facts.

(** *** A blocking island and the thread library *)

Section blocking_environment.

Context {A : Type} {Alg : Algorithm A} {W : Type} {Pf : Platform}.
Variables Env1 Env2 : Environment W.
Hypothesis Hsame : same_clock_and_migration Env1 Env2.
Hypothesis HA : AlgorithmLaws Alg.
Hypothesis HE : EnvironmentLaws Env1.

Lemma read_clock_same (m : machine A W) :
  read_clock (Env := Env2) m = read_clock (Env := Env1) m.
Proof. unfold read_clock. rewrite (proj1 Hsame). reflexivity. Qed.

(** A round on a blocking island does not look at the interruption
    points. *)
Lemma evolution_round_blocking_env (m : machine A W) :
  is_blocking (isl m) = true ->
  evolution_round (Env := Env2) m = evolution_round (Env := Env1) m.
Proof.
  intros Hb. destruct Hsame as (Hc & Hpre & Hpost).
  destruct m as [i w tr].
  unfold evolution_round, mbind, run_bind, get_island, when, mret, run_ret,
    do_pre_evolution, do_post_evolution, do_algo_evolve, do_interruption_point, emit.
  cbn in *.
  pose proof (algo_evolve_stable (m_algo i)) as Hst.
  pose proof (pre_evolution_problem (Env := Env1) w (m_pop i)) as Hp.
  destruct (m_archi i) eqn:Harchi; cbn.
  - rewrite Hpre. destruct (@pre_evolution W Env1 w (m_pop i)) as [w1 p1]; cbn in *.
    destruct (algo_evolve (m_algo i) p1) as [[a2 p2]| |] eqn:Hev; cbn; [|reflexivity..].
    rewrite Harchi. cbn. rewrite Hpost.
    destruct (Hst _ _ _ Hev) as [Hba Hbp].
    unfold is_blocking in *. cbn in *. rewrite Hba, Hbp, Hp, Hb. reflexivity.
  - destruct (algo_evolve (m_algo i) (m_pop i)) as [[a2 p2]| |] eqn:Hev; cbn;
      [|reflexivity..].
    rewrite Harchi. cbn.
    destruct (Hst _ _ _ Hev) as [Hba Hbp].
    unfold is_blocking in *. cbn in *. rewrite Hba, Hbp, Hb. reflexivity.
Qed.

Lemma int_loop_blocking_env (k : nat) :
  forall m : machine A W,
    is_blocking (isl m) = true ->
    int_loop (Env := Env2) k m = int_loop (Env := Env1) k m.
Proof.
  induction k as [|k IH]; intros m Hb; [reflexivity|].
  cbn [int_loop]. unfold mbind, run_bind.
  rewrite (evolution_round_blocking_env m Hb).
  destruct (evolution_round_spec (Env := Env1) m) as (s & _ & _ & _ & Hkeep).
  destruct (Hkeep HA HE Hb) as [Hb1 _]. clear Hkeep.
  destruct (evolution_round (Env := Env1) m) as [[[]| e |] m1]; [|reflexivity..].
  apply IH. exact Hb1.
Qed.

Lemma t_loop_blocking_env (fuel : nat) (m_t start : Z) :
  forall m : machine A W,
    is_blocking (isl m) = true ->
    t_loop (Env := Env2) fuel m_t start m = t_loop (Env := Env1) fuel m_t start m.
Proof.
  induction fuel as [|fuel IH]; intros m Hb; [reflexivity|].
  cbn [t_loop]. unfold mbind, run_bind, do_local_time.
  rewrite (evolution_round_blocking_env m Hb).
  destruct (evolution_round_spec (Env := Env1) m) as (s & _ & _ & _ & Hkeep).
  destruct (Hkeep HA HE Hb) as [Hb1 _]. clear Hkeep.
  destruct (evolution_round (Env := Env1) m) as [[[]| e |] m1]; [|reflexivity..].
  cbn [fst snd] in Hb1.
  rewrite read_clock_same.
  destruct (read_clock_spec (Env := Env1) m1) as [Hi _].
  destruct (read_clock (Env := Env1) m1) as [now m2]. cbn [fst snd] in *.
  assert (is_blocking (isl m2) = true) as Hb2 by (rewrite Hi; exact Hb1).
  destruct (total_milliseconds (now - start) <? 0)%Z; [apply IH; exact Hb2|].
  unfold lift_result.
  destruct (numeric_cast_size_t (total_milliseconds (now - start))) as [v| e |];
    cbn [fst snd]; [|reflexivity..].
  destruct (v <? m_t)%Z; [apply IH; exact Hb2 | reflexivity].
Qed.

(** The worker on a blocking island does not await the barrier. *)
Lemma juice_impl_blocking_env (fuel : nat) (ev : evolver) (m : machine A W) :
  is_blocking (isl m) = true ->
  juice_impl (Env := Env2) fuel ev m = juice_impl (Env := Env1) fuel ev m.
Proof.
  intros Hb. unfold juice_impl. rewrite read_clock_same.
  destruct (read_clock_spec (Env := Env1) m) as [Hi _].
  destruct (read_clock (Env := Env1) m) as [start m1]. cbn [fst snd] in *.
  assert (is_blocking (isl m1) = true) as Hb1 by (rewrite Hi; exact Hb).
  unfold mbind, run_bind, get_island, when. cbn [fst snd].
  rewrite Hb1, andb_false_r. unfold mret, run_ret.
  destruct ev as [n | m_t]; f_equal.
  - apply int_loop_blocking_env. exact Hb1.
  - apply t_loop_blocking_env. exact Hb1.
Qed.

Lemma add_evolution_time_same (start : Z) (m : machine A W) :
  add_evolution_time (Env := Env2) start m = add_evolution_time (Env := Env1) start m.
Proof.
  unfold add_evolution_time, try_catch, mbind, run_bind, do_local_time.
  rewrite read_clock_same. reflexivity.
Qed.

Lemma evolver_call_blocking_env (fuel : nat) (ev : evolver) (m : machine A W) :
  is_blocking (isl m) = true ->
  evolver_call (Env := Env2) fuel ev m = evolver_call (Env := Env1) fuel ev m.
Proof.
  intros Hb. unfold evolver_call. rewrite (juice_impl_blocking_env fuel ev m Hb), Hb.
  destruct (juice_impl (Env := Env1) fuel ev m) as [start [[[]| e |] m1]];
    [apply add_evolution_time_same | reflexivity..].
Qed.

(** [evolve] and [evolve_t] on a blocking island with no worker pending do
    the same whatever the barrier, the interruption points and the thread
    library do: they are not used. *)
Lemma island_evolve_blocking_env (fuel : nat) (n : Z) (m : machine A W) :
  busy (isl m) = false -> is_blocking (isl m) = true ->
  island_evolve (Env := Env2) fuel n m = island_evolve (Env := Env1) fuel n m /\
  island_evolve_t (Env := Env2) fuel n m = island_evolve_t (Env := Env1) fuel n m.
Proof.
  intros Hidle Hb. unfold island_evolve, island_evolve_t, mbind, run_bind.
  rewrite (join_idle (Env := Env1) fuel m Hidle), (join_idle (Env := Env2) fuel m Hidle).
  unfold lift_result. destruct (numeric_cast_size_t n) as [v| e |]; cbn [fst snd];
    [|split; reflexivity..].
  unfold get_island. cbn [fst snd]. rewrite Hb.
  split; apply evolver_call_blocking_env; exact Hb.
Qed.

End blocking_environment.

Section island_claims.

Context {A : Type} {Alg : Algorithm A} {W : Type} {Env : Environment W}.
Context {Pf : Platform} {PC : PopulationConstructor}.

Local Abbreviation island := (island A).
Local Abbreviation machine := (machine A W).
Local Abbreviation run := (@run A W).

(** *** The evolution time *)

Lemma measured_ms_nonneg (start : Z) (m : machine) : (0 <= measured_ms start m)%Z.
Proof.
  unfold measured_ms.
  destruct (Z.leb_spec 0 (total_milliseconds ((read_clock m).1 - start)));
    cbn [andb]; [|lia].
  destruct (_ <? _)%Z; lia.
Qed.

Lemma measured_ms_env (start : Z) (m m0 : machine) :
  env m0 = env m -> measured_ms start m0 = measured_ms start m.
Proof.
  intros H. unfold measured_ms, read_clock. rewrite H.
  destruct (local_time (env m)). reflexivity.
Qed.

Lemma worker_ms_nonneg (fuel : nat) (ev : evolver) (m : machine) :
  (0 <= worker_ms fuel ev m)%Z.
Proof.
  unfold worker_ms. destruct (juice_impl fuel ev m) as [start [r m1]].
  pose proof (measured_ms_nonneg start m1).
  destruct r; [assumption | destruct (is_blocking (isl m)); lia | lia].
Qed.

Lemma join_ms_nonneg (fuel : nat) (m : machine) : (0 <= join_ms fuel m)%Z.
Proof.
  unfold join_ms. destruct (m_evo_thread (isl m)) as [[body joined]|]; cbn; [|lia].
  destruct joined; [lia | apply worker_ms_nonneg].
Qed.

Lemma elapsed_ms_nonneg (fuel : nat) (o : operation A) (m : machine) :
  (0 <= elapsed_ms fuel o m)%Z.
Proof.
  pose proof (join_ms_nonneg fuel m) as Hj.
  assert (forall count ev, 0 <= evolve_ms fuel count ev m)%Z as He.
  { intros count ev. unfold evolve_ms.
    destruct (join fuel m).1; try lia.
    destruct (numeric_cast_size_t count) as [v| |]; try lia.
    destruct (is_blocking _); [|lia].
    pose proof (worker_ms_nonneg fuel (ev v) (join fuel m).2). lia. }
  destruct o; cbn [elapsed_ms]; auto; lia.
Qed.

(** The end of a worker adds what has been measured. *)
Lemma add_evolution_time_time (start : Z) (m : machine) :
  (0 <= m_evo_time (isl m) < 2 ^ size_t_bits)%Z ->
  m_evo_time (isl (add_evolution_time start m).2) =
  ((m_evo_time (isl m) + measured_ms start m) mod 2 ^ size_t_bits)%Z.
Proof.
  intros Hr. destruct (add_evolution_time_spec start m) as (_ & -> & _). cbn zeta.
  unfold measured_ms.
  destruct ((0 <=? _) && (_ <? _))%Z; cbn.
  - reflexivity.
  - rewrite Z.add_0_r, Z.mod_small by lia. reflexivity.
Qed.

Lemma evolver_call_time (fuel : nat) (ev : evolver) (m : machine) :
  (0 <= m_evo_time (isl m) < 2 ^ size_t_bits)%Z ->
  m_evo_time (isl (evolver_call fuel ev m).2) =
  ((m_evo_time (isl m) + worker_ms fuel ev m) mod 2 ^ size_t_bits)%Z.
Proof.
  intros Hr. unfold evolver_call, worker_ms.
  destruct (juice_impl_spec fuel ev m) as (_ & _ & (_ & Hm1 & _) & _).
  destruct (juice_impl fuel ev m) as [start [r m1]]. cbn [fst snd] in *.
  destruct r as [[]| e |].
  - rewrite add_evolution_time_time by (rewrite Hm1; exact Hr).
    rewrite Hm1. reflexivity.
  - destruct (is_blocking (isl m)); cbn [snd].
    + rewrite Hm1, Z.add_0_r, Z.mod_small by lia. reflexivity.
    + unfold mbind, run_bind.
      destruct e; cbn [emit mret run_ret fst snd];
        rewrite add_evolution_time_time by (cbn [isl]; rewrite Hm1; exact Hr);
        cbn [isl]; rewrite Hm1; try reflexivity;
        f_equal; f_equal; apply measured_ms_env; reflexivity.
  - cbn [snd]. rewrite Hm1, Z.add_0_r, Z.mod_small by lia. reflexivity.
Qed.

Lemma join_time (fuel : nat) (m : machine) :
  (0 <= m_evo_time (isl m) < 2 ^ size_t_bits)%Z ->
  m_evo_time (isl (join fuel m).2) =
  ((m_evo_time (isl m) + join_ms fuel m) mod 2 ^ size_t_bits)%Z.
Proof.
  intros Hr. pose proof (evolver_call_time fuel) as Hcall.
  unfold join, join_ms, mbind, run_bind, get_island. cbn.
  destruct (m_evo_thread (isl m)) as [[body joined]|]; cbn.
  - destruct joined; cbn.
    + rewrite Z.add_0_r, Z.mod_small by lia. reflexivity.
    + specialize (Hcall body m Hr).
      destruct (evolver_call fuel body m) as [[[]| e |] m1]; cbn in *; exact Hcall.
  - rewrite Z.add_0_r, Z.mod_small by lia. reflexivity.
Qed.

Lemma evolve_time (fuel : nat) (count : Z) (ev : Z -> evolver) (m : machine) :
  (0 <= m_evo_time (isl m) < 2 ^ size_t_bits)%Z ->
  m_evo_time
    (isl ((join fuel;;
           v ← lift_result (numeric_cast_size_t count);
           i ← get_island;
           if is_blocking i then evolver_call fuel (ev v) else launch (ev v)) m).2) =
  ((m_evo_time (isl m) + evolve_ms fuel count ev m) mod 2 ^ size_t_bits)%Z.
Proof.
  intros Hr. pose proof (join_time fuel m Hr) as Hj.
  unfold evolve_ms, mbind, run_bind, lift_result, get_island.
  destruct (join fuel m) as [[[]| e |] m1]; cbn [fst snd] in *;
    [|rewrite Z.add_0_r; exact Hj..].
  destruct (numeric_cast_size_t count) as [v| e |]; cbn [fst snd];
    [|rewrite Z.add_0_r; exact Hj..].
  assert (0 <= m_evo_time (isl m1) < 2 ^ size_t_bits)%Z as Hr1
    by (rewrite Hj; apply Z.mod_pos_bound; lia).
  destruct (is_blocking (isl m1)).
  - rewrite (evolver_call_time fuel (ev v) m1 Hr1), Hj, Z.add_mod_idemp_l by lia.
    f_equal. lia.
  - destruct (launch_spec (ev v) m1) as (-> & _). rewrite Z.add_0_r. exact Hj.
Qed.

(** *** The stored time is only added to *)

(** Nothing that a worker or a method does depends on the stored time: on a
    machine whose stored time is replaced, a piece of code that does not
    write the time does the same and leaves the replaced time. *)
Lemma evolution_round_with_time (m : machine) (t : Z) :
  evolution_round (with_time m t) =
  ((evolution_round m).1, with_time (evolution_round m).2 t).
Proof.
  destruct m as [[p a archi time th prob] w tr].
  unfold evolution_round, mbind, run_bind, get_island, when, mret, run_ret,
    do_pre_evolution, do_post_evolution, do_algo_evolve, do_interruption_point, emit,
    with_time, is_blocking.
  cbn.
  destruct archi; cbn.
  - destruct (pre_evolution w p) as [w1 p1]; cbn.
    destruct (algo_evolve a p1) as [[a2 p2]| |]; cbn; [|reflexivity..].
    destruct (problem_is_blocking (pop_problem p2) || algo_is_blocking a2); cbn;
      [reflexivity|].
    destruct (interruption_point (post_evolution w1 p2)) as [[] w3]; reflexivity.
  - destruct (algo_evolve a p) as [[a2 p2]| |]; cbn; [|reflexivity..].
    destruct (problem_is_blocking (pop_problem p2) || algo_is_blocking a2); cbn;
      [reflexivity|].
    destruct (interruption_point w) as [[] w3]; reflexivity.
Qed.

Lemma read_clock_with_time (m : machine) (t : Z) :
  read_clock (with_time m t) = ((read_clock m).1, with_time (read_clock m).2 t).
Proof. unfold read_clock, with_time. cbn. destruct (local_time (env m)). reflexivity. Qed.

Lemma int_loop_with_time (k : nat) (t : Z) :
  forall m : machine,
    int_loop k (with_time m t) = ((int_loop k m).1, with_time (int_loop k m).2 t).
Proof.
  induction k as [|k IH]; intros m; [reflexivity|].
  cbn [int_loop]. unfold mbind, run_bind. rewrite evolution_round_with_time.
  destruct (evolution_round m) as [[[]| e |] m1]; cbn [fst snd]; [apply IH | reflexivity..].
Qed.

Lemma t_loop_with_time (fuel : nat) (m_t start t : Z) :
  forall m : machine,
    t_loop fuel m_t start (with_time m t) =
    ((t_loop fuel m_t start m).1, with_time (t_loop fuel m_t start m).2 t).
Proof.
  induction fuel as [|fuel IH]; intros m; [reflexivity|].
  cbn [t_loop]. unfold mbind, run_bind, do_local_time.
  rewrite evolution_round_with_time.
  destruct (evolution_round m) as [[[]| e |] m1]; cbn [fst snd]; [|reflexivity..].
  rewrite read_clock_with_time.
  destruct (read_clock m1) as [now m2]. cbn [fst snd].
  destruct (total_milliseconds (now - start) <? 0)%Z; [apply IH|].
  unfold lift_result.
  destruct (numeric_cast_size_t (total_milliseconds (now - start))) as [v| e |];
    cbn [fst snd]; [|reflexivity..].
  destruct (v <? m_t)%Z; [apply IH | reflexivity].
Qed.

Lemma juice_impl_with_time (fuel : nat) (ev : evolver) (m : machine) (t : Z) :
  juice_impl fuel ev (with_time m t) =
  ((juice_impl fuel ev m).1,
   ((juice_impl fuel ev m).2.1, with_time (juice_impl fuel ev m).2.2 t)).
Proof.
  unfold juice_impl. rewrite read_clock_with_time.
  destruct (read_clock m) as [start m1]. cbn [fst snd].
  unfold mbind, run_bind, get_island, when. cbn [fst snd].
  replace (m_archi (isl (with_time m1 t)) && negb (is_blocking (isl (with_time m1 t))))
    with (m_archi (isl m1) && negb (is_blocking (isl m1))) by reflexivity.
  destruct (m_archi (isl m1) && negb (is_blocking (isl m1))).
  - unfold do_sync_island_start, emit. cbn [fst snd isl env trace with_time].
    destruct ev as [n | m_t]; apply (f_equal (pair start)).
    + exact (int_loop_with_time n t
               {| isl := isl m1; env := sync_island_start (env m1);
                  trace := trace m1 ++ [ev_sync_island_start] |}).
    + exact (t_loop_with_time fuel m_t start t
               {| isl := isl m1; env := sync_island_start (env m1);
                  trace := trace m1 ++ [ev_sync_island_start] |}).
  - unfold mret, run_ret. destruct ev as [n | m_t]; apply (f_equal (pair start)).
    + exact (int_loop_with_time n t m1).
    + exact (t_loop_with_time fuel m_t start t m1).
Qed.

Lemma worker_ms_with_time (fuel : nat) (ev : evolver) (m : machine) (t : Z) :
  worker_ms fuel ev (with_time m t) = worker_ms fuel ev m.
Proof.
  unfold worker_ms. rewrite juice_impl_with_time.
  destruct (juice_impl fuel ev m) as [start [r m1]]. cbn [fst snd].
  replace (is_blocking (isl (with_time m t))) with (is_blocking (isl m)) by reflexivity.
  rewrite (measured_ms_env start m1 (with_time m1 t) eq_refl). reflexivity.
Qed.

Lemma add_evolution_time_with_time (start : Z) (m : machine) (t : Z) :
  exists t', add_evolution_time start (with_time m t) =
             ((add_evolution_time start m).1, with_time (add_evolution_time start m).2 t').
Proof.
  unfold add_evolution_time, try_catch, mbind, run_bind, do_local_time.
  rewrite read_clock_with_time.
  destruct (read_clock m) as [now m1]. cbn [fst snd].
  destruct (0 <=? total_milliseconds (now - start))%Z; [|exists t; reflexivity].
  unfold lift_result.
  destruct (numeric_cast_size_t (total_milliseconds (now - start))) as [v| e |];
    cbn; eexists; reflexivity.
Qed.

Lemma evolver_call_with_time (fuel : nat) (ev : evolver) (m : machine) (t : Z) :
  exists t', evolver_call fuel ev (with_time m t) =
             ((evolver_call fuel ev m).1, with_time (evolver_call fuel ev m).2 t').
Proof.
  unfold evolver_call. rewrite juice_impl_with_time.
  replace (is_blocking (isl (with_time m t))) with (is_blocking (isl m)) by reflexivity.
  destruct (juice_impl fuel ev m) as [start [r m1]]. cbn [fst snd].
  destruct r as [[]| e |].
  - apply add_evolution_time_with_time.
  - destruct (is_blocking (isl m)); [exists t; reflexivity|].
    unfold mbind, run_bind.
    destruct e; cbn [emit mret run_ret fst snd];
      first [ apply add_evolution_time_with_time
            | apply (add_evolution_time_with_time start
                       {| isl := isl m1; env := env m1; trace := trace m1 ++ [_] |}) ].
  - exists t. reflexivity.
Qed.

Lemma join_with_time (fuel : nat) (m : machine) (t : Z) :
  exists t', join fuel (with_time m t) =
             ((join fuel m).1, with_time (join fuel m).2 t').
Proof.
  unfold join, mbind, run_bind, get_island. cbn [fst snd].
  replace (m_evo_thread (isl (with_time m t))) with (m_evo_thread (isl m)) by reflexivity.
  destruct (m_evo_thread (isl m)) as [[body joined]|]; cbn; [|exists t; reflexivity].
  destruct joined; cbn; [exists t; reflexivity|].
  destruct (evolver_call_with_time fuel body m t) as [t' ->].
  destruct (evolver_call fuel body m) as [[[]| e |] m1]; cbn; exists t'; reflexivity.
Qed.

Lemma join_ms_with_time (fuel : nat) (m : machine) (t : Z) :
  join_ms fuel (with_time m t) = join_ms fuel m.
Proof.
  unfold join_ms.
  replace (m_evo_thread (isl (with_time m t))) with (m_evo_thread (isl m)) by reflexivity.
  destruct (m_evo_thread (isl m)) as [[body joined]|]; [|reflexivity].
  destruct joined; [reflexivity | apply worker_ms_with_time].
Qed.

(** The milliseconds that a method adds do not depend on the time that is
    stored when it starts. *)
Lemma elapsed_ms_with_time (fuel : nat) (o : operation A) (m : machine) (t : Z) :
  elapsed_ms fuel o (with_time m t) = elapsed_ms fuel o m.
Proof.
  assert (forall count ev,
            evolve_ms fuel count ev (with_time m t) = evolve_ms fuel count ev m) as He.
  { intros count ev. unfold evolve_ms. rewrite join_ms_with_time.
    destruct (join_with_time fuel m t) as [t' ->]. cbn [fst snd].
    destruct (join fuel m).1; [|reflexivity..].
    destruct (numeric_cast_size_t count) as [v| |]; [|reflexivity..].
    replace (is_blocking (isl (with_time (join fuel m).2 t')))
      with (is_blocking (isl (join fuel m).2)) by reflexivity.
    rewrite worker_ms_with_time. reflexivity. }
  destruct o; cbn [elapsed_ms]; auto using join_ms_with_time.
Qed.

(** Every method adds the milliseconds of the workers it runs. *)
Lemma perform_time (fuel : nat) (o : operation A) (m : machine) :
  (0 <= m_evo_time (isl m) < 2 ^ size_t_bits)%Z ->
  m_evo_time (isl (perform fuel o m).2) =
  ((m_evo_time (isl m) + elapsed_ms fuel o m) mod 2 ^ size_t_bits)%Z.
Proof.
  intros Hr. pose proof (join_time fuel m Hr) as Hj.
  destruct o as [n | t | | | | a | | | | |]; cbn [perform elapsed_ms].
  - exact (evolve_time fuel n (fun v => int_evolver (Z.to_nat v)) m Hr).
  - exact (evolve_time fuel t t_evolver m Hr).
  - exact Hj.
  - rewrite Z.add_0_r, Z.mod_small by lia.
    unfold interrupt, mbind, run_bind, get_island. cbn.
    destruct (m_evo_thread (isl m)); reflexivity.
  - unfold get_evolution_time, mbind, run_bind, get_island, mret, run_ret.
    destruct (join fuel m) as [[[]| e |] m1]; exact Hj.
  - unfold set_algorithm, mbind, run_bind, get_island, put_island.
    destruct (join fuel m) as [[[]| e |] m1]; exact Hj.
  - unfold get_algorithm, mbind, run_bind, get_island, mret, run_ret.
    destruct (join fuel m) as [[[]| e |] m1]; exact Hj.
  - unfold get_problem, mbind, run_bind, get_island, mret, run_ret.
    destruct (join fuel m) as [[[]| e |] m1]; exact Hj.
  - unfold get_size, mbind, run_bind, get_island, mret, run_ret.
    destruct (join fuel m) as [[[]| e |] m1]; exact Hj.
  - unfold get_migration_probability, mbind, run_bind, get_island, mret, run_ret.
    destruct (join fuel m) as [[[]| e |] m1]; exact Hj.
  - unfold get_population, mbind, run_bind, get_island, mret, run_ret.
    destruct (join fuel m) as [[[]| e |] m1]; exact Hj.
Qed.

(** C8, amended. Every public method of the island leaves the stored
    evolution time equal to the time before plus the milliseconds [v] that
    the workers it has run to their end have measured, in the arithmetic of
    [std::size_t]; [v] is not negative and does not depend on the time that
    was stored (from any other stored time [t0] the same method adds the
    same [v]), so the time does not go down as long as the sum stays below
    [2^size_t_bits] (past that it wraps).  A worker measures from the
    reading of the clock at its start to the reading at its end and leaves
    the time alone in between: a negative measure is not applied, and one
    that is not negative and fits [std::size_t] is added. *)
Theorem evolution_time_accumulates (fuel : nat) (o : operation A) (m : machine) :
  (0 <= m_evo_time (isl m) < 2 ^ size_t_bits)%Z ->
  let m' := (perform fuel o m).2 in
  let v := elapsed_ms fuel o m in
  (0 <= m_evo_time (isl m') < 2 ^ size_t_bits)%Z /\
  (0 <= v)%Z /\
  m_evo_time (isl m') = ((m_evo_time (isl m) + v) mod 2 ^ size_t_bits)%Z /\
  ((m_evo_time (isl m) + v < 2 ^ size_t_bits)%Z ->
   m_evo_time (isl m') = (m_evo_time (isl m) + v)%Z /\
   (m_evo_time (isl m) <= m_evo_time (isl m'))%Z) /\
  (forall t0 : Z,
     elapsed_ms fuel o (with_time m t0) = v /\
     ((0 <= t0 < 2 ^ size_t_bits)%Z ->
      m_evo_time (isl (perform fuel o (with_time m t0)).2) =
        ((t0 + v) mod 2 ^ size_t_bits)%Z)) /\
  (forall ev : evolver,
     let start := (juice_impl fuel ev m).1 in
     let worker := (juice_impl fuel ev m).2 in
     let ms := total_milliseconds ((read_clock worker.2).1 - start) in
     let out := evolver_call fuel ev m in
     m_evo_time (isl worker.2) = m_evo_time (isl m) /\
     m_evo_time (isl out.2) =
       ((m_evo_time (isl m) + worker_ms fuel ev m) mod 2 ^ size_t_bits)%Z /\
     ((ms < 0)%Z -> m_evo_time (isl out.2) = m_evo_time (isl m)) /\
     ((0 <= ms < 2 ^ size_t_bits)%Z -> out.1 = Ok tt ->
      worker_ms fuel ev m = ms /\
      m_evo_time (isl out.2) = ((m_evo_time (isl m) + ms) mod 2 ^ size_t_bits)%Z)) /\
  (forall start : Z,
     let ms := total_milliseconds ((read_clock m).1 - start) in
     let i' := isl (add_evolution_time start m).2 in
     ((ms < 0)%Z -> i' = isl m) /\
     ((0 <= ms < 2 ^ size_t_bits)%Z ->
      i' = with_evo_time (isl m) ((m_evo_time (isl m) + ms) mod 2 ^ size_t_bits))).
Proof.
  intros Hr m' v. subst m' v.
  pose proof (perform_time fuel o m Hr) as E.
  pose proof (elapsed_ms_nonneg fuel o m) as Hv.
  split; [rewrite E; apply Z.mod_pos_bound; lia|].
  split; [exact Hv|]. split; [exact E|]. split; [|split; [|split]].
  - intros Hsmall. rewrite E, Z.mod_small by lia. lia.
  - intros t0. split; [apply elapsed_ms_with_time|].
    intros Hr0. rewrite (perform_time fuel o (with_time m t0) Hr0).
    rewrite elapsed_ms_with_time. reflexivity.
  - intros ev start worker ms out. subst start worker ms out.
    pose proof (evolver_call_time fuel ev m Hr) as Ecall.
    destruct (juice_impl_spec fuel ev m) as (_ & _ & (_ & Hm1 & _) & _).
    cbn zeta in Hm1.
    split; [exact Hm1|]. split; [exact Ecall|].
    assert (forall e, (evolver_call fuel ev m).1 = Ok tt ->
              (juice_impl fuel ev m).2.1 = Throw e -> is_blocking (isl m) = false) as Hnb.
    { intros e. unfold evolver_call.
      destruct (juice_impl fuel ev m) as [start [r m1]]. cbn [fst snd].
      intros Hok ->. destruct (is_blocking (isl m)); [discriminate | reflexivity]. }
    assert ((evolver_call fuel ev m).1 = Ok tt ->
            (juice_impl fuel ev m).2.1 <> Diverge) as Hnd.
    { unfold evolver_call.
      destruct (juice_impl fuel ev m) as [start [r m1]]. cbn [fst snd].
      intros Hok ->. discriminate. }
    rewrite Ecall. unfold worker_ms, measured_ms in *.
    destruct (juice_impl fuel ev m) as [start [r m1]]. cbn [fst snd] in *.
    split.
    + intros Hneg.
      destruct (Z.leb_spec 0 (total_milliseconds ((read_clock m1).1 - start))); [lia|].
      cbn [andb].
      destruct r as [[]| e |]; [| destruct (is_blocking (isl m)) |];
        rewrite Z.add_0_r, Z.mod_small by lia; reflexivity.
    + intros [H0 H1] Hok.
      destruct (Z.leb_spec 0 (total_milliseconds ((read_clock m1).1 - start))); [|lia].
      destruct (Z.ltb_spec (total_milliseconds ((read_clock m1).1 - start))
                  (2 ^ size_t_bits)); [|lia].
      cbn [andb].
      destruct r as [[]| e |].
      * auto.
      * rewrite (Hnb e Hok eq_refl). auto.
      * exfalso. exact (Hnd Hok eq_refl).
  - intros start ms i'. subst ms i'.
    destruct (add_evolution_time_spec start m) as (_ & -> & _). cbn zeta. split.
    + intros Hneg. destruct (Z.leb_spec 0 (total_milliseconds ((read_clock m).1 - start)));
        [lia | reflexivity].
    + intros [H0 H1].
      destruct (Z.leb_spec 0 (total_milliseconds ((read_clock m).1 - start))); [|lia].
      destruct (Z.ltb_spec (total_milliseconds ((read_clock m).1 - start))
                  (2 ^ size_t_bits)); [reflexivity | lia].
Qed.

(** When no call of the algorithm throws and no interruption is delivered,
    the loop of the worker runs to its end. *)
Lemma evolution_round_ok (m : machine) :
  (forall a p, exists a' p', algo_evolve a p = Ok (a', p')) ->
  (forall w, (interruption_point w).1 = false) ->
  (evolution_round m).1 = Ok tt.
Proof.
  intros Htotal Hquiet. destruct m as [i w tr].
  unfold evolution_round, mbind, run_bind, get_island, when, mret, run_ret,
    do_pre_evolution, do_post_evolution, do_algo_evolve, do_interruption_point, emit.
  cbn.
  destruct (m_archi i) eqn:Harchi; cbn.
  - destruct (pre_evolution w (m_pop i)) as [w1 p1]; cbn.
    destruct (Htotal (m_algo i) p1) as (a2 & p2 & ->); cbn. rewrite Harchi; cbn.
    destruct (is_blocking _); cbn; [reflexivity|].
    specialize (Hquiet (post_evolution w1 p2)).
    destruct (interruption_point (post_evolution w1 p2)) as [b w3]. cbn in Hquiet.
    subst b. reflexivity.
  - destruct (Htotal (m_algo i) (m_pop i)) as (a2 & p2 & ->); cbn. rewrite Harchi; cbn.
    destruct (is_blocking _); cbn; [reflexivity|].
    specialize (Hquiet w).
    destruct (interruption_point w) as [b w3]. cbn in Hquiet. subst b. reflexivity.
Qed.

Lemma int_loop_ok (k : nat) :
  (forall a p, exists a' p', algo_evolve a p = Ok (a', p')) ->
  (forall w, (interruption_point w).1 = false) ->
  forall m : machine, (int_loop k m).1 = Ok tt.
Proof.
  intros Htotal Hquiet. induction k as [|k IH]; intros m; [reflexivity|].
  cbn [int_loop]. unfold mbind, run_bind.
  pose proof (evolution_round_ok m Htotal Hquiet) as Hround.
  destruct (evolution_round m) as [r m1]. cbn in Hround. subst r. apply IH.
Qed.

Lemma juice_impl_ok (fuel n : nat) (m : machine) :
  (forall a p, exists a' p', algo_evolve a p = Ok (a', p')) ->
  (forall w, (interruption_point w).1 = false) ->
  (juice_impl fuel (int_evolver n) m).2.1 = Ok tt.
Proof.
  intros Htotal Hquiet. unfold juice_impl.
  destruct (read_clock m) as [start m1]. cbn [fst snd].
  unfold mbind, run_bind, get_island, when.
  destruct (m_archi (isl m1) && negb (is_blocking (isl m1)));
    cbn; apply int_loop_ok; assumption.
Qed.

(** *** What the calls of the worker are made on *)

(** A round that returns has called the algorithm on the algorithm and the
    population of the island (after the migration, in an archipelago) and
    has stored what the call returned. *)
Lemma evolution_round_call (m : machine) :
  (evolution_round m).1 = Ok tt ->
  exists p0 a1 p1,
    (if m_archi (isl m) then p0 = (pre_evolution (env m) (m_pop (isl m))).2
     else p0 = m_pop (isl m)) /\
    algo_evolve (m_algo (isl m)) p0 = Ok (a1, p1) /\
    isl (evolution_round m).2 = with_pop_algo (isl m) p1 a1.
Proof.
  destruct m as [i w tr].
  unfold evolution_round, mbind, run_bind, get_island, when, mret, run_ret,
    do_pre_evolution, do_post_evolution, do_algo_evolve, do_interruption_point, emit.
  cbn.
  destruct (m_archi i) eqn:Harchi; cbn.
  - destruct (pre_evolution w (m_pop i)) as [w1 p1]; cbn.
    destruct (algo_evolve (m_algo i) p1) as [[a2 p2]| |] eqn:Hev; cbn; [|discriminate..].
    rewrite Harchi; cbn. intros Hok. exists p1, a2, p2.
    split; [reflexivity|]. split; [exact Hev|].
    destruct (is_blocking _); cbn in *; [reflexivity|].
    destruct (interruption_point (post_evolution w1 p2)) as [[] w3]; cbn in *;
      [discriminate | reflexivity].
  - destruct (algo_evolve (m_algo i) (m_pop i)) as [[a2 p2]| |] eqn:Hev; cbn;
      [|discriminate..].
    rewrite Harchi; cbn. intros Hok. exists (m_pop i), a2, p2.
    split; [reflexivity|]. split; [exact Hev|].
    destruct (is_blocking _); cbn in *; [reflexivity|].
    destruct (interruption_point w) as [[] w3]; cbn in *; [discriminate | reflexivity].
Qed.

Lemma int_loop_calls (k : nat) :
  forall m : machine,
    (int_loop k m).1 = Ok tt ->
    exists calls, length calls = k /\
      calls_in_a_row (m_archi (isl m)) calls (m_algo (isl m)) (m_pop (isl m))
        (m_algo (isl (int_loop k m).2)) (m_pop (isl (int_loop k m).2)).
Proof.
  induction k as [|k IH]; intros m Hok.
  - exists []. cbn. auto.
  - cbn [int_loop] in *. unfold mbind, run_bind in *.
    pose proof (evolution_round_call m) as Hround.
    destruct (evolution_round m) as [[[]| e |] m1]; cbn [fst snd] in *; [|discriminate..].
    destruct (Hround eq_refl) as (p0 & a1 & p1 & Hp0 & Hev & Hisl).
    destruct (IH m1 Hok) as (calls & Hlen & Hchain).
    exists ((m_algo (isl m), p0) :: calls). split; [cbn; lia|].
    cbn [calls_in_a_row]. split; [reflexivity|]. split.
    { destruct (m_archi (isl m)); [exists (env m); exact Hp0 | exact Hp0]. }
    exists a1, p1. split; [exact Hev|]. rewrite Hisl in Hchain. exact Hchain.
Qed.

Lemma calls_in_a_row_standalone (calls : list (A * population)) :
  forall (a : A) (p : population) (a' : A) (p' : population),
    calls_in_a_row false calls a p a' p' ->
    evolve_n (length calls) a p = Ok (a', p').
Proof.
  induction calls as [|[a0 p0] calls IH]; intros a p a' p' H; cbn in *.
  - destruct H as [-> ->]. reflexivity.
  - destruct H as (-> & -> & a1 & p1 & Hev & H). rewrite Hev. cbn. apply IH. exact H.
Qed.

Lemma made_calls_ext (n : nat) (i1 i2 i1' i2' : island) :
  m_archi i2 = m_archi i1 -> m_algo i2 = m_algo i1 -> m_pop i2 = m_pop i1 ->
  m_algo i2' = m_algo i1' -> m_pop i2' = m_pop i1' ->
  made_calls n i1 i1' -> made_calls n i2 i2'.
Proof. unfold made_calls. intros -> -> -> -> -> H. exact H. Qed.

Lemma int_loop_made_calls (k : nat) (m : machine) :
  (int_loop k m).1 = Ok tt -> made_calls k (isl m) (isl (int_loop k m).2).
Proof.
  intros Hok. destruct (int_loop_calls k m Hok) as (calls & Hlen & Hchain).
  split; [eauto|]. intros Harchi. rewrite Harchi in Hchain.
  rewrite <- Hlen at 1. apply calls_in_a_row_standalone. exact Hchain.
Qed.

Lemma juice_impl_made_calls (fuel n : nat) (m : machine) :
  (juice_impl fuel (int_evolver n) m).2.1 = Ok tt ->
  made_calls n (isl m) (isl (juice_impl fuel (int_evolver n) m).2.2).
Proof.
  unfold juice_impl. destruct (read_clock_spec m) as [Hi Htr].
  destruct (read_clock m) as [start m1]. cbn [fst snd] in *.
  unfold mbind, run_bind, get_island, when.
  destruct (m_archi (isl m1) && negb (is_blocking (isl m1))).
  - unfold do_sync_island_start, emit. cbn [fst snd isl env trace]. intros Hok.
    apply (made_calls_ext n _ _ _ _ (eq_sym (f_equal m_archi Hi))
             (eq_sym (f_equal m_algo Hi)) (eq_sym (f_equal m_pop Hi)) eq_refl eq_refl
             (int_loop_made_calls n _ Hok)).
  - unfold mret, run_ret. intros Hok.
    apply (made_calls_ext n _ _ _ _ (eq_sym (f_equal m_archi Hi))
             (eq_sym (f_equal m_algo Hi)) (eq_sym (f_equal m_pop Hi)) eq_refl eq_refl
             (int_loop_made_calls n _ Hok)).
Qed.

(** The end of [operator()] leaves the population and the algorithm as the
    loop has left them. *)
Lemma evolver_call_pop_algo (fuel : nat) (ev : evolver) (m : machine) :
  m_pop (isl (evolver_call fuel ev m).2) = m_pop (isl (juice_impl fuel ev m).2.2) /\
  m_algo (isl (evolver_call fuel ev m).2) = m_algo (isl (juice_impl fuel ev m).2.2).
Proof.
  unfold evolver_call. destruct (juice_impl fuel ev m) as [start [r m1]]. cbn [fst snd].
  assert (forall m2, isl m2 = isl m1 ->
            m_pop (isl (add_evolution_time start m2).2) = m_pop (isl m1) /\
            m_algo (isl (add_evolution_time start m2).2) = m_algo (isl m1)) as Hadd.
  { intros m2 H2. destruct (add_evolution_time_spec start m2) as (_ & -> & _).
    cbn zeta. rewrite H2. destruct (_ && _)%Z; auto. }
  destruct r as [[]| e |]; [apply Hadd; reflexivity | | auto].
  destruct (is_blocking (isl m)); [auto|]. unfold mbind, run_bind.
  destruct e; cbn [emit mret run_ret fst snd]; apply Hadd; reflexivity.
Qed.

(** On a blocking island nothing is caught: [operator()] returns only when
    the loop has returned. *)
Lemma evolver_call_blocking_Ok (fuel : nat) (ev : evolver) (m : machine) :
  is_blocking (isl m) = true -> (evolver_call fuel ev m).1 = Ok tt ->
  (juice_impl fuel ev m).2.1 = Ok tt.
Proof.
  intros Hb. unfold evolver_call.
  destruct (juice_impl fuel ev m) as [start [r m1]]. cbn [fst snd]. rewrite Hb.
  destruct r as [[]| e |]; [reflexivity | discriminate..].
Qed.


(** C9. [interrupt] throws a runtime error exactly when the island holds a
    thread handle and otherwise returns with nothing changed.  [join] keeps
    the handle, so after a join that has waited for the worker [interrupt]
    still throws.  A new island holds no handle, and [evolve] on a blocking
    island does not create one. *)
Theorem interrupt_throws_iff_handle (m : machine) :
  ((exists msg m', interrupt m = (Throw (runtime_error msg), m')) <->
     m_evo_thread (isl m) <> None) /\
  (m_evo_thread (isl m) = None -> interrupt m = (Ok tt, m)) /\
  (forall fuel,
     (m_evo_thread (isl (join fuel m).2) = None <-> m_evo_thread (isl m) = None) /\
     (m_evo_thread (isl m) <> None -> (join fuel m).1 = Ok tt ->
      busy (isl (join fuel m).2) = false /\
      exists msg m', interrupt (join fuel m).2 = (Throw (runtime_error msg), m'))) /\
  (forall (p : problem) (a : A) (n : Z) (prob : Q) (i : island),
     make_island p a n prob = Ok i -> m_evo_thread i = None) /\
  (forall fuel n, is_blocking (isl m) = true -> m_evo_thread (isl m) = None ->
     m_evo_thread (isl (island_evolve fuel n m).2) = None).
Proof.
  assert (forall m0 : machine,
            (exists msg m', interrupt m0 = (Throw (runtime_error msg), m')) <->
            m_evo_thread (isl m0) <> None) as Hiff.
  { intros m0. unfold interrupt, mbind, run_bind, get_island, do_thread_interrupt,
      emit, throw. cbn.
    destruct (m_evo_thread (isl m0)); cbn.
    - split; [discriminate | eauto].
    - split; [intros (msg & m' & [=]) | contradiction]. }
  split_and!.
  - apply Hiff.
  - intros Hnone. unfold interrupt, mbind, run_bind, get_island. cbn.
    rewrite Hnone. reflexivity.
  - intros fuel. destruct (join_spec fuel m) as (_ & _ & Hnone & Hbusy).
    split; [exact Hnone|]. intros Hsome Hok. split; [exact (Hbusy Hok)|].
    apply Hiff. rewrite Hnone. exact Hsome.
  - intros p a n prob i. unfold make_island.
    destruct (new_population p n) as [pop0| e |]; cbn; [|discriminate..].
    destruct (Qltb prob 0 || Qltb 1 prob); [discriminate|]. intros [= <-]. reflexivity.
  - intros fuel n Hb Hnone.
    assert (busy (isl m) = false) as Hidle by (unfold busy; rewrite Hnone; reflexivity).
    unfold island_evolve, mbind, run_bind. rewrite (join_idle fuel m Hidle).
    unfold lift_result. destruct (numeric_cast_size_t n) as [v| e |]; cbn;
      [|exact Hnone..].
    rewrite Hb.
    destruct (evolver_call_spec fuel (int_evolver (Z.to_nat v)) m) as (_ & _ & Ht & _).
    rewrite Ht. exact Hnone.
Qed.

End island_claims.

(** ** The concrete surroundings keep their promises *)

Lemma counter_rng_laws : RandomSourceLaws counter_rng.
Proof.
  split.
  - intros a b g Hab. cbn.
    pose proof (Nat.mod_upper_bound g (b - a + 1) ltac:(lia)). lia.
  - intros a b g Hab. cbn. destruct (Nat.even g); split; lra.
  - intros g. cbn.
    pose proof (Nat.mod_upper_bound g 10 ltac:(lia)) as H.
    unfold Qle, Qlt. cbn. lia.
Qed.

(** The counting generator visits [NP] different indices in a row, so eight
    draws are enough to leave any seven values behind. *)
Lemma counter_pick_index_Diverge (fuel NP : nat) (excl : list nat) (g : nat) :
  (1 <= NP)%nat ->
  pick_index (RS := counter_rng) fuel NP excl g = Diverge ->
  forall j, (j < fuel)%nat -> ((g + j) mod NP)%nat ∈ excl.
Proof.
  intros HNP. revert g; induction fuel as [|fuel IH]; intros g H j Hj; [lia|].
  cbn [pick_index uniform_int counter_rng] in H.
  replace (NP - 1 - 0 + 1)%nat with NP in H by lia.
  rewrite Nat.add_0_l in H.
  destruct (existsb (Nat.eqb (g mod NP)) excl) eqn:E; [|discriminate].
  destruct j as [|j].
  - rewrite Nat.add_0_r. apply existsb_exists in E as (x & Hin & Hx).
    apply Nat.eqb_eq in Hx. rewrite Hx. apply list_elem_of_In. exact Hin.
  - replace (g + S j)%nat with (S g + j)%nat by lia. apply IH; [exact H | lia].
Qed.

Lemma counter_rng_sampling_returns (fuel NP : nat) :
  (8 <= fuel)%nat -> (8 <= NP)%nat -> sampling_returns (RS := counter_rng) fuel NP.
Proof.
  intros Hf HNP excl g Hlen H.
  pose proof (counter_pick_index_Diverge fuel NP excl g ltac:(lia) H) as Hall.
  set (l := (fun j => ((g + j) mod NP)%nat) <$> seq 0 8).
  assert (NoDup l) as Hnd.
  { apply NoDup_fmap_2_strong; [|apply NoDup_seq].
    intros x y Hx%elem_of_seq Hy%elem_of_seq Heq.
    pose proof (Nat.div_mod_eq (g + x) NP) as Ex.
    pose proof (Nat.div_mod_eq (g + y) NP) as Ey.
    rewrite Heq in Ex.
    destruct (Nat.eq_dec ((g + x) / NP) ((g + y) / NP)) as [Eq | Ne]; [rewrite Eq in Ex; lia|].
    nia. }
  assert (l ⊆+ excl) as Hsub.
  { apply NoDup_submseteq; [exact Hnd|].
    intros x (j & -> & Hj%elem_of_seq)%list_elem_of_fmap. apply Hall. lia. }
  apply submseteq_length in Hsub.
  unfold l in Hsub. rewrite length_fmap, length_seq in Hsub. lia.
Qed.

Lemma de_self_adaptive_laws {rng_uint32 rng_double : Type}
    {RS : RandomSource rng_uint32 rng_double} {PR : PopulationRanking}
    {Pf : Platform} (fuel : nat) :
  AlgorithmLaws (de_self_adaptive_algorithm fuel).
Proof.
  split. intros a a' p p' H. split; [reflexivity|].
  exact (evolve_problem fuel a a' p p' H).
Qed.

Lemma idle_algorithm_laws : AlgorithmLaws idle_algorithm.
Proof. split. intros a a' p p' [= <- <-]. auto. Qed.

Lemma ticking_laws (step : Z) : EnvironmentLaws (ticking step).
Proof. split. reflexivity. Qed.

Lemma budget_algorithm_laws (blocking : bool) : AlgorithmLaws (budget_algorithm blocking).
Proof. split. intros [|a] a' p p' H; cbn in H; [discriminate|]. injection H as <- <-. auto. Qed.

Lemma corner_population_laws : PopulationConstructorLaws corner_population.
Proof.
  split.
  - intros p n Hn. cbn. destruct (Z.ltb_spec n 0); [eauto | lia].
  - intros p n pop0. cbn. destruct (Z.ltb_spec n 0); [discriminate|].
    intros [= <-]. unfold pop_size. cbn. rewrite length_replicate. split; [reflexivity | lia].
Qed.

Lemma sphere_box_ok (D : nat) :
  (Z.of_nat D < 2 ^ 64)%Z -> @problem_box_ok lp64 (sphere D).
Proof.
  intros HD. split_and!; cbn; [lia | exact HD|].
  intros j Hj. rewrite !lookup_total_replicate_2 by exact Hj.
  apply Qle_bool_imp_le. reflexivity.
Qed.

Lemma pop8_shaped : pop_shaped pop8.
Proof. unfold pop_shaped. cbn. repeat constructor. Qed.

Lemma pop8_in_box : pop_in_box pop8.
Proof.
  unfold pop_in_box. cbn.
  repeat (constructor;
          [intros [|j] Hj; [split; apply Qle_bool_imp_le; reflexivity | cbn in Hj; lia]|]).
  constructor.
Qed.

(** ** The properties on the examples *)

(** C1. On the example population (variant 2, scheme 0) the trial of slot 7
    in the first generation is [0]: it is accepted, [set_x] stores it and it
    becomes the champion, and [set_v] stores the velocity [0 - (-5) = 5].
    The trial beats the global best, and what [gbX] receives, and [gbIter]
    after the sweep, is the velocity [5], not the trial [0]. *)
Theorem gbIter_is_velocity_after_generation :
  exists st,
    @generation nat nat counter_rng lp64 20 8 st0 = Ok st /\
    map Qred (cur_x (get_individual (pop st) 7)) = [0%Q] /\
    map Qred (champion_x (m_champion (pop st))) = [0%Q] /\
    map Qred (cur_v (get_individual (pop st) 7)) = [5%Q] /\
    map Qred (gbfit st) = [0%Q] /\
    map Qred (gbX st) = [5%Q] /\
    map Qred (gbIter st) = [5%Q] /\
    gbIter st = cur_v (get_individual (pop st) 7) /\
    gbIter st <> cur_x (get_individual (pop st) 7).
Proof.
  eexists. split; [vm_compute; reflexivity|].
  split_and!; try (vm_compute; reflexivity).
  vm_compute. discriminate.
Qed.

(** The same on one call of the selection step: slot 0 holds [4] with
    fitness 16, the best fitness so far is 1, the trial is [1/2]. *)
Example selection_gbX_example :
  let st := @selection nat nat 0 (1 # 10) 0 [1 # 2] st0 in
  popnew st !!! 0%nat = [1 # 2] /\
  cur_x (get_individual (pop st) 0) = [1 # 2] /\
  map Qred (cur_v (get_individual (pop st) 0)) = [-7 # 2] /\
  map Qred (gbX st) = [-7 # 2].
Proof. vm_compute. auto. Qed.

(** The algorithm of the examples is the one the constructor builds. *)
Example sade_from_constructor :
  @make_de_self_adaptive nat nat 2 2 0 0 0 false 0%nat 0%nat = Ok (sade 2 2 0 false).
Proof. reflexivity. Qed.

(** A population of 7 is refused and one of 8 is evolved. *)
Lemma evolve_value_error_iff_witness :
  (exists msg,
     @evolve nat nat counter_rng scan_ranking lp64 20 (sade 2 2 0 false) pop7 =
     Throw (value_error msg)) /\
  evolve_checks (Pf := lp64) pop8 = Ok tt /\
  (forall e,
     @evolve nat nat counter_rng scan_ranking lp64 20 (sade 2 2 0 false) pop8 <> Throw e) /\
  (exists a' p',
     @evolve nat nat counter_rng scan_ranking lp64 20 (sade 2 2 0 false) pop8 =
     Ok (a', p')).
Proof.
  destruct (@evolve_value_error_iff nat nat counter_rng scan_ranking lp64 20
              (sade 2 2 0 false) pop7) as (_ & _ & H7 & _).
  destruct (@evolve_value_error_iff nat nat counter_rng scan_ranking lp64 20
              (sade 2 2 0 false) pop8) as (_ & _ & _ & H8).
  split; [apply H7; reflexivity|].
  destruct (H8 eq_refl ltac:(vm_compute; discriminate) eq_refl eq_refl)
    as (Hok & Hno & Hret).
  split; [exact Hok|]. split; [exact Hno|].
  apply Hret. apply counter_rng_sampling_returns; lia.
Defined.

Lemma st0_shaped : state_shaped 8 st0.
Proof. exact (@initial_state_shaped nat nat counter_rng (sade 2 2 0 false) pop8 pop8_shaped). Qed.


(** Two generations on the example keep the eight points in [[-5, 5]]. *)
Lemma evolve_keeps_box_witness :
  RandomSourceLaws counter_rng /\ @problem_box_ok lp64 (sphere 1) /\
  exists a' p',
    @evolve nat nat counter_rng scan_ranking lp64 20 (sade 2 2 0 false) pop8 = Ok (a', p') /\
    pop_in_box p'.
Proof.
  split; [exact counter_rng_laws|].
  split; [apply sphere_box_ok; reflexivity|].
  destruct (@evolve nat nat counter_rng scan_ranking lp64 20 (sade 2 2 0 false) pop8)
    as [[a' p']| e |] eqn:E.
  - exists a', p'. split; [reflexivity|].
    destruct (@evolve_keeps_box nat nat counter_rng scan_ranking lp64 (sphere 1)
                counter_rng_laws (sphere_box_ok 1 eq_refl)) as (_ & _ & H).
    apply (H 20 (sade 2 2 0 false) a' pop8 p');
      [reflexivity | cbn; lia | exact pop8_shaped | exact pop8_in_box | exact E].
  - vm_compute in E. discriminate E.
  - vm_compute in E. discriminate E.
Defined.

(** The trial of slot 1 of the example is [5/4], worse than the [1] that the
    slot holds: nothing but [popnew[1]] and the generators changes. *)
Lemma rejected_trial_changes_nothing_witness :
  exists st',
    @individual_step nat nat counter_rng lp64 20 8 1 st0 = Ok st' /\
    fit st' = fit st0 /\ pop st' = pop st0 /\
    m_f (algo st') = m_f (algo st0) /\ m_cr (algo st') = m_cr (algo st0) /\
    popnew st' !!! 1%nat = popold st0 !!! 1%nat.
Proof.
  destruct (@individual_step nat nat counter_rng lp64 20 8 1 st0) as [st'| e |] eqn:E.
  - exists st'. split; [reflexivity|].
    destruct (@rejected_trial_changes_nothing nat nat counter_rng lp64 20 8 1 st0 st' E)
      as (t & F & CR & g & u & Hmk & Hrej & _).
    vm_compute in Hmk. injection Hmk as <- <- <- <- <-.
    destruct (Hrej ltac:(vm_compute; reflexivity)) as (H1 & H2 & H3 & H4 & _ & H6 & _).
    split_and!; [exact H1 | exact H2 | exact H3 | exact H4|].
    apply H6. vm_compute. lia.
  - vm_compute in E. discriminate E.
  - vm_compute in E. discriminate E.
Defined.

(** C6, as stated, fails: with no generations to run [evolve] returns before
    the vectors are looked at, so a set restart flag and vectors of the wrong
    length (here: empty, for 8 individuals) change nothing. *)
Lemma evolve_without_generations_keeps_F_CR :
  let a := sade 0 2 0 true in
  needs_init a (pop_size pop8) = true /\
  @evolve nat nat counter_rng scan_ranking lp64 20 a pop8 = Ok (a, pop8) /\
  length (m_f a) <> pop_size pop8 /\ length (m_cr a) <> pop_size pop8.
Proof. vm_compute. split_and!; try reflexivity; discriminate. Qed.

(** With a generation to run and the restart flag set, the eight entries of
    CR and then of F are drawn afresh on the example. *)
Lemma init_f_cr_spec_witness :
  let a := sade 1 2 0 true in
  evolve_checks (Pf := lp64) pop8 = Ok tt /\ m_gen a <> 0%Z /\
  needs_init a (pop_size pop8) = true /\
  length (m_f (@init_f_cr nat nat counter_rng a (pop_size pop8))) = 8%nat /\
  m_cr (@init_f_cr nat nat counter_rng a (pop_size pop8)) =
    (draw_list (@uniform_real nat nat counter_rng 0.0 1.0) 8 0%nat).1.
Proof.
  intros a.
  destruct (@init_f_cr_spec nat nat counter_rng scan_ranking lp64 a pop8 20)
    as (_ & _ & _ & Hinit & _ & Hzero).
  assert (needs_init a (pop_size pop8) = true) as Hneeds by reflexivity.
  destruct (Hinit Hneeds) as (Heq & Hlf & Hlc).
  destruct (Hzero eq_refl) as [Hcr _].
  split_and!; [reflexivity | discriminate | exact Hneeds | |].
  - rewrite Heq. exact Hlf.
  - rewrite Heq. cbn [m_cr with_rngs with_f_cr]. rewrite Hcr. reflexivity.
Defined.

(** Variant 1 with CR = -1 on a problem with one continuous component:
    the component is assigned once. *)
Lemma exponential_crossover_updates_first_witness :
  (1%Z ∈ exponential_variants) /\ (0 < 1)%nat /\
  (@build_trial nat nat counter_rng (1 # 2) (popold st0) (gbIter st0) 0
     {| r1 := 1; r2 := 2; r3 := 3; r4 := 4; r5 := 5; r6 := 6; r7 := 7 |}
     1 1 (-1) (tmp st0, 0%nat, 0%nat)).1.1 !!! 0%nat =
  (1 + (1 # 2) * (-3 - 2))%Q.
Proof.
  assert (1%Z ∈ exponential_variants) as Hin by (apply elem_of_cons; left; reflexivity).
  split; [exact Hin|]. split; [lia|].
  destruct (@exponential_crossover_updates_first nat nat counter_rng (1 # 2)
              (popold st0) (gbIter st0) 0
              {| r1 := 1; r2 := 2; r3 := 3; r4 := 4; r5 := 5; r6 := 6; r7 := 7 |}
              1 1 (-1) (tmp st0, 0%nat, 0%nat) Hin ltac:(lia)) as [Hbuild Hloop].
  rewrite Hbuild. unfold exp_crossover.
  destruct (Hloop (popold st0 !!! 0%nat) 0%nat 0%nat) as (_ & Hfirst & _).
  specialize (Hfirst ltac:(lia) ltac:(vm_compute; lia)).
  vm_compute in Hfirst |- *. exact Hfirst.
Defined.


(** The island with the algorithm of this file, not blocking: [evolve(2)]
    only creates the thread, and [join] finds that the worker has called
    [evolve] twice, with a check for interruption after each call. *)
Example island_runs_de_self_adaptive :
  let alg := @de_self_adaptive_algorithm nat nat counter_rng scan_ranking lp64 20 in
  let m := machine_of (island_of _ (sade 1 2 0 false) pop8 0 None) 0%Z in
  let m1 := (@island_evolve _ alg Z (ticking 1000) lp64 0 2 m).2 in
  let m2 := (@join _ alg Z (ticking 1000) lp64 0 m1).2 in
  trace m1 = [ev_thread_create] /\ m_pop (isl m1) = pop8 /\
  trace m2 = [ev_thread_create; ev_algo_evolve; ev_interruption_point;
              ev_algo_evolve; ev_interruption_point] /\
  map (fun ind => map Qred (cur_x ind)) (m_container (m_pop (isl m2))) =
    [[1 # 2]; [1]; [201 # 100]; [-4 # 5]; [-19 # 10]; [-2]; [-1 # 20]; [0]]%Q /\
  m_evo_time (isl m2) = 1%Z.
Proof. vm_compute. split_and!; reflexivity. Qed.

(** C8, as stated, fails where [std::size_t] has 32 bits: an island that has
    evolved for [2^32 - 1] milliseconds (about 49.7 days) and evolves for
    one more millisecond stores an evolution time of 0. *)
Lemma evolution_time_wraps :
  let m := machine_of (island_of bool true pop8 4294967295 None) 0%Z in
  let m' := (@perform bool idle_algorithm Z (ticking 1000) ilp32 0 (op_evolve 1) m).2 in
  m_evo_time (isl m) = 4294967295%Z /\ m_evo_time (isl m') = 0%Z /\
  ~ (m_evo_time (isl m) <= m_evo_time (isl m'))%Z.
Proof. vm_compute. split_and!; try reflexivity. intros H. apply H. reflexivity. Qed.

(** On a 64-bit platform the same island, started at 5 ms: the worker
    measures 1 ms and the island ends at 6 ms. *)
Lemma evolution_time_accumulates_witness :
  let m := machine_of (island_of bool true pop8 5 None) 0%Z in
  let m' := (@perform bool idle_algorithm Z (ticking 1000) lp64 0 (op_evolve 1) m).2 in
  (0 <= m_evo_time (isl m) < 2 ^ 64)%Z /\
  @elapsed_ms bool idle_algorithm Z (ticking 1000) lp64 0 (op_evolve 1) m = 1%Z /\
  m_evo_time (isl m') = ((5 + 1) mod 2 ^ 64)%Z /\
  (5 <= m_evo_time (isl m'))%Z /\
  m_evo_time (isl m') = 6%Z.
Proof.
  intros m m'.
  assert (0 <= m_evo_time (isl m) < 2 ^ size_t_bits (Platform := lp64))%Z as Hr
    by (cbn; lia).
  destruct (@evolution_time_accumulates bool idle_algorithm Z (ticking 1000) lp64
              0 (op_evolve 1) m Hr) as (_ & _ & Hadd & Hmono & _).
  split; [exact Hr|]. split; [reflexivity|]. split; [exact Hadd|].
  split; [apply Hmono; vm_compute; reflexivity | reflexivity].
Defined.

(** An island that is not blocking: after [evolve(2)] and [join] the worker
    has ended and the island is not busy, and [interrupt] throws all the
    same. *)
Lemma interrupt_throws_iff_handle_witness :
  let m := machine_of (island_of bool false pop8 0 None) 0%Z in
  let m1 := (@island_evolve bool idle_algorithm Z (ticking 1000) lp64 0 2 m).2 in
  let m2 := (@join bool idle_algorithm Z (ticking 1000) lp64 0 m1).2 in
  @interrupt bool Z (ticking 1000) m = (Ok tt, m) /\
  busy (isl m1) = true /\ busy (isl m2) = false /\
  evolve_calls (trace m2) = 2%nat /\
  exists msg m', @interrupt bool Z (ticking 1000) m2 = (Throw (runtime_error msg), m').
Proof.
  intros m m1 m2.
  destruct (@interrupt_throws_iff_handle bool idle_algorithm Z (ticking 1000) lp64
              corner_population m) as (_ & Hnone & _).
  destruct (@interrupt_throws_iff_handle bool idle_algorithm Z (ticking 1000) lp64
              corner_population m1) as (_ & _ & Hjoin & _).
  destruct (Hjoin 0%nat) as (_ & Hafter).
  split; [apply Hnone; reflexivity|].
  split; [reflexivity|]. split; [reflexivity|]. split; [reflexivity|].
  apply Hafter; [vm_compute; discriminate | reflexivity].
Defined.

(** * Further properties *)

(** ** The algorithm beyond the claims *)

Section de_self_adaptive_more.

Context {rng_uint32 rng_double : Type} {RS : RandomSource rng_uint32 rng_double}.
Context {PR : PopulationRanking} {Pf : Platform}.
Context (Hlaws : RandomSourceLaws RS).

Local Abbreviation de_self_adaptive := (de_self_adaptive rng_uint32 rng_double).
Local Abbreviation evolve_state := (evolve_state rng_uint32 rng_double).

(** *** The constructor *)

(** X1. The constructor accepts its arguments exactly when the number of
    generations is not negative, the variant is one of 1 to 18 and the
    adaptation scheme is 0 or 1; what it throws otherwise is a value error.
    The algorithm it makes has the members it was given and empty vectors F
    and CR, so its first call of [evolve] on a population that passes the
    checks finds them of the wrong length and draws them. *)
Theorem make_de_self_adaptive_accepts_iff (gen variant variant_adptv : Z)
    (ftol xtol : Q) (restart : bool) (drng : rng_double) (urng : rng_uint32) :
  let made :=
    make_de_self_adaptive gen variant variant_adptv ftol xtol restart drng urng in
  (((0 <= gen)%Z /\ (1 <= variant <= 18)%Z /\ (0 <= variant_adptv <= 1)%Z) <->
     exists a, made = Ok a) /\
  (forall e, made = Throw e -> exists msg, e = value_error msg) /\
  made <> Diverge /\
  (forall a, made = Ok a ->
     a = {| m_gen := gen; m_f := []; m_cr := []; m_variant := variant;
            m_variant_adptv := variant_adptv; m_ftol := ftol; m_xtol := xtol;
            m_restart := restart; m_drng := drng; m_urng := urng |} /\
     forall p, evolve_checks p = Ok tt -> needs_init a (pop_size p) = true).
Proof.
  unfold make_de_self_adaptive.
  destruct (Z.ltb_spec gen 0); cbn [orb];
    [split_and!; [split; [lia | intros [a [=]]] | intros e [= <-]; eauto
                 | discriminate | discriminate]|].
  destruct (Z.ltb_spec variant 1); cbn [orb];
    [split_and!; [split; [lia | intros [a [=]]] | intros e [= <-]; eauto
                 | discriminate | discriminate]|].
  destruct (Z.ltb_spec 18 variant); cbn [orb];
    [split_and!; [split; [lia | intros [a [=]]] | intros e [= <-]; eauto
                 | discriminate | discriminate]|].
  destruct (Z.ltb_spec variant_adptv 0); cbn [orb];
    [split_and!; [split; [lia | intros [a [=]]] | intros e [= <-]; eauto
                 | discriminate | discriminate]|].
  destruct (Z.ltb_spec 1 variant_adptv); cbn [orb];
    [split_and!; [split; [lia | intros [a [=]]] | intros e [= <-]; eauto
                 | discriminate | discriminate]|].
  split_and!.
  - split; [eauto | intros _; lia].
  - discriminate.
  - discriminate.
  - intros a [= <-]. split; [reflexivity|].
    intros p Hp. apply evolve_checks_Ok in Hp as (_ & _ & _ & Hsize).
    unfold needs_init. cbn [m_cr m_f length].
    destruct (Nat.eqb_spec 0 (pop_size p)); [lia | reflexivity].
Qed.

(** *** The indices *)

Lemma pick_index_spec (fuel NP : nat) (excl : list nat) (g g' : rng_uint32) (r : nat) :
  pick_index fuel NP excl g = Ok (r, g') -> (r ∉ excl) /\ (r <= NP - 1)%nat.
Proof.
  revert g; induction fuel as [|fuel IH]; intros g; cbn [pick_index]; [discriminate|].
  pose proof (uniform_int_range 0 (NP - 1) g (Nat.le_0_l _)) as Hrange.
  destruct (uniform_int 0 (NP - 1) g) as [x g1]. cbn in Hrange.
  destruct (existsb (Nat.eqb x) excl) eqn:E; [apply IH|].
  intros [= -> ->]. split; [|lia].
  intros Hin. apply list_elem_of_In in Hin.
  assert (existsb (Nat.eqb r) excl = true) as Ht
    by (apply existsb_exists; exists r; split; [exact Hin | apply Nat.eqb_refl]).
  congruence.
Qed.

Lemma pick_indices_spec (fuel NP i : nat) (g g' : rng_uint32) (r : indices) :
  pick_indices fuel NP i g = Ok (r, g') ->
  NoDup (index_list i r) /\
  Forall (fun k => (k <= NP - 1)%nat) [r1 r; r2 r; r3 r; r4 r; r5 r; r6 r; r7 r].
Proof.
  unfold pick_indices. intros H.
  repeat (let E := fresh "E" in
          apply bind_Ok_inv in H as ([? ?] & E & H);
          apply pick_index_spec in E as [? ?]).
  injection H as <- <-. unfold index_list. cbn.
  split; [|repeat constructor; assumption].
  repeat match goal with
         | Hn : _ ∉ _ |- _ => rewrite ?not_elem_of_cons in Hn
         end.
  repeat match goal with
         | Hc : _ /\ _ |- _ => destruct Hc
         end.
  repeat (apply NoDup_cons; split;
          [rewrite ?not_elem_of_cons; repeat split; try congruence; apply not_elem_of_nil|]).
  apply NoDup_nil_2.
Qed.

(** X2. What [pick_indices] returns: the seven indices are different from
    one another and from [i], and each of them is an index of the
    population. *)
Theorem pick_indices_distinct_in_range (fuel NP i : nat) (g g' : rng_uint32)
    (r : indices) :
  (1 <= NP)%nat ->
  pick_indices fuel NP i g = Ok (r, g') ->
  NoDup (index_list i r) /\
  Forall (fun k => (k < NP)%nat) [r1 r; r2 r; r3 r; r4 r; r5 r; r6 r; r7 r].
Proof.
  intros HNP H. destruct (pick_indices_spec _ _ _ _ _ _ H) as [Hnd Hr].
  split; [exact Hnd|]. eapply Forall_impl; [exact Hr|]. cbn. intros k Hk. lia.
Qed.

(** Eight different numbers below NP need NP >= 8. *)
Lemma NoDup_below (l : list nat) (NP : nat) :
  NoDup l -> Forall (fun k => (k < NP)%nat) l -> (length l <= NP)%nat.
Proof.
  intros Hnd Hall.
  assert (l ⊆+ seq 0 NP) as Hsub.
  { apply NoDup_submseteq; [exact Hnd|]. intros x Hx. apply elem_of_seq.
    rewrite Forall_forall in Hall. specialize (Hall x Hx). lia. }
  apply submseteq_length in Hsub. rewrite length_seq in Hsub. exact Hsub.
Qed.

(** X3. With fewer than 8 individuals the sampling of the indices never comes
    to an end, whatever the generator draws and however long it is left to
    run: the check of [evolve] on the size of the population is what keeps
    the loops of lines 148-179 from running for ever. *)
Theorem pick_indices_needs_eight (fuel NP i : nat) (g : rng_uint32) :
  (i < NP)%nat -> (NP < 8)%nat -> pick_indices fuel NP i g = Diverge.
Proof.
  intros Hi HNP. destruct (pick_indices fuel NP i g) as [[r g']| e |] eqn:E.
  - exfalso. destruct (pick_indices_spec _ _ _ _ _ _ E) as [Hnd Hr].
    assert (Forall (fun k => (k < NP)%nat) (index_list i r)) as Hall.
    { unfold index_list. constructor; [exact Hi|].
      eapply Forall_impl; [exact Hr|]. cbn. intros k Hk. lia. }
    pose proof (NoDup_below _ _ Hnd Hall) as Hlen. cbn in Hlen. lia.
  - exfalso. exact (pick_indices_no_throw _ _ _ _ _ E).
  - reflexivity.
Qed.

(** *** Which components the crossover changes *)

Lemma mod_add_inj (Dc n j1 j2 : nat) :
  (j1 < Dc)%nat -> (j2 < Dc)%nat ->
  ((n + j1) mod Dc = (n + j2) mod Dc)%nat -> j1 = j2.
Proof.
  intros H1 H2 Heq.
  pose proof (Nat.div_mod_eq (n + j1) Dc) as E1.
  pose proof (Nat.div_mod_eq (n + j2) Dc) as E2.
  rewrite Heq in E1.
  destruct (Nat.eq_dec ((n + j1) / Dc) ((n + j2) / Dc)) as [Eq | Ne];
    [rewrite Eq in E1; lia | nia].
Qed.

Lemma mod_add_succ (Dc n j : nat) :
  (((n + 1) mod Dc + j) mod Dc = (n + S j) mod Dc)%nat.
Proof. rewrite Nat.Div0.add_mod_idemp_l. f_equal. lia. Qed.

Lemma mod_add_onto (Dc n p : nat) :
  (n < Dc)%nat -> (p < Dc)%nat -> exists j, (j < Dc)%nat /\ ((n + j) mod Dc)%nat = p.
Proof.
  intros Hn Hp. destruct (le_lt_dec n p) as [Hle | Hlt].
  - exists (p - n)%nat. split; [lia|].
    replace (n + (p - n))%nat with p by lia. apply Nat.mod_small. exact Hp.
  - exists (p + Dc - n)%nat. split; [lia|].
    replace (n + (p + Dc - n))%nat with (p + 1 * Dc)%nat by lia.
    rewrite Nat.Div0.mod_add. apply Nat.mod_small. exact Hp.
Qed.

Lemma draw_list_Forall {G : Type} (draw : G -> Q * G) (P : Q -> Prop) (n : nat) (g : G) :
  (forall g0, P (draw g0).1) -> Forall P (draw_list draw n g).1.
Proof.
  intros HP. revert g; induction n as [|n IH]; intros g; cbn; [constructor|].
  specialize (HP g). destruct (draw g) as [x g1]. specialize (IH g1).
  destruct (draw_list draw n g1) as [xs g2]. cbn in *. constructor; assumption.
Qed.

(** The binomial loop visits the positions [n], [n+1], ... (modulo Dc) once
    each; the draw of a round decides whether its position is assigned. *)
Lemma bin_loop_components (Dc : nat) (CR : Q) (e : mutation) (k : nat) :
  reads_own_component e ->
  forall (t : decision_vector) (n L : nat) (g : rng_double),
    (n < Dc)%nat -> (L + k <= Dc)%nat -> (Dc <= length t)%nat ->
    let out := bin_loop k Dc CR e t n L g in
    let us := (draw_list next_double k g).1 in
    (forall j, (j < k)%nat ->
       out.1 !!! ((n + j) mod Dc)%nat =
       if Qltb (us !!! j) CR || (L + j + 1 =? Dc)%nat
       then e t ((n + j) mod Dc)%nat else t !!! ((n + j) mod Dc)%nat) /\
    (forall p, (forall j, (j < k)%nat -> p <> ((n + j) mod Dc)%nat) ->
       out.1 !!! p = t !!! p) /\
    out.2 = (draw_list next_double k g).2.
Proof.
  intros He. induction k as [|k IH]; intros t n L g Hn HL Hlen; cbn [bin_loop draw_list].
  - cbn. split_and!; [intros j Hj; lia | reflexivity | reflexivity].
  - destruct (next_double g) as [u g1].
    set (t1 := if Qltb u CR || (L + 1 =? Dc)%nat then <[n := e t n]> t else t).
    assert (length t1 = length t) as Hlen1
      by (subst t1; destruct (_ || _); [apply length_insert | reflexivity]).
    assert (forall p, p <> n -> t1 !!! p = t !!! p) as Hother.
    { intros p Hp. subst t1. destruct (_ || _); [|reflexivity].
      apply list_lookup_total_insert_ne. congruence. }
    assert (t1 !!! n = if Qltb u CR || (L + 1 =? Dc)%nat then e t n else t !!! n)
      as Hself.
    { subst t1. destruct (_ || _); [|reflexivity].
      apply list_lookup_total_insert_eq. lia. }
    destruct (IH t1 ((n + 1) mod Dc)%nat (L + 1)%nat g1) as (Hset & Hkeep & Hgen);
      [apply Nat.mod_upper_bound; lia | lia | lia|].
    destruct (draw_list next_double k g1) as [us g2]. cbn [fst snd] in *.
    assert (forall j, (j < k)%nat -> ((n + 1) mod Dc + j) mod Dc <> n)%nat as Hne.
    { intros j Hj Heq. rewrite mod_add_succ in Heq.
      rewrite <- (Nat.mod_small n Dc) in Heq at 2 by exact Hn.
      rewrite <- (Nat.add_0_r n) in Heq at 2.
      apply mod_add_inj in Heq; lia. }
    split_and!.
    + intros [|j] Hj.
      * rewrite Nat.add_0_r, (Nat.mod_small n Dc) by exact Hn.
        rewrite Hkeep by (intros j Hj' Heq; exact (Hne j Hj' (eq_sym Heq))).
        rewrite Hself. cbn. rewrite Nat.add_0_r. reflexivity.
      * rewrite <- mod_add_succ. rewrite Hset by lia.
        rewrite Hother by (apply Hne; lia).
        rewrite (He t1 t) by (apply Hother, Hne; lia).
        cbn. replace (L + 1 + j + 1)%nat with (L + S j + 1)%nat by lia. reflexivity.
    + intros p Hp. rewrite Hkeep.
      * apply Hother. specialize (Hp 0%nat ltac:(lia)).
        rewrite Nat.add_0_r, (Nat.mod_small n Dc) in Hp by exact Hn. exact Hp.
      * intros j Hj. rewrite mod_add_succ. apply Hp. lia.
    + exact Hgen.
Qed.

(** The exponential loop assigns the positions [n], [n+1], ... (modulo Dc)
    one after the other and stops at the first draw that is not below CR,
    or when Dc positions have been assigned. *)
Lemma exp_loop_run (Dc : nat) (CR : Q) (e : mutation) (fuel : nat) :
  reads_own_component e ->
  forall (t : decision_vector) (n L : nat) (g : rng_double),
    (n < Dc)%nat -> (L + fuel = Dc)%nat -> (0 < fuel)%nat -> (Dc <= length t)%nat ->
    let out := exp_loop fuel Dc CR e t n L g in
    let c := (out.1.2 - L)%nat in
    let us := (draw_list next_double fuel g).1 in
    (L < out.1.2 <= Dc)%nat /\
    (forall j, (j < c)%nat ->
       out.1.1 !!! ((n + j) mod Dc)%nat = e t ((n + j) mod Dc)%nat) /\
    (forall p, (forall j, (j < c)%nat -> p <> ((n + j) mod Dc)%nat) ->
       out.1.1 !!! p = t !!! p) /\
    (forall j, (j + 1 < c)%nat -> Qltb (us !!! j) CR = true) /\
    ((out.1.2 < Dc)%nat -> Qltb (us !!! (c - 1)%nat) CR = false).
Proof.
  intros He. induction fuel as [|fuel IH]; intros t n L g Hn HL Hfuel Hlen; [lia|].
  cbn [exp_loop draw_list]. destruct (next_double g) as [u g1].
  set (t1 := <[n := e t n]> t).
  assert (length t1 = length t) as Hlen1 by apply length_insert.
  assert (forall p, p <> n -> t1 !!! p = t !!! p) as Hother
    by (intros p Hp; apply list_lookup_total_insert_ne; congruence).
  assert (t1 !!! n = e t n) as Hself by (apply list_lookup_total_insert_eq; lia).
  destruct (Qltb u CR && (L + 1 <? Dc)%nat) eqn:Hcond.
  - apply andb_true_iff in Hcond as [Hu HLt]. apply Nat.ltb_lt in HLt.
    destruct (IH t1 ((n + 1) mod Dc)%nat (L + 1)%nat g1)
      as (Hcount & Hset & Hkeep & Hdraws & Hstop);
      [apply Nat.mod_upper_bound; lia | lia | lia | lia|].
    destruct (draw_list next_double fuel g1) as [us g2].
    destruct (exp_loop fuel Dc CR e t1 ((n + 1) mod Dc)%nat (L + 1)%nat g1)
      as [[t2 L2] g3].
    cbn [fst snd] in *.
    assert (forall j, (j < L2 - (L + 1))%nat -> ((n + 1) mod Dc + j) mod Dc <> n)%nat
      as Hne.
    { intros j Hj Heq. rewrite mod_add_succ in Heq.
      rewrite <- (Nat.mod_small n Dc) in Heq at 2 by exact Hn.
      rewrite <- (Nat.add_0_r n) in Heq at 2.
      apply mod_add_inj in Heq; lia. }
    split; [lia|]. split; [|split; [|split]].
    + intros [|j] Hj.
      * rewrite Nat.add_0_r, (Nat.mod_small n Dc) by exact Hn.
        rewrite Hkeep by (intros j Hj' Heq; exact (Hne j Hj' (eq_sym Heq))).
        exact Hself.
      * rewrite <- mod_add_succ. rewrite Hset by lia.
        apply He, Hother, Hne. lia.
    + intros p Hp. rewrite Hkeep.
      * apply Hother. specialize (Hp 0%nat ltac:(lia)).
        rewrite Nat.add_0_r, (Nat.mod_small n Dc) in Hp by exact Hn. exact Hp.
      * intros j Hj. rewrite mod_add_succ. apply Hp. lia.
    + intros [|j] Hj; [exact Hu|]. cbn. apply Hdraws. lia.
    + intros Hlt. specialize (Hstop Hlt).
      replace (L2 - L - 1)%nat with (S (L2 - (L + 1) - 1)) by lia. exact Hstop.
  - destruct (draw_list next_double fuel g1) as [us g2]. cbn [fst snd].
    replace (L + 1 - L)%nat with 1%nat by lia.
    split; [lia|]. split; [|split; [|split]].
    + intros j Hj. replace j with 0%nat by lia.
      rewrite Nat.add_0_r, (Nat.mod_small n Dc) by exact Hn. exact Hself.
    + intros p Hp. apply Hother. specialize (Hp 0%nat ltac:(lia)).
      rewrite Nat.add_0_r, (Nat.mod_small n Dc) in Hp by exact Hn. exact Hp.
    + intros j Hj. lia.
    + intros Hlt. apply Nat.ltb_lt in Hlt. rewrite Hlt, andb_true_r in Hcond.
      exact Hcond.
Qed.

(** Every variant reads of the trial at most the component it assigns. *)
Lemma mutation_of_reads_own_component (F : Q) (popold : list decision_vector)
    (gbIter : decision_vector) (i : nat) (r : indices) (variant : Z) :
  reads_own_component (mutation_of F popold gbIter i r variant).
Proof.
  intros t t' n Heq. unfold mutation_of.
  repeat match goal with
         | |- context [match ?v with _ => _ end] => destruct v
         end;
    try reflexivity; try exact Heq;
    unfold de_rand_to_best_1; rewrite Heq; reflexivity.
Qed.

(** X4. The binomial crossover of the variants 6, 7, 8, 9, 10, 12, 14, 16
    and 18.  Starting from [popold[i]] it visits the Dc positions [n],
    [n+1], ... (modulo Dc) once each, with one draw per position: the
    position receives the mutation of the variant when the draw is below CR
    or the round is the last one, and keeps the component of [popold[i]]
    otherwise.  So the last position visited is always changed, the
    components from Dc on never are, CR >= 1 replaces the whole continuous
    part and CR <= 0 replaces the last position only. *)
Theorem binomial_crossover_components (F : Q) (popold : list decision_vector)
    (gbIter : decision_vector) (i : nat) (r : indices) (variant : Z) (Dc : nat)
    (CR : Q) (tmp0 : decision_vector) (drng : rng_double) (urng : rng_uint32) :
  variant ∈ [6; 7; 8; 9; 10; 12; 14; 16; 18]%Z ->
  (0 < Dc)%nat -> (Dc <= length (popold !!! i))%nat ->
  let e := mutation_of F popold gbIter i r variant in
  let x := popold !!! i in
  let n := (uniform_int 0 (Dc - 1) urng).1 in
  let us := (draw_list next_double Dc drng).1 in
  let out := build_trial F popold gbIter i r variant Dc CR (tmp0, drng, urng) in
  let t := out.1.1 in
  (n < Dc)%nat /\ length t = length x /\
  out.1.2 = (draw_list next_double Dc drng).2 /\
  out.2 = (uniform_int 0 (Dc - 1) urng).2 /\
  (forall j, (j < Dc)%nat ->
     t !!! ((n + j) mod Dc)%nat =
     if Qltb (us !!! j) CR || (j + 1 =? Dc)%nat
     then e x ((n + j) mod Dc)%nat else x !!! ((n + j) mod Dc)%nat) /\
  t !!! ((n + (Dc - 1)) mod Dc)%nat = e x ((n + (Dc - 1)) mod Dc)%nat /\
  (forall p, (Dc <= p)%nat -> t !!! p = x !!! p) /\
  ((1 <= CR)%Q -> forall p, (p < Dc)%nat -> t !!! p = e x p) /\
  ((CR <= 0)%Q -> forall j, (j + 1 < Dc)%nat ->
     t !!! ((n + j) mod Dc)%nat = x !!! ((n + j) mod Dc)%nat).
Proof.
  intros Hin HDc Hlen e x n us out t.
  assert (n < Dc)%nat as Hn.
  { pose proof (uniform_int_range 0 (Dc - 1) urng (Nat.le_0_l _)). subst n. lia. }
  assert (Forall (fun u => (0 <= u)%Q /\ (u < 1)%Q) us) as Hus
    by (apply draw_list_Forall, next_double_range).
  assert (length us = Dc) as Hlus by apply draw_list_length.
  subst out t. rewrite (build_trial_binomial _ _ _ _ _ _ _ _ _ Hin).
  fold e x. unfold bin_crossover. fold n.
  destruct (uniform_int 0 (Dc - 1) urng) as [n0 urng'] eqn:Hdraw. cbn [fst snd] in *.
  subst n.
  destruct (bin_loop_components Dc CR e Dc (mutation_of_reads_own_component _ _ _ _ _ _)
              x n0 0 drng Hn ltac:(lia) Hlen) as (Hset & Hkeep & Hgen).
  pose proof (bin_loop_length Dc CR e Dc x n0 0 drng) as Hl.
  fold us in Hset. cbn [Nat.add] in Hset.
  destruct (bin_loop Dc Dc CR e x n0 0 drng) as [t g']. cbn [fst snd] in *.
  assert (forall j, (j < Dc)%nat -> (0 <= us !!! j)%Q /\ (us !!! j < 1)%Q) as Hrange.
  { intros j Hj. apply (Forall_lookup_total_1 _ _ _ Hus). lia. }
  split; [exact Hn|]. split; [exact Hl|]. split; [exact Hgen|]. split; [reflexivity|].
  split; [exact Hset|]. split_and!.
  - rewrite Hset by lia.
    replace (Dc - 1 + 1 =? Dc)%nat with true by (symmetry; apply Nat.eqb_eq; lia).
    rewrite orb_true_r. reflexivity.
  - intros p Hp. apply Hkeep. intros j Hj Heq.
    pose proof (Nat.mod_upper_bound (n0 + j) Dc ltac:(lia)). lia.
  - intros HCR p Hp. destruct (mod_add_onto Dc n0 p Hn Hp) as (j & Hj & <-).
    rewrite Hset by exact Hj.
    assert (Qltb (us !!! j) CR = true) as ->
      by (apply Qltb_lt; destruct (Hrange j Hj); lra).
    reflexivity.
  - intros HCR j Hj. rewrite Hset by lia.
    assert (Qltb (us !!! j) CR = false) as ->
      by (apply Qltb_ge; destruct (Hrange j ltac:(lia)); lra).
    replace (j + 1 =? Dc)%nat with false by (symmetry; apply Nat.eqb_neq; lia).
    reflexivity.
Qed.

(** X5. The exponential crossover of the variants 1, 2, 3, 4, 5, 11, 13, 15
    and 17.  Starting from [popold[i]] it assigns the mutation of the
    variant to a run of L positions [n], [n+1], ... (modulo Dc) and leaves
    every other component alone, with 1 <= L <= Dc.  The run goes on while
    the draws are below CR: the draws after each of the first L - 1
    assignments are below CR, and when L < Dc the draw after the last one is
    not.  With CR >= 1 the whole continuous part is replaced. *)
Theorem exponential_crossover_run (F : Q) (popold : list decision_vector)
    (gbIter : decision_vector) (i : nat) (r : indices) (variant : Z) (Dc : nat)
    (CR : Q) (tmp0 : decision_vector) (drng : rng_double) (urng : rng_uint32) :
  variant ∈ exponential_variants ->
  (0 < Dc)%nat -> (Dc <= length (popold !!! i))%nat ->
  let e := mutation_of F popold gbIter i r variant in
  let x := popold !!! i in
  let n := (uniform_int 0 (Dc - 1) urng).1 in
  let us := (draw_list next_double Dc drng).1 in
  let L := (exp_loop Dc Dc CR e x n 0 drng).1.2 in
  let t := (build_trial F popold gbIter i r variant Dc CR (tmp0, drng, urng)).1.1 in
  (n < Dc)%nat /\ (1 <= L)%nat /\ (L <= Dc)%nat /\
  (forall j, (j < L)%nat -> t !!! ((n + j) mod Dc)%nat = e x ((n + j) mod Dc)%nat) /\
  (forall p, (forall j, (j < L)%nat -> p <> ((n + j) mod Dc)%nat) ->
     t !!! p = x !!! p) /\
  (forall p, (Dc <= p)%nat -> t !!! p = x !!! p) /\
  (forall j, (j + 1 < L)%nat -> (us !!! j < CR)%Q) /\
  ((L < Dc)%nat -> (CR <= us !!! (L - 1)%nat)%Q) /\
  ((1 <= CR)%Q -> L = Dc /\ forall p, (p < Dc)%nat -> t !!! p = e x p).
Proof.
  intros Hin HDc Hlen e x n us L t.
  assert (n < Dc)%nat as Hn.
  { pose proof (uniform_int_range 0 (Dc - 1) urng (Nat.le_0_l _)). subst n. lia. }
  assert (Forall (fun u => (0 <= u)%Q /\ (u < 1)%Q) us) as Hus
    by (apply draw_list_Forall, next_double_range).
  assert (length us = Dc) as Hlus by apply draw_list_length.
  subst t. rewrite (build_trial_exponential _ _ _ _ _ _ _ _ _ Hin).
  fold e x. unfold exp_crossover. fold n.
  destruct (uniform_int 0 (Dc - 1) urng) as [n0 urng'] eqn:Hdraw. cbn [fst snd] in *.
  subst n L.
  destruct (exp_loop_run Dc CR e Dc (mutation_of_reads_own_component _ _ _ _ _ _)
              x n0 0 drng Hn ltac:(lia) HDc Hlen)
    as (Hcount & Hset & Hkeep & Hdraws & Hstop).
  fold us in Hdraws, Hstop.
  destruct (exp_loop Dc Dc CR e x n0 0 drng) as [[t L] g']. cbn [fst snd] in *.
  rewrite Nat.sub_0_r in *.
  assert ((1 <= CR)%Q -> L = Dc) as Hall.
  { intros HCR. destruct (Nat.lt_ge_cases L Dc) as [Hlt | Hge]; [|lia].
    specialize (Hstop Hlt). apply Qltb_ge in Hstop.
    destruct (Forall_lookup_total_1 _ _ (L - 1)%nat Hus ltac:(lia)). lra. }
  split; [exact Hn|]. split; [lia|]. split; [lia|]. split; [exact Hset|].
  split; [exact Hkeep|]. split_and!.
  - intros p Hp. apply Hkeep. intros j Hj Heq.
    pose proof (Nat.mod_upper_bound (n0 + j) Dc ltac:(lia)). lia.
  - intros j Hj. apply Qltb_lt, Hdraws, Hj.
  - intros Hlt. apply Qltb_ge, Hstop, Hlt.
  - intros HCR. split; [exact (Hall HCR)|].
    intros p Hp. destruct (mod_add_onto Dc n0 p Hn Hp) as (j & Hj & <-).
    apply Hset. rewrite (Hall HCR). exact Hj.
Qed.

(** *** One step of the loop through the deme, case by case *)

Lemma store_container (p : population) (i : nat) (x v : decision_vector) :
  (i < pop_size p)%nat ->
  exists bx bf,
    m_container (set_v (set_x p i x) i v) =
    <[i := {| cur_x := x; cur_v := v; cur_f := objfun (pop_problem p) x;
              best_x := bx; best_f := bf |}]> (m_container p).
Proof.
  intros Hi. unfold pop_size in Hi.
  destruct (lookup_lt_is_Some_2 _ _ Hi) as [ind Hind].
  unfold set_v, set_x. rewrite Hind, !update_champion_container. cbn.
  rewrite list_lookup_insert_eq by exact Hi. cbn.
  rewrite list_insert_insert_eq. eauto.
Qed.

Lemma make_trial_parts (fuel NP i : nat) (st : evolve_state) (t : decision_vector)
    (F CR : Q) (g : rng_double) (u : rng_uint32) :
  make_trial fuel NP i st = Ok (t, F, CR, g, u) ->
  exists (r : indices) (u0 : rng_uint32),
    pick_indices fuel NP i (m_urng (algo st)) = Ok (r, u0) /\
    let a := algo st in
    let prob := pop_problem (pop st) in
    let fd := adapt (m_variant_adptv a) (m_f a) 0.1 1.0 i r (m_drng a) in
    let cd := adapt (m_variant_adptv a) (m_cr a) 0.0 1.0 i r fd.2 in
    let b := build_trial fd.1 (popold st) (gbIter st) i r (m_variant a) (Dc_of prob)
               cd.1 (tmp st, cd.2, u0) in
    F = fd.1 /\ CR = cd.1 /\ t = (repair prob b.1.1 b.1.2).1.
Proof.
  unfold make_trial. intros H.
  apply bind_Ok_inv in H as ([r u0] & Hpick & H). exists r, u0.
  split; [exact Hpick|]. cbn zeta.
  destruct (adapt _ (m_f _) _ _ _ _ _) as [F0 g0]. cbn [fst snd].
  destruct (adapt _ (m_cr _) _ _ _ _ _) as [CR0 g1]. cbn [fst snd].
  destruct (build_trial _ _ _ _ _ _ _ _ _) as [[t1 g2] u1]. cbn [fst snd].
  destruct (repair _ _ _) as [t2 g3]. injection H as <- <- <- <- <-. auto.
Qed.

(** What a step does to the state: the parameters of the algorithm, the old
    rows and [gbIter] stay; an accepted trial goes to [popnew], [fit], the
    population and the vectors F and CR, a rejected one copies the old row. *)
Lemma individual_step_effect (fuel NP i : nat) (st st' : evolve_state) :
  individual_step fuel NP i st = Ok st' ->
  exists t F CR g u,
    make_trial fuel NP i st = Ok (t, F, CR, g, u) /\
    popold st' = popold st /\ gbIter st' = gbIter st /\
    (m_gen (algo st') = m_gen (algo st) /\ m_variant (algo st') = m_variant (algo st) /\
     m_variant_adptv (algo st') = m_variant_adptv (algo st) /\
     m_ftol (algo st') = m_ftol (algo st) /\ m_xtol (algo st') = m_xtol (algo st) /\
     m_restart (algo st') = m_restart (algo st)) /\
    let prob := pop_problem (pop st) in
    ((compare_fitness prob (objfun prob t) (fit st !!! i) = true /\
      m_f (algo st') = <[i := F]> (m_f (algo st)) /\
      m_cr (algo st') = <[i := CR]> (m_cr (algo st)) /\
      pop st' = set_v (set_x (pop st) i (<[i := t]> (popnew st) !!! i)) i
                  (transform_minus t (cur_x (get_individual (pop st) i))) /\
      popnew st' = <[i := t]> (popnew st) /\
      fit st' = <[i := objfun prob t]> (fit st)) \/
     (compare_fitness prob (objfun prob t) (fit st !!! i) = false /\
      m_f (algo st') = m_f (algo st) /\ m_cr (algo st') = m_cr (algo st) /\
      pop st' = pop st /\
      popnew st' = <[i := popold st !!! i]> (popnew st) /\
      fit st' = fit st)).
Proof.
  unfold individual_step. intros H.
  apply bind_Ok_inv in H as ([[[[t F] CR] g] u] & Hmk & H). injection H as <-.
  exists t, F, CR, g, u. split; [exact Hmk|].
  unfold selection. cbn [pop fit algo popnew popold gbIter gbfit gbX with_algo].
  destruct (compare_fitness _ _ (fit st !!! i)) eqn:Hacc.
  - destruct (compare_fitness _ _ (gbfit st)); cbn;
      (split_and!; try reflexivity; left; split_and!; reflexivity).
  - cbn. split_and!; try reflexivity. right. split_and!; reflexivity.
Qed.

(** *** Lifting a property of the steps to the whole run *)

Lemma deme_loop_preserves (J : nat -> evolve_state -> Prop) (fuel NP : nat) :
  (forall i st st', (i < NP)%nat -> J i st ->
     individual_step fuel NP i st = Ok st' -> J (i + 1)%nat st') ->
  forall k i st st', (i + k <= NP)%nat -> J i st ->
    deme_loop fuel NP k i st = Ok st' -> J (i + k)%nat st'.
Proof.
  intros Hstep. induction k as [|k IH]; intros i st st' Hik HJ H; cbn [deme_loop] in H.
  - injection H as <-. rewrite Nat.add_0_r. exact HJ.
  - apply bind_Ok_inv in H as (st1 & H1 & H).
    replace (i + S k)%nat with (i + 1 + k)%nat by lia.
    apply (IH (i + 1)%nat st1); [lia | | exact H].
    apply (Hstep i st); [lia | exact HJ | exact H1].
Qed.

Lemma gen_loop_preserves (I : evolve_state -> Prop) (J : nat -> evolve_state -> Prop)
    (fuel NP : nat) :
  (forall st, I st -> J 0%nat st) ->
  (forall i st st', (i < NP)%nat -> J i st ->
     individual_step fuel NP i st = Ok st' -> J (i + 1)%nat st') ->
  (forall st, J NP st -> I (end_of_sweep st)) ->
  (forall st t, I st -> I (with_tmp st t)) ->
  forall k gen st st', I st -> gen_loop fuel NP k gen st = Ok st' -> I st'.
Proof.
  intros Hstart Hstep Hsweep Htmp.
  induction k as [|k IH]; intros gen st st' HI H; cbn [gen_loop] in H.
  - injection H as <-. exact HI.
  - apply bind_Ok_inv in H as (st1 & Hgen & H).
    unfold generation in Hgen. apply bind_Ok_inv in Hgen as (st2 & Hloop & Hgen).
    injection Hgen as <-.
    assert (I (end_of_sweep st2)) as HI2.
    { apply Hsweep.
      apply (deme_loop_preserves J fuel NP Hstep NP 0 st st2); [lia | auto | exact Hloop]. }
    destruct (exit_check_frame gen (end_of_sweep st2)) as (t & Heq & _).
    destruct (exit_check gen (end_of_sweep st2)) as [[] st3]; cbn in Heq; subst st3.
    + injection H as <-. apply Htmp. exact HI2.
    + apply (IH _ _ _ (Htmp _ t HI2) H).
Qed.

(** A call of [evolve] that returns has either run no generation or run the
    loop of the generations from the initial state. *)
Lemma evolve_Ok_inv (fuel : nat) (a a' : de_self_adaptive) (p p' : population) :
  evolve fuel a p = Ok (a', p') ->
  evolve_checks p = Ok tt /\
  ((m_gen a = 0%Z /\ a' = a /\ p' = p) \/
   (m_gen a <> 0%Z /\ exists st,
      gen_loop fuel (pop_size p) (Z.to_nat (m_gen a)) 0 (initial_state a p) = Ok st /\
      a' = algo st /\ p' = pop st)).
Proof.
  unfold evolve. intros H. apply bind_Ok_inv in H as ([] & Hc & H).
  split; [exact Hc|].
  destruct (Z.eqb_spec (m_gen a) 0) as [Hz | Hnz].
  - injection H as <- <-. left. auto.
  - apply bind_Ok_inv in H as (st & Hloop & H). injection H as <- <-.
    right. split; [exact Hnz|]. exists st. auto.
Qed.

(** *** What a call of [evolve] leaves of the algorithm and the population *)

(** The members of the algorithm that [evolve] only reads. *)
Local Abbreviation same_parameters a b :=
  (m_gen a = m_gen b /\ m_variant a = m_variant b /\
   m_variant_adptv a = m_variant_adptv b /\ m_ftol a = m_ftol b /\
   m_xtol a = m_xtol b /\ m_restart a = m_restart b).

Lemma init_f_cr_parameters (a : de_self_adaptive) (NP : nat) :
  same_parameters (init_f_cr a NP) a.
Proof.
  unfold init_f_cr. destruct (needs_init a NP); [|split_and!; reflexivity].
  destruct (fill_loop _ _ _ _ _) as [cr g]. destruct (fill_loop _ _ _ _ _) as [f g'].
  split_and!; reflexivity.
Qed.

Lemma init_f_cr_lengths (a : de_self_adaptive) (NP : nat) :
  length (m_f (init_f_cr a NP)) = NP /\ length (m_cr (init_f_cr a NP)) = NP.
Proof.
  unfold init_f_cr. destruct (needs_init a NP) eqn:Hn.
  - rewrite fill_loop_draw_list by (rewrite resize_length; reflexivity).
    rewrite fill_loop_draw_list by (rewrite resize_length; reflexivity).
    cbn. split; apply draw_list_length.
  - unfold needs_init in Hn. rewrite !orb_false_iff, !negb_false_iff, !Nat.eqb_eq in Hn.
    destruct Hn as [[Hcr Hf] _]. auto.
Qed.

(** The parameters, the problem and the sizes through the generations. *)
Lemma gen_loop_frame (fuel NP : nat) (a0 : de_self_adaptive) (prob : problem)
    (k : nat) (gen : Z) (st st' : evolve_state) :
  let I := fun st : evolve_state =>
    same_parameters (algo st) a0 /\ pop_problem (pop st) = prob /\
    pop_size (pop st) = NP /\ length (m_f (algo st)) = NP /\
    length (m_cr (algo st)) = NP in
  I st -> gen_loop fuel NP k gen st = Ok st' -> I st'.
Proof.
  intros I. apply (gen_loop_preserves I (fun _ => I)); subst I; cbn beta.
  - auto.
  - clear st st'. intros i st st' Hi (Hpar & Hprob & Hsize & Hf & Hcr) Hstep.
    destruct (individual_step_effect _ _ _ _ _ Hstep)
      as (t & F & CR & g & u & _ & _ & _ & Hpar' & Hcase).
    cbn zeta in Hcase.
    assert (same_parameters (algo st') a0) as Hp'.
    { destruct Hpar' as (-> & -> & -> & -> & -> & ->). exact Hpar. }
    destruct Hcase as [(_ & Hf' & Hcr' & Hpop & _) | (_ & Hf' & Hcr' & Hpop & _)];
      rewrite Hf', Hcr', Hpop, ?length_insert, ?set_v_problem, ?set_x_problem,
        ?set_v_size, ?set_x_size; auto.
  - clear st st'. intros st H. exact H.
  - clear st st'. intros st t H. exact H.
Qed.

Lemma evolve_frame (fuel : nat) (a : de_self_adaptive) (p : population)
    (st : evolve_state) :
  gen_loop fuel (pop_size p) (Z.to_nat (m_gen a)) 0 (initial_state a p) = Ok st ->
  same_parameters (algo st) a /\ pop_problem (pop st) = pop_problem p /\
  pop_size (pop st) = pop_size p /\ length (m_f (algo st)) = pop_size p /\
  length (m_cr (algo st)) = pop_size p.
Proof.
  apply (gen_loop_frame fuel (pop_size p) a (pop_problem p)).
  cbn [initial_state algo pop].
  split; [apply init_f_cr_parameters|].
  split; [reflexivity|]. split; [reflexivity|]. apply init_f_cr_lengths.
Qed.

(** X6. Of the algorithm a call of [evolve] changes the vectors F and CR
    and the generators only: the number of generations, the variant, the
    adaptation scheme, both tolerances and the restart flag are as before.
    Of the population it keeps the problem and the number of individuals. *)
Theorem evolve_keeps_parameters_and_size (fuel : nat) (a a' : de_self_adaptive)
    (p p' : population) :
  evolve fuel a p = Ok (a', p') ->
  m_gen a' = m_gen a /\ m_variant a' = m_variant a /\
  m_variant_adptv a' = m_variant_adptv a /\ m_ftol a' = m_ftol a /\
  m_xtol a' = m_xtol a /\ m_restart a' = m_restart a /\
  pop_problem p' = pop_problem p /\ pop_size p' = pop_size p.
Proof.
  intros H. destruct (evolve_Ok_inv _ _ _ _ _ H)
    as (_ & [(_ & -> & ->) | (_ & st & Hloop & -> & ->)]).
  - split_and!; reflexivity.
  - destruct (evolve_frame _ _ _ _ Hloop)
      as ((H1 & H2 & H3 & H4 & H5 & H6) & Hprob & Hsize & _).
    split_and!; assumption.
Qed.

(** X7. After a call of [evolve] that has generations to run, F and CR have
    one entry per individual.  So a further call on the population it has
    left draws them afresh exactly when the restart flag is set; with the
    flag off that call starts its generations with the F and CR that this
    one has adapted. *)
Theorem evolve_remembers_adaptation (fuel : nat) (a a' : de_self_adaptive)
    (p p' : population) :
  evolve fuel a p = Ok (a', p') -> m_gen a <> 0%Z ->
  length (m_f a') = pop_size p /\ length (m_cr a') = pop_size p /\
  needs_init a' (pop_size p') = m_restart a /\
  (m_restart a = false -> algo (initial_state a' p') = a').
Proof.
  intros H Hgen. destruct (evolve_Ok_inv _ _ _ _ _ H)
    as (_ & [(Hz & _) | (_ & st & Hloop & -> & ->)]); [contradiction|].
  destruct (evolve_frame _ _ _ _ Hloop)
    as ((_ & _ & _ & _ & _ & Hr) & _ & Hsize & Hf & Hcr).
  assert (needs_init (algo st) (pop_size (pop st)) = m_restart a) as Hneeds.
  { unfold needs_init. rewrite Hsize, Hf, Hcr, Nat.eqb_refl. cbn. exact Hr. }
  split_and!; [exact Hf | exact Hcr | exact Hneeds|].
  intros Hoff. cbn [initial_state algo]. unfold init_f_cr.
  rewrite Hneeds, Hoff. reflexivity.
Qed.

(** *** Scheme 0 keeps F and CR where it draws them *)

Lemma adapt_scheme_0_range (v : list Q) (lo hi : Q) (i : nat) (r : indices)
    (g : rng_double) :
  (lo <= hi)%Q -> (i < length v)%nat ->
  Forall (fun x => (lo <= x)%Q /\ (x <= hi)%Q) v ->
  (lo <= (adapt 0 v lo hi i r g).1)%Q /\ ((adapt 0 v lo hi i r g).1 <= hi)%Q.
Proof.
  intros Hle Hi Hall. unfold adapt. cbn [Z.eqb negb].
  destruct (next_double g) as [u g1].
  destruct (Qltb u 0.9).
  - cbn. apply (Forall_lookup_total_1 _ _ _ Hall). exact Hi.
  - apply uniform_real_range. exact Hle.
Qed.

Lemma init_f_cr_scheme_0_range (a : de_self_adaptive) (NP : nat) :
  m_variant_adptv a = 0%Z ->
  (needs_init a NP = false ->
   Forall F_in_range (m_f a) /\ Forall CR_in_range (m_cr a)) ->
  Forall F_in_range (m_f (init_f_cr a NP)) /\
  Forall CR_in_range (m_cr (init_f_cr a NP)).
Proof.
  intros Hz Hold. unfold init_f_cr. destruct (needs_init a NP); [|auto].
  rewrite fill_loop_draw_list by (rewrite resize_length; reflexivity).
  rewrite fill_loop_draw_list by (rewrite resize_length; reflexivity).
  cbn. rewrite Hz. unfold f_init_draw, cr_init_draw. cbn [Z.eqb negb].
  split; apply draw_list_Forall; intros g0; apply uniform_real_range; lra.
Qed.

(** X8. Under the adaptation scheme 0 a call of [evolve] that has
    generations to run leaves every F in [0.1, 1] and every CR in [0, 1],
    whatever trials were accepted: the entries are drawn in these ranges,
    and an accepted trial stores either the entry it found or a fresh draw.
    Entries that the call does not draw afresh are supposed to be in range
    when it starts. *)
Theorem scheme_0_keeps_F_CR_in_range (fuel : nat) (a a' : de_self_adaptive)
    (p p' : population) :
  m_variant_adptv a = 0%Z -> m_gen a <> 0%Z ->
  (needs_init a (pop_size p) = false ->
   Forall F_in_range (m_f a) /\ Forall CR_in_range (m_cr a)) ->
  evolve fuel a p = Ok (a', p') ->
  Forall F_in_range (m_f a') /\ Forall CR_in_range (m_cr a').
Proof.
  intros Hz Hgen Hold H.
  destruct (evolve_Ok_inv _ _ _ _ _ H)
    as (_ & [(Hzero & _) | (_ & st & Hloop & -> & _)]); [contradiction|].
  set (NP := pop_size p) in *.
  set (I := fun st : evolve_state =>
         m_variant_adptv (algo st) = 0%Z /\
         (Forall F_in_range (m_f (algo st)) /\ Forall CR_in_range (m_cr (algo st))) /\
         length (m_f (algo st)) = NP /\ length (m_cr (algo st)) = NP).
  assert (I st) as (_ & Hres & _); [|exact Hres].
  refine (gen_loop_preserves I (fun _ => I) fuel NP _ _ _ _ (Z.to_nat (m_gen a)) 0%Z
            (initial_state a p) st _ Hloop); subst I; cbn beta.
  - auto.
  - clear -Hlaws. intros i st st' Hi (Hz & (Hf & Hcr) & Hlf & Hlcr) Hstep.
    destruct (individual_step_effect _ _ _ _ _ Hstep)
      as (t & F & CR & g & u & Hmk & _ & _ & (_ & _ & Hz' & _) & Hcase).
    destruct (make_trial_parts _ _ _ _ _ _ _ _ _ Hmk) as (r & u0 & _ & HF & HCR & _).
    rewrite Hz in HF, HCR.
    assert (F_in_range F) as HFr.
    { rewrite HF. apply adapt_scheme_0_range; [lra | lia | exact Hf]. }
    assert (CR_in_range CR) as HCRr.
    { rewrite HCR. apply adapt_scheme_0_range; [lra | lia | exact Hcr]. }
    cbn zeta in Hcase. rewrite Hz'.
    destruct Hcase as [(_ & Hf' & Hcr' & _) | (_ & Hf' & Hcr' & _)];
      rewrite Hf', Hcr', ?length_insert; split_and!; auto; apply Forall_insert; auto.
  - auto.
  - auto.
  - cbn [initial_state algo]. fold NP. split_and!.
    + rewrite (proj1 (proj2 (proj2 (init_f_cr_parameters a NP)))). exact Hz.
    + apply init_f_cr_scheme_0_range; assumption.
    + apply init_f_cr_scheme_0_range; assumption.
    + apply init_f_cr_lengths.
    + apply init_f_cr_lengths.
Qed.

(** *** The components that are not continuous *)

Lemma map_lookup_total {X Y : Type} `{Inhabited X, Inhabited Y} (f : X -> Y)
    (l : list X) (i : nat) :
  (i < length l)%nat -> map f l !!! i = f (l !!! i).
Proof. intros Hi. apply (list_lookup_total_fmap f l i Hi). Qed.

Lemma repair_loop_outside (lb ub : decision_vector) (k : nat) :
  forall (i2 : nat) (t : decision_vector) (g : rng_double) (j : nat),
    (j < i2 \/ i2 + k <= j)%nat -> (repair_loop lb ub k i2 t g).1 !!! j = t !!! j.
Proof.
  induction k as [|k IH]; intros i2 t g j Hj; cbn [repair_loop]; [reflexivity|].
  destruct (Qltb _ _ || Qltb _ _).
  - destruct (uniform_real _ _ g) as [x g']. rewrite IH by lia.
    apply list_lookup_total_insert_ne. lia.
  - apply IH. lia.
Qed.

(** A trial agrees with the old row of its individual from Dc on. *)
Lemma make_trial_integer_part (fuel NP i : nat) (st : evolve_state)
    (t : decision_vector) (F CR : Q) (g : rng_double) (u : rng_uint32) :
  (1 <= m_variant (algo st) <= 18)%Z -> Dc_of (pop_problem (pop st)) <> 0%nat ->
  make_trial fuel NP i st = Ok (t, F, CR, g, u) ->
  forall j, (Dc_of (pop_problem (pop st)) <= j)%nat ->
    t !!! j = (popold st !!! i) !!! j.
Proof.
  intros Hv HDc Hmk j Hj.
  destruct (make_trial_parts _ _ _ _ _ _ _ _ _ Hmk) as (r & u0 & _ & _ & _ & ->).
  unfold repair. rewrite repair_loop_outside by lia.
  apply (build_trial_frame Hlaws); [exact Hv | lia | exact Hj].
Qed.

Lemma store_get_individual (p : population) (i k : nat) (x v : decision_vector) :
  (i < pop_size p)%nat ->
  cur_x (get_individual (set_v (set_x p i x) i v) k) =
  if decide (k = i) then x else cur_x (get_individual p k).
Proof.
  intros Hi. destruct (store_container p i x v Hi) as (bx & bf & Hc).
  unfold get_individual. rewrite Hc. destruct (decide (k = i)) as [-> | Hne].
  - rewrite list_lookup_total_insert_eq by exact Hi. reflexivity.
  - rewrite list_lookup_total_insert_ne by congruence. reflexivity.
Qed.

(** X9. A call of [evolve] with one of the variants 1 to 18 changes the
    continuous part of the decision vectors only: from position Dc on, the
    current decision vector of every individual is after the call what it
    was before, whatever was accepted in between. *)
Theorem evolve_keeps_integer_part (fuel : nat) (a a' : de_self_adaptive)
    (p p' : population) :
  (1 <= m_variant a <= 18)%Z ->
  evolve fuel a p = Ok (a', p') ->
  forall i j, (i < pop_size p)%nat -> (Dc_of (pop_problem p) <= j)%nat ->
    cur_x (get_individual p' i) !!! j = cur_x (get_individual p i) !!! j.
Proof.
  intros Hv H.
  destruct (evolve_Ok_inv _ _ _ _ _ H)
    as (Hchecks & [(_ & _ & ->) | (_ & st & Hloop & _ & ->)]); [reflexivity|].
  apply evolve_checks_Ok in Hchecks as (HDc & _).
  set (NP := pop_size p) in *. set (prob := pop_problem p) in *.
  set (x0 := fun i => cur_x (get_individual p i)).
  set (I := fun st : evolve_state =>
         m_variant (algo st) = m_variant a /\ pop_problem (pop st) = prob /\
         pop_size (pop st) = NP /\ length (popold st) = NP /\
         length (popnew st) = NP /\
         forall i j, (i < NP)%nat -> (Dc_of prob <= j)%nat ->
           (popold st !!! i) !!! j = x0 i !!! j /\
           (popnew st !!! i) !!! j = x0 i !!! j /\
           cur_x (get_individual (pop st) i) !!! j = x0 i !!! j).
  assert (I st) as (_ & _ & _ & _ & _ & Hres).
  2: { intros i j Hi Hj. apply (Hres i j Hi Hj). }
  refine (gen_loop_preserves I (fun _ => I) fuel NP _ _ _ _ (Z.to_nat (m_gen a)) 0%Z
            (initial_state a p) st _ Hloop); subst I; cbn beta.
  - auto.
  - clear -Hlaws Hv HDc. intros i st st' Hi (Hvar & Hprob & Hsize & Hlo & Hln & Hint) Hstep.
    destruct (individual_step_effect _ _ _ _ _ Hstep)
      as (t & F & CR & g & u & Hmk & Hold & _ & (_ & Hvar' & _) & Hcase).
    assert (forall j, (Dc_of prob <= j)%nat -> t !!! j = x0 i !!! j) as Ht.
    { intros j Hj.
      rewrite (make_trial_integer_part _ _ _ _ _ _ _ _ _
                 ltac:(rewrite Hvar; exact Hv) ltac:(rewrite Hprob; exact HDc) Hmk j
                 ltac:(rewrite Hprob; exact Hj)).
      apply Hint; assumption. }
    cbn zeta in Hcase. rewrite Hvar', Hold.
    destruct Hcase as [(_ & _ & _ & Hpop & Hnew & _) | (_ & _ & _ & Hpop & Hnew & _)];
      rewrite Hpop, Hnew, ?set_v_problem, ?set_x_problem, ?set_v_size, ?set_x_size,
        ?length_insert.
    + rewrite (list_lookup_total_insert_eq (popnew st) i t) by lia.
      split_and!; try assumption.
      intros k j Hk Hj. destruct (Hint k j Hk Hj) as (Ho & Hn & Hc).
      rewrite store_get_individual by lia.
      destruct (decide (k = i)) as [-> | Hne].
      * rewrite list_lookup_total_insert_eq by lia. rewrite (Ht j Hj). auto.
      * rewrite list_lookup_total_insert_ne by congruence. auto.
    + split_and!; try assumption.
      intros k j Hk Hj. destruct (Hint k j Hk Hj) as (Ho & Hn & Hc).
      destruct (decide (k = i)) as [-> | Hne].
      * rewrite list_lookup_total_insert_eq by lia. auto.
      * rewrite list_lookup_total_insert_ne by congruence. auto.
  - clear. intros st (Hvar & Hprob & Hsize & Hlo & Hln & Hint). cbn.
    split_and!; try assumption.
    intros i j Hi Hj. destruct (Hint i j Hi Hj) as (Ho & Hn & Hc). auto.
  - clear. intros st t H. exact H.
  - cbn [initial_state algo pop popold popnew].
    rewrite !length_map.
    split_and!; try reflexivity.
    + apply init_f_cr_parameters.
    + intros i j Hi Hj. subst x0. cbn beta. unfold get_individual.
      rewrite map_lookup_total by exact Hi. auto.
Qed.

(** *** The local copies and the population *)

Lemma store_cur_f (p : population) (i : nat) (x v : decision_vector) :
  (i < pop_size p)%nat ->
  map cur_f (m_container (set_v (set_x p i x) i v)) =
  <[i := objfun (pop_problem p) x]> (map cur_f (m_container p)).
Proof.
  intros Hi. destruct (store_container p i x v Hi) as (bx & bf & ->).
  change (map cur_f) with (fmap (M := list) cur_f).
  rewrite list_fmap_insert. reflexivity.
Qed.

(** X10. The vectors that [evolve] works on stay in step with the
    population.  When the generations start, and again after every
    generation, [popold] holds the current decision vector of every
    individual and [fit] its current fitness.  In the middle of a sweep
    [fit] still holds the current fitness of every individual, whatever has
    been accepted before.  So at every step of every sweep the trial of an
    individual is accepted exactly when it beats the fitness that the
    population has stored for the individual, and then becomes its current
    decision vector, with that fitness. *)
Theorem generations_mirror_population (fuel : nat) :
  (forall (a : de_self_adaptive) (p : population),
     mirrors_population (initial_state a p)) /\
  (forall (k : nat) (gen : Z) (st st' : evolve_state),
     mirrors_population st ->
     gen_loop fuel (pop_size (pop st)) k gen st = Ok st' ->
     mirrors_population st' /\ pop_size (pop st') = pop_size (pop st)) /\
  (forall (i : nat) (st st' : evolve_state),
     mirrors_population st -> (i <= pop_size (pop st))%nat ->
     deme_loop fuel (pop_size (pop st)) i 0 st = Ok st' ->
     mirrors_in_sweep i st' /\ pop_size (pop st') = pop_size (pop st)) /\
  (forall (i : nat) (st st' : evolve_state),
     mirrors_in_sweep i st -> (i < pop_size (pop st))%nat ->
     individual_step fuel (pop_size (pop st)) i st = Ok st' ->
     mirrors_in_sweep (i + 1) st' /\ pop_size (pop st') = pop_size (pop st) /\
     exists t F CR g u,
       make_trial fuel (pop_size (pop st)) i st = Ok (t, F, CR, g, u) /\
       let prob := pop_problem (pop st) in
       let better :=
         compare_fitness prob (objfun prob t) (cur_f (get_individual (pop st) i)) in
       cur_x (get_individual (pop st') i) =
         (if better then t else cur_x (get_individual (pop st) i)) /\
       cur_f (get_individual (pop st') i) =
         (if better then objfun prob t else cur_f (get_individual (pop st) i))) /\
  (forall (a : de_self_adaptive) (p : population) (k i : nat) (st_k st st' : evolve_state),
     gen_loop fuel (pop_size p) k 0 (initial_state a p) = Ok st_k ->
     (i < pop_size p)%nat ->
     deme_loop fuel (pop_size p) i 0 st_k = Ok st ->
     individual_step fuel (pop_size p) i st = Ok st' ->
     exists t F CR g u,
       make_trial fuel (pop_size p) i st = Ok (t, F, CR, g, u) /\
       let prob := pop_problem (pop st) in
       let better :=
         compare_fitness prob (objfun prob t) (cur_f (get_individual (pop st) i)) in
       cur_x (get_individual (pop st') i) =
         (if better then t else cur_x (get_individual (pop st) i)) /\
       cur_f (get_individual (pop st') i) =
         (if better then objfun prob t else cur_f (get_individual (pop st) i))).
Proof.
  assert (forall (a : de_self_adaptive) (p : population),
            mirrors_population (initial_state a p)) as Hinit.
  { intros a p. unfold mirrors_population, initial_state, pop_size. cbn.
    rewrite length_map. auto. }
  assert (forall (i : nat) (s s' : evolve_state),
            mirrors_in_sweep i s -> (i < pop_size (pop s))%nat ->
            individual_step fuel (pop_size (pop s)) i s = Ok s' ->
            mirrors_in_sweep (i + 1) s' /\ pop_size (pop s') = pop_size (pop s) /\
            exists t F CR g u,
              make_trial fuel (pop_size (pop s)) i s = Ok (t, F, CR, g, u) /\
              let prob := pop_problem (pop s) in
              let better :=
                compare_fitness prob (objfun prob t) (cur_f (get_individual (pop s) i)) in
              cur_x (get_individual (pop s') i) =
                (if better then t else cur_x (get_individual (pop s) i)) /\
              cur_f (get_individual (pop s') i) =
                (if better then objfun prob t else cur_f (get_individual (pop s) i)))
    as Hstep.
  { clear. intros i s s' (Hlo & Hln & Hfit & Hnew & Hold) Hi Hstep.
    destruct (individual_step_effect _ _ _ _ _ Hstep)
      as (t & F & CR & g & u & Hmk & Hold' & _ & _ & Hcase).
    cbn zeta in Hcase.
    assert (fit s !!! i = cur_f (get_individual (pop s) i)) as Hfi.
    { rewrite Hfit. apply map_lookup_total. exact Hi. }
    rewrite Hfi in Hcase. unfold mirrors_in_sweep. rewrite Hold'.
    destruct Hcase as [(Hb & _ & _ & Hpop & Hnew' & Hfit')
                      | (Hb & _ & _ & Hpop & Hnew' & Hfit')];
      rewrite Hpop, Hnew', Hfit', ?set_v_size, ?set_x_size, ?length_insert.
    - rewrite (list_lookup_total_insert_eq (popnew s) i t) by lia.
      split; [|split; [reflexivity|]].
      + split; [exact Hlo|]. split; [exact Hln|]. split; [|split].
        * rewrite store_cur_f by lia. rewrite Hfit. reflexivity.
        * intros j Hj. rewrite store_get_individual by lia.
          destruct (decide (j = i)) as [-> | Hne].
          -- apply list_lookup_total_insert_eq. lia.
          -- rewrite list_lookup_total_insert_ne by congruence. apply Hnew. lia.
        * intros j Hj. rewrite store_get_individual by lia.
          destruct (decide (j = i)) as [-> | Hne]; [lia|]. apply Hold. lia.
      + exists t, F, CR, g, u. split; [exact Hmk|]. cbn zeta. rewrite Hb.
        destruct (store_container (pop s) i t
                    (transform_minus t (cur_x (get_individual (pop s) i))) Hi)
          as (bx & bf & Hc).
        unfold get_individual at 1 3. rewrite Hc.
        rewrite list_lookup_total_insert_eq by exact Hi. auto.
    - split; [|split; [reflexivity|]].
      + split; [exact Hlo|]. split; [exact Hln|]. split; [exact Hfit|]. split.
        * intros j Hj. destruct (decide (j = i)) as [-> | Hne].
          -- rewrite list_lookup_total_insert_eq by lia. apply Hold. lia.
          -- rewrite list_lookup_total_insert_ne by congruence. apply Hnew. lia.
        * intros j Hj. apply Hold. lia.
      + exists t, F, CR, g, u. split; [exact Hmk|]. cbn zeta. rewrite Hb. auto. }
  assert (forall s : evolve_state, mirrors_population s -> mirrors_in_sweep 0 s) as Hstart.
  { clear. intros s (Hold & Hfit & Hlen).
    split; [rewrite Hold, length_map; reflexivity|]. split; [exact Hlen|].
    split; [exact Hfit|]. split; [intros j Hj; lia|].
    intros j Hj. rewrite Hold. unfold get_individual.
    apply map_lookup_total. unfold pop_size in Hj. lia. }
  assert (forall (i : nat) (s s' : evolve_state),
            mirrors_population s -> (i <= pop_size (pop s))%nat ->
            deme_loop fuel (pop_size (pop s)) i 0 s = Ok s' ->
            mirrors_in_sweep i s' /\ pop_size (pop s') = pop_size (pop s)) as Hsweep.
  { intros i s s' Hm Hi Hloop.
    set (NP := pop_size (pop s)) in *.
    apply (deme_loop_preserves
             (fun j x => mirrors_in_sweep j x /\ pop_size (pop x) = NP) fuel NP)
      with (k := i) (i := 0%nat) (st := s); [|lia | split; [auto | reflexivity] | exact Hloop].
    intros j x x' Hj [Hx Hsize] Hx'. rewrite <- Hsize in Hx', Hj.
    destruct (Hstep j x x' Hx Hj Hx') as (H1 & H2 & _).
    split; [exact H1 | congruence]. }
  assert (forall (k : nat) (gen : Z) (s s' : evolve_state),
            mirrors_population s ->
            gen_loop fuel (pop_size (pop s)) k gen s = Ok s' ->
            mirrors_population s' /\ pop_size (pop s') = pop_size (pop s)) as Hgens.
  { intros k gen s s' Hm Hloop.
    set (NP := pop_size (pop s)) in *.
    refine (gen_loop_preserves
              (fun x => mirrors_population x /\ pop_size (pop x) = NP)
              (fun j x => mirrors_in_sweep j x /\ pop_size (pop x) = NP)
              fuel NP _ _ _ _ k gen s s' _ Hloop); cbn beta.
    - intros x [Hx Hsize]. auto.
    - intros j x x' Hj [Hx Hsize] Hx'. rewrite <- Hsize in Hx', Hj.
      destruct (Hstep j x x' Hx Hj Hx') as (H1 & H2 & _).
      split; [exact H1 | congruence].
    - clear. intros x ((Hlo & Hln & Hfit & Hnew & _) & Hsize).
      split; [|exact Hsize].
      unfold mirrors_population. cbn. split_and!; [|exact Hfit | exact Hlo].
      apply (list_eq_same_length _ _ NP); [rewrite length_map; exact Hsize | lia|].
      intros j y z Hj Hy Hz.
      apply list_lookup_total_correct in Hy, Hz. subst y z.
      rewrite map_lookup_total by (unfold pop_size in Hsize; lia). apply Hnew. lia.
    - clear. intros x t H. exact H.
    - split; [exact Hm | reflexivity]. }
  split; [exact Hinit|]. split; [exact Hgens|]. split; [exact Hsweep|].
  split; [exact Hstep|].
  intros a p k i st_k st st' Hk Hi Hloop Hst.
  pose proof (Hinit a p) as H0.
  change (pop_size p) with (pop_size (pop (initial_state a p))) in Hk, Hi, Hloop, Hst.
  destruct (Hgens _ _ _ _ H0 Hk) as [Hmk Hsk].
  rewrite <- Hsk in Hi, Hloop, Hst.
  destruct (Hsweep i st_k st Hmk ltac:(lia) Hloop) as [Hmi Hsi].
  rewrite <- Hsi in Hi, Hst.
  destruct (Hstep i st st' Hmi Hi Hst) as (_ & _ & t & F & CR & g & u & Hmake & H).
  exists t, F, CR, g, u. rewrite Hsk, Hsi in *. auto.
Qed.

End de_self_adaptive_more.

(** ** The island beyond the claims *)

Section island_more.

Context {A : Type} {Alg : Algorithm A} {W : Type} {Env : Environment W}.
Context {Pf : Platform} {PC : PopulationConstructor}.

Local Abbreviation island := (island A).
Local Abbreviation machine := (machine A W).
Local Abbreviation run := (@run A W).


(** *** Counts that do not fit [std::size_t] *)

Lemma numeric_cast_size_t_Throw (n : Z) :
  ~ (0 <= n < 2 ^ size_t_bits)%Z -> numeric_cast_size_t n = Throw bad_numeric_cast.
Proof.
  intros H. unfold numeric_cast_size_t.
  destruct (Z.leb_spec 0 n); [|reflexivity].
  destruct (Z.ltb_spec n (2 ^ size_t_bits)); [lia | reflexivity].
Qed.

(** X12. [evolve(n)] and [evolve_t(t)] with a negative number (or one that
    does not fit [std::size_t]) fail in the conversion of the number, after
    the join: the error is that of [boost::numeric_cast], no thread is
    created and the algorithm is not called.  On an island that is not busy
    nothing changes at all. *)
Theorem evolve_rejects_negative_count (fuel : nat) (n : Z) (m : machine) :
  ~ (0 <= n < 2 ^ size_t_bits)%Z ->
  ((join fuel m).1 = Ok tt ->
   island_evolve fuel n m = (Throw bad_numeric_cast, (join fuel m).2) /\
   island_evolve_t fuel n m = (Throw bad_numeric_cast, (join fuel m).2)) /\
  (busy (isl m) = false ->
   island_evolve fuel n m = (Throw bad_numeric_cast, m) /\
   island_evolve_t fuel n m = (Throw bad_numeric_cast, m)).
Proof.
  intros Hn.
  assert ((join fuel m).1 = Ok tt ->
          island_evolve fuel n m = (Throw bad_numeric_cast, (join fuel m).2) /\
          island_evolve_t fuel n m = (Throw bad_numeric_cast, (join fuel m).2)) as Hgen.
  { intros Hj. unfold island_evolve, island_evolve_t, mbind, run_bind.
    destruct (join fuel m) as [r m1]. cbn in Hj. subst r.
    unfold lift_result. rewrite (numeric_cast_size_t_Throw n Hn). auto. }
  split; [exact Hgen|].
  intros Hidle. rewrite (join_idle fuel m Hidle) in Hgen. apply Hgen. reflexivity.
Qed.

(** *** Joining twice, and the accessors *)

(** X13. A second [join] does nothing: after a join that has returned the
    island is not busy, and joining an island that is not busy leaves
    island, surroundings and record as they are.  The same holds for the
    join inside every accessor, so that on such an island the accessors
    only read. *)
Theorem join_is_idempotent (fuel : nat) (m : machine) :
  (join fuel m).1 = Ok tt ->
  let m1 := (join fuel m).2 in
  busy (isl m1) = false /\
  join fuel m1 = (Ok tt, m1) /\
  get_population fuel m1 = (Ok (m_pop (isl m1)), m1) /\
  get_algorithm fuel m1 = (Ok (m_algo (isl m1)), m1) /\
  get_problem fuel m1 = (Ok (pop_problem (m_pop (isl m1))), m1) /\
  get_size fuel m1 = (Ok (pop_size (m_pop (isl m1))), m1) /\
  get_migration_probability fuel m1 = (Ok (m_migr_prob (isl m1)), m1) /\
  get_evolution_time fuel m1 = (Ok (m_evo_time (isl m1)), m1).
Proof.
  intros Hok m1.
  destruct (join_spec fuel m) as (_ & _ & _ & Hbusy).
  specialize (Hbusy Hok). fold m1 in Hbusy.
  pose proof (join_idle fuel m1 Hbusy) as Hidle.
  unfold get_population, get_algorithm, get_problem, get_size,
    get_migration_probability, get_evolution_time, mbind, run_bind.
  rewrite Hidle. cbn. auto 10.
Qed.

(** *** What [evolve(n)] computes *)

Lemma evolution_round_standalone (m : machine) (a1 : A) (p1 : population) :
  m_archi (isl m) = false ->
  (forall w, (interruption_point w).1 = false) ->
  algo_evolve (m_algo (isl m)) (m_pop (isl m)) = Ok (a1, p1) ->
  (evolution_round m).1 = Ok tt /\
  isl (evolution_round m).2 = with_pop_algo (isl m) p1 a1 /\
  evolve_calls (trace (evolution_round m).2) = S (evolve_calls (trace m)).
Proof.
  intros Harchi Hquiet Hev. destruct m as [i w tr]. cbn in Harchi, Hev.
  unfold evolution_round, mbind, run_bind, get_island, when, mret, run_ret,
    do_algo_evolve, do_interruption_point.
  cbn -[evolve_calls]. rewrite Harchi. cbn -[evolve_calls]. rewrite Hev.
  cbn -[evolve_calls]. rewrite Harchi. cbn -[evolve_calls].
  destruct (is_blocking _); cbn -[evolve_calls].
  - rewrite evolve_calls_app.
    replace (evolve_calls [ev_algo_evolve]) with 1%nat by reflexivity.
    split_and!; try reflexivity. lia.
  - specialize (Hquiet w). destruct (interruption_point w) as [b w']. cbn in Hquiet.
    subst b. cbn -[evolve_calls]. rewrite !evolve_calls_app.
    replace (evolve_calls [ev_algo_evolve]) with 1%nat by reflexivity.
    replace (evolve_calls [ev_interruption_point]) with 0%nat by reflexivity.
    split_and!; try reflexivity. lia.
Qed.

Lemma int_loop_standalone (n : nat) :
  forall (m : machine) (a' : A) (p' : population),
    m_archi (isl m) = false ->
    (forall w, (interruption_point w).1 = false) ->
    evolve_n n (m_algo (isl m)) (m_pop (isl m)) = Ok (a', p') ->
    (int_loop n m).1 = Ok tt /\
    isl (int_loop n m).2 = with_pop_algo (isl m) p' a' /\
    evolve_calls (trace (int_loop n m).2) = (evolve_calls (trace m) + n)%nat.
Proof.
  induction n as [|n IH]; intros m a' p' Harchi Hquiet Hn; cbn [evolve_n] in Hn.
  - injection Hn as <- <-. cbn. split_and!; [reflexivity | | lia].
    destruct m as [[] w tr]. reflexivity.
  - apply bind_Ok_inv in Hn as ([a1 p1] & Hev & Hn).
    destruct (evolution_round_standalone m a1 p1 Harchi Hquiet Hev) as (Hok & Hisl & Hc).
    cbn [int_loop]. unfold mbind, run_bind.
    destruct (evolution_round m) as [r m1]. cbn [fst snd] in *. subst r.
    destruct (IH m1 a' p') as (Hok' & Hisl' & Hc');
      [rewrite Hisl; exact Harchi | exact Hquiet | rewrite Hisl; exact Hn|].
    split_and!; [exact Hok' | rewrite Hisl', Hisl; reflexivity | lia].
Qed.

Lemma evolver_call_standalone (fuel n : nat) (m : machine) (a' : A) (p' : population) :
  m_archi (isl m) = false ->
  (forall w, (interruption_point w).1 = false) ->
  evolve_n n (m_algo (isl m)) (m_pop (isl m)) = Ok (a', p') ->
  let out := evolver_call fuel (int_evolver n) m in
  out.1 = Ok tt /\ m_pop (isl out.2) = p' /\ m_algo (isl out.2) = a' /\
  m_evo_thread (isl out.2) = m_evo_thread (isl m) /\
  m_archi (isl out.2) = false /\
  evolve_calls (trace out.2) = (evolve_calls (trace m) + n)%nat.
Proof.
  intros Harchi Hquiet Hn. unfold evolver_call, juice_impl.
  destruct (read_clock_spec m) as [Hi Htr].
  destruct (read_clock m) as [start m1]. cbn [fst snd] in *.
  unfold mbind, run_bind, get_island, when. rewrite Hi, Harchi. cbn [andb].
  unfold mret, run_ret.
  destruct (int_loop_standalone n m1 a' p') as (Hok & Hisl & Hc);
    [rewrite Hi; exact Harchi | exact Hquiet | rewrite Hi; exact Hn|].
  destruct (int_loop n m1) as [r m2]. cbn [fst snd] in *. subst r.
  destruct (add_evolution_time_spec start m2) as (Hok2 & Hisl2 & s & Hext & Hcalls & _).
  cbn zeta in *. split; [exact Hok2|]. rewrite Hisl2, Hisl, Hi.
  assert (evolve_calls (trace (add_evolution_time start m2).2) =
          (evolve_calls (trace m) + n)%nat) as Hcount.
  { unfold extends in Hext. rewrite Hext, evolve_calls_app, Hcalls, Hc, Htr. lia. }
  destruct ((0 <=? _) && (_ <? _))%Z; cbn; auto.
Qed.

(** [evolve(n)] and then a join, on an island of its own. *)
Lemma island_evolve_join_standalone (fuel : nat) (n : Z) (m : machine) (a' : A)
    (p' : population) :
  busy (isl m) = false -> m_archi (isl m) = false ->
  (0 <= n < 2 ^ size_t_bits)%Z ->
  (forall w, (interruption_point w).1 = false) ->
  (forall w, (thread_launch w).1 = true) ->
  evolve_n (Z.to_nat n) (m_algo (isl m)) (m_pop (isl m)) = Ok (a', p') ->
  let out := (island_evolve fuel n ≫= fun _ => join fuel) m in
  (island_evolve fuel n m).1 = Ok tt /\
  out.1 = Ok tt /\ m_pop (isl out.2) = p' /\ m_algo (isl out.2) = a' /\
  busy (isl out.2) = false /\ m_archi (isl out.2) = false /\
  evolve_calls (trace out.2) = (evolve_calls (trace m) + Z.to_nat n)%nat.
Proof.
  intros Hidle Harchi Hn Hquiet Hlaunch Hrun out. subst out.
  assert (island_evolve fuel n m =
          if is_blocking (isl m) then evolver_call fuel (int_evolver (Z.to_nat n)) m
          else launch (int_evolver (Z.to_nat n)) m) as Hev.
  { unfold island_evolve, mbind, run_bind. rewrite (join_idle fuel m Hidle).
    unfold lift_result, numeric_cast_size_t.
    destruct (Z.leb_spec 0 n); [|lia]. destruct (Z.ltb_spec n (2 ^ size_t_bits)); [|lia].
    cbn. destruct (is_blocking (isl m)); reflexivity. }
  unfold mbind, run_bind. rewrite Hev. clear Hev.
  destruct (is_blocking (isl m)) eqn:Hb.
  - destruct (evolver_call_standalone fuel (Z.to_nat n) m a' p' Harchi Hquiet Hrun)
      as (Hok & Hp & Ha & Hth & Har & Hc).
    destruct (evolver_call fuel (int_evolver (Z.to_nat n)) m) as [r m1].
    cbn [fst snd] in *. subst r.
    assert (busy (isl m1) = false) as Hidle1 by (unfold busy in *; rewrite Hth; exact Hidle).
    rewrite (join_idle fuel m1 Hidle1).
    cbn. split_and!; [reflexivity | reflexivity | assumption..].
  - unfold launch. specialize (Hlaunch (env m)).
    destruct (thread_launch (env m)) as [ok w1]. cbn in Hlaunch. subst ok.
    unfold mbind, run_bind, emit, get_island, put_island. cbn [fst snd isl env trace].
    unfold join, mbind, run_bind, get_island. cbn [fst snd isl env trace].
    cbn [with_evo_thread m_evo_thread th_joined th_body].
    set (m1 := {| isl := with_evo_thread (isl m)
                           (Some {| th_body := int_evolver (Z.to_nat n); th_joined := false |});
                  env := w1; trace := trace m ++ [ev_thread_create] |}).
    destruct (evolver_call_standalone fuel (Z.to_nat n) m1 a' p')
      as (Hok & Hp & Ha & Hth & Har & Hc); [exact Harchi | exact Hquiet | exact Hrun|].
    fold m1.
    destruct (evolver_call fuel (int_evolver (Z.to_nat n)) m1) as [r m2].
    cbn [fst snd] in *. subst r. cbn -[evolve_calls].
    subst m1. cbn [trace] in Hc. rewrite evolve_calls_app in Hc.
    replace (evolve_calls [ev_thread_create]) with 0%nat in Hc by reflexivity.
    split_and!; [reflexivity | reflexivity | assumption | assumption | reflexivity
                | assumption | lia].
Qed.

(** An accessor after some code is the join after that code, and then the
    reading. *)
Lemma get_population_after (fuel : nat) (c : run unit) (m : machine) :
  ((c ≫= fun _ => join fuel) m).1 = Ok tt ->
  (c ≫= fun _ => get_population fuel) m =
  (Ok (m_pop (isl ((c ≫= fun _ => join fuel) m).2)), ((c ≫= fun _ => join fuel) m).2).
Proof.
  unfold get_population, mbind, run_bind, get_island, mret, run_ret.
  destruct (c m) as [[[]| e |] m1]; cbn; [|discriminate..].
  destruct (join fuel m1) as [[[]| e |] m2]; cbn; [reflexivity | discriminate..].
Qed.

(** [evolve] starts with a join, so it does the same after one. *)
Lemma island_evolve_after_join (fuel : nat) (n : Z) (m : machine) :
  (join fuel m).1 = Ok tt ->
  island_evolve fuel n m = island_evolve fuel n (join fuel m).2.
Proof.
  intros Hok. destruct (join_spec fuel m) as (_ & _ & _ & Hbusy).
  specialize (Hbusy Hok).
  unfold island_evolve, mbind at 1 4, run_bind at 1 4.
  rewrite (join_idle fuel (join fuel m).2 Hbusy).
  destruct (join fuel m) as [r mj]. cbn in Hok. subst r. reflexivity.
Qed.

Lemma run_bind_Ok {X Y : Type} (c : run X) (k : X -> run Y) (m : machine) (x : X) :
  (c m).1 = Ok x -> (c ≫= k) m = k x (c m).2.
Proof.
  unfold mbind, run_bind. destruct (c m) as [r m1]. cbn. intros ->. reflexivity.
Qed.

Lemma evolve_n_add (n1 n2 : nat) :
  forall (a a' : A) (p p' : population),
    evolve_n (n1 + n2) a p = Ok (a', p') ->
    exists a1 p1, evolve_n n1 a p = Ok (a1, p1) /\ evolve_n n2 a1 p1 = Ok (a', p').
Proof.
  induction n1 as [|n1 IH]; intros a a' p p' H; cbn [Nat.add evolve_n] in *.
  - eauto.
  - apply bind_Ok_inv in H as ([a0 p0] & Hev & H). rewrite Hev. cbn.
    exact (IH _ _ _ _ H).
Qed.

(** X14. What [evolve(n)] computes on an island of its own (no
    archipelago), when no interruption is delivered: if [n] calls of the
    algorithm in a row, each on the result of the one before, give the
    population [p'], then [get_population] after [evolve(n)] returns [p'],
    whether the island is blocking or runs the calls in a thread; the
    algorithm has been called [n] times and the island is no longer busy. *)
Theorem evolve_then_get_population (fuel : nat) (n : Z) (m : machine) (a' : A)
    (p' : population) :
  busy (isl m) = false -> m_archi (isl m) = false ->
  (0 <= n < 2 ^ size_t_bits)%Z ->
  (forall w, (interruption_point w).1 = false) ->
  (forall w, (thread_launch w).1 = true) ->
  evolve_n (Z.to_nat n) (m_algo (isl m)) (m_pop (isl m)) = Ok (a', p') ->
  let out := (island_evolve fuel n ≫= fun _ => get_population fuel) m in
  out.1 = Ok p' /\ m_pop (isl out.2) = p' /\ m_algo (isl out.2) = a' /\
  busy (isl out.2) = false /\
  evolve_calls (trace out.2) = (evolve_calls (trace m) + Z.to_nat n)%nat.
Proof.
  intros Hidle Harchi Hn Hquiet Hlaunch Hrun out. subst out.
  destruct (island_evolve_join_standalone fuel n m a' p' Hidle Harchi Hn Hquiet
              Hlaunch Hrun) as (_ & Hok & Hp & Ha & Hb & _ & Hc).
  rewrite (get_population_after fuel _ m Hok). cbn [fst snd].
  split_and!; [congruence | assumption..].
Qed.

(** X22. A second [evolve] waits for the first: on an island of its own,
    with no interruption delivered, [evolve(n1)] followed by [evolve(n2)]
    and [get_population] returns what [n1 + n2] calls of the algorithm in a
    row leave of the population, and the algorithm has been called
    [n1 + n2] times. *)
Theorem evolve_twice_adds_up (fuel : nat) (n1 n2 : Z) (m : machine) (a' : A)
    (p' : population) :
  busy (isl m) = false -> m_archi (isl m) = false ->
  (0 <= n1 < 2 ^ size_t_bits)%Z -> (0 <= n2 < 2 ^ size_t_bits)%Z ->
  (forall w, (interruption_point w).1 = false) ->
  (forall w, (thread_launch w).1 = true) ->
  evolve_n (Z.to_nat n1 + Z.to_nat n2) (m_algo (isl m)) (m_pop (isl m)) = Ok (a', p') ->
  let out := (island_evolve fuel n1 ≫= fun _ =>
              island_evolve fuel n2 ≫= fun _ => get_population fuel) m in
  out.1 = Ok p' /\ m_algo (isl out.2) = a' /\ busy (isl out.2) = false /\
  evolve_calls (trace out.2) =
    (evolve_calls (trace m) + (Z.to_nat n1 + Z.to_nat n2))%nat.
Proof.
  intros Hidle Harchi Hn1 Hn2 Hquiet Hlaunch Hrun out. subst out.
  destruct (evolve_n_add _ _ _ _ _ _ Hrun) as (a1 & p1 & Hrun1 & Hrun2).
  destruct (island_evolve_join_standalone fuel n1 m a1 p1 Hidle Harchi Hn1 Hquiet
              Hlaunch Hrun1) as (Hev1 & Hok1 & Hp1 & Ha1 & Hb1 & Har1 & Hc1).
  rewrite (run_bind_Ok _ (fun _ => join fuel) m tt Hev1) in Hok1, Hp1, Ha1, Hb1, Har1, Hc1.
  rewrite (run_bind_Ok _ _ m tt Hev1).
  set (m1 := (island_evolve fuel n1 m).2) in *.
  rewrite <- Hp1, <- Ha1 in Hrun2.
  destruct (island_evolve_join_standalone fuel n2 (join fuel m1).2 a' p' Hb1 Har1 Hn2
              Hquiet Hlaunch Hrun2) as (_ & Hok2 & Hp2 & Ha2 & Hb2 & _ & Hc2).
  assert ((island_evolve fuel n2 ≫= fun _ => get_population fuel) m1 =
          (island_evolve fuel n2 ≫= fun _ => get_population fuel) (join fuel m1).2) as Heq.
  { unfold mbind, run_bind.
    rewrite (island_evolve_after_join fuel n2 m1 Hok1). reflexivity. }
  rewrite Heq, (get_population_after fuel _ _ Hok2). cbn [fst snd].
  split_and!; [congruence | assumption | assumption | lia].
Qed.

(** X15. [set_algorithm] followed by [get_algorithm] returns the algorithm
    that was set.  [set_algorithm] joins first, so an evolution that was
    under way ends with the old algorithm; of the island as the join leaves
    it, the algorithm alone is replaced: population, evolution time, thread
    handle and the surroundings are untouched. *)
Theorem set_then_get_algorithm (fuel : nat) (a : A) (m : machine) :
  (join fuel m).1 = Ok tt ->
  let m1 := (join fuel m).2 in
  let out := (set_algorithm fuel a ≫= fun _ => get_algorithm fuel) m in
  out.1 = Ok a /\
  out.2 = {| isl := with_pop_algo (isl m1) (m_pop (isl m1)) a;
             env := env m1; trace := trace m1 |} /\
  (set_algorithm fuel a m).2 = out.2.
Proof.
  intros Hok m1 out. subst out.
  destruct (join_spec fuel m) as (_ & _ & _ & Hbusy). specialize (Hbusy Hok).
  fold m1 in Hbusy.
  assert (set_algorithm fuel a m =
          (Ok tt, {| isl := with_pop_algo (isl m1) (m_pop (isl m1)) a;
                     env := env m1; trace := trace m1 |})) as Hset.
  { unfold set_algorithm, mbind, run_bind. subst m1.
    destruct (join fuel m) as [r mj]. cbn in Hok. subst r. reflexivity. }
  assert ((set_algorithm fuel a ≫= fun _ => get_algorithm fuel) m =
          (Ok a, {| isl := with_pop_algo (isl m1) (m_pop (isl m1)) a;
                    env := env m1; trace := trace m1 |})) as Hboth.
  { unfold mbind at 1, run_bind at 1. rewrite Hset.
    unfold get_algorithm, mbind, run_bind. rewrite join_idle by exact Hbusy.
    reflexivity. }
  rewrite Hboth, Hset. auto.
Qed.

(** *** Errors and interruptions of the worker *)

Lemma read_clock_env (m : machine) :
  (read_clock m).1 = (local_time (env m)).1 /\
  env (read_clock m).2 = (local_time (env m)).2.
Proof. unfold read_clock. destruct (local_time (env m)); auto. Qed.

(** The message of the [catch (const std::exception &)] clause. *)
Local Abbreviation error_message ev :=
  (match ev with
   | int_evolver _ => "Error during island evolution"
   | t_evolver _ => "Error during evolution"
   end).

Lemma evolver_call_Throw (fuel : nat) (ev : evolver) (m : machine) (e : exn) :
  (juice_impl fuel ev m).2.1 = Throw e ->
  let start := (juice_impl fuel ev m).1 in
  let mj := (juice_impl fuel ev m).2.2 in
  evolver_call fuel ev m =
  if is_blocking (isl m) then (Throw e, mj)
  else
    add_evolution_time start
      match e with
      | thread_interrupted => mj
      | _ => {| isl := isl mj; env := env mj;
                trace := trace mj ++ [ev_print (error_message ev)] |}
      end.
Proof.
  intros H. unfold evolver_call.
  destruct (juice_impl fuel ev m) as [start [r mj]]. cbn [fst snd] in *. subst r.
  destruct (is_blocking (isl m)); [reflexivity|].
  destruct e; reflexivity.
Qed.

Lemma add_evolution_time_Ok (start : Z) (m : machine) :
  (add_evolution_time start m).1 = Ok tt.
Proof. apply add_evolution_time_spec. Qed.

Lemma add_evolution_time_trace (start : Z) (m : machine) :
  trace (add_evolution_time start m).2 = trace m \/
  trace (add_evolution_time start m).2 =
    trace m ++ [ev_print "Error calculating evolution time."].
Proof.
  unfold add_evolution_time, try_catch, mbind, run_bind, do_local_time.
  destruct (read_clock_spec m) as [Hi Htr].
  destruct (read_clock m) as [now m1]. cbn [fst snd] in *.
  unfold numeric_cast_size_t, lift_result.
  destruct (0 <=? total_milliseconds (now - start))%Z; cbn [andb]; [|left; exact Htr].
  destruct (total_milliseconds (now - start) <? 2 ^ size_t_bits)%Z; cbn.
  - left. exact Htr.
  - right. rewrite Htr. reflexivity.
Qed.

(** X16. On a blocking island an error of the algorithm comes out of
    [evolve(n)]: the call throws what the worker has thrown, there and then,
    and the evolution time is not brought up to date. *)
Theorem blocking_evolve_reports_errors (fuel : nat) (n : Z) (m : machine) (e : exn) :
  busy (isl m) = false -> is_blocking (isl m) = true ->
  (0 <= n < 2 ^ size_t_bits)%Z ->
  (juice_impl fuel (int_evolver (Z.to_nat n)) m).2.1 = Throw e ->
  island_evolve fuel n m =
    (Throw e, (juice_impl fuel (int_evolver (Z.to_nat n)) m).2.2) /\
  m_evo_time (isl (island_evolve fuel n m).2) = m_evo_time (isl m) /\
  m_evo_thread (isl (island_evolve fuel n m).2) = m_evo_thread (isl m).
Proof.
  intros Hidle Hb Hn Hthrow.
  assert (island_evolve fuel n m =
          (Throw e, (juice_impl fuel (int_evolver (Z.to_nat n)) m).2.2)) as Heq.
  { unfold island_evolve, mbind, run_bind. rewrite (join_idle fuel m Hidle).
    unfold lift_result, numeric_cast_size_t.
    destruct (Z.leb_spec 0 n); [|lia]. destruct (Z.ltb_spec n (2 ^ size_t_bits)); [|lia].
    cbn. rewrite Hb. rewrite (evolver_call_Throw _ _ _ _ Hthrow), Hb. reflexivity. }
  rewrite Heq. split; [reflexivity|]. cbn [snd].
  destruct (juice_impl_spec fuel (int_evolver (Z.to_nat n)) m)
    as (s & _ & (Ht & Htime & _) & _).
  cbn zeta in *. auto.
Qed.

Lemma evolver_call_no_throw (fuel : nat) (ev : evolver) (m : machine) (e : exn) :
  is_blocking (isl m) = false -> (evolver_call fuel ev m).1 <> Throw e.
Proof.
  intros Hnb. unfold evolver_call.
  destruct (juice_impl fuel ev m) as [start [r mj]]. rewrite Hnb.
  destruct r as [[]| e0 |].
  - rewrite add_evolution_time_Ok. discriminate.
  - unfold mbind, run_bind. destruct e0; cbn; rewrite add_evolution_time_Ok; discriminate.
  - discriminate.
Qed.

(** Joining a thread that has not been joined yet runs its worker to the
    end and marks the handle. *)
Lemma join_running (fuel : nat) (ev : evolver) (m : machine) :
  m_evo_thread (isl m) = Some {| th_body := ev; th_joined := false |} ->
  (evolver_call fuel ev m).1 = Ok tt ->
  join fuel m =
  (Ok tt, {| isl := with_evo_thread (isl (evolver_call fuel ev m).2)
                      (Some {| th_body := ev; th_joined := true |});
             env := env (evolver_call fuel ev m).2;
             trace := trace (evolver_call fuel ev m).2 |}).
Proof.
  intros Hth Hok. unfold join, mbind, run_bind, get_island. cbn. rewrite Hth. cbn.
  destruct (evolver_call fuel ev m) as [r m2]. cbn in Hok. subst r. reflexivity.
Qed.

(** X17. On an island that is not blocking nothing the worker throws
    reaches the caller: [join] does not throw, whatever the algorithm or an
    interruption has thrown in the thread, and returns with an island that
    is not busy.  An error other than an interruption leaves a message on
    the output.  The evolution time is brought up to date all the same: the
    milliseconds from the start of the worker to the reading of the clock
    after the throw are added, when they are not negative and fit
    [std::size_t]. *)
Theorem join_swallows_errors (fuel : nat) (m : machine) :
  is_blocking (isl m) = false ->
  (forall e, (join fuel m).1 <> Throw e) /\
  (forall ev e,
     m_evo_thread (isl m) = Some {| th_body := ev; th_joined := false |} ->
     (juice_impl fuel ev m).2.1 = Throw e ->
     let start := (juice_impl fuel ev m).1 in
     let mj := (juice_impl fuel ev m).2.2 in
     let ms := total_milliseconds ((read_clock mj).1 - start) in
     (join fuel m).1 = Ok tt /\ busy (isl (join fuel m).2) = false /\
     (e = thread_interrupted ->
      trace (join fuel m).2 = trace (add_evolution_time start mj).2) /\
     (e <> thread_interrupted ->
      exists suf,
        trace (join fuel m).2 =
        trace mj ++ [ev_print (error_message ev)] ++ suf) /\
     m_evo_time (isl mj) = m_evo_time (isl m) /\
     m_evo_time (isl (join fuel m).2) =
       (if ((0 <=? ms) && (ms <? 2 ^ size_t_bits))%Z
        then ((m_evo_time (isl m) + ms) mod 2 ^ size_t_bits)%Z
        else m_evo_time (isl m))).
Proof.
  intros Hnb. split.
  - intros e. unfold join, mbind, run_bind, get_island. cbn.
    destruct (m_evo_thread (isl m)) as [[ev joined]|]; cbn; [|discriminate].
    destruct joined; cbn; [discriminate|].
    pose proof (evolver_call_no_throw fuel ev m) as Hno.
    destruct (evolver_call fuel ev m) as [[[]| e0 |] m2]; cbn in *;
      [discriminate | intros [= ->]; exact (Hno e Hnb eq_refl) | discriminate].
  - intros ev e Hth Hthrow start mj ms.
    destruct (juice_impl_spec fuel ev m) as (_ & _ & (_ & Htime & _) & _).
    cbn zeta in Htime. fold mj in Htime.
    rewrite (join_running fuel ev m Hth)
      by (rewrite (evolver_call_Throw _ _ _ _ Hthrow), Hnb; apply add_evolution_time_Ok).
    cbn [fst snd isl trace].
    split; [reflexivity|]. split; [reflexivity|].
    rewrite (evolver_call_Throw _ _ _ _ Hthrow), Hnb. fold start mj.
    split; [|split; [|split]].
    + intros ->. reflexivity.
    + intros Hne.
      match goal with |- context [add_evolution_time start ?m0] =>
        destruct (add_evolution_time_spec start m0) as (_ & _ & s & Hext & _);
        set (m3 := m0) in * end.
      exists s. unfold extends in Hext. rewrite Hext.
      destruct e; try contradiction; subst m3; cbn; rewrite <- app_assoc; reflexivity.
    + exact Htime.
    + match goal with |- context [add_evolution_time start ?m0] =>
        destruct (add_evolution_time_spec start m0) as (_ & Hisl & _);
        assert ((read_clock m0).1 = (read_clock mj).1) as Hclock
          by (rewrite !(proj1 (read_clock_env _)); destruct e; reflexivity);
        assert (m_evo_time (isl m0) = m_evo_time (isl m)) as Htime0
          by (rewrite <- Htime; destruct e; reflexivity);
        set (m3 := m0) in * end.
      cbn zeta in Hisl. rewrite Hclock in Hisl. fold ms in Hisl.
      cbn [with_evo_thread m_evo_time]. rewrite Hisl.
      destruct ((0 <=? ms) && (ms <? 2 ^ size_t_bits))%Z; cbn [with_evo_time m_evo_time];
        rewrite Htime0; reflexivity.
Qed.

Lemma evolution_round_interrupted (m : machine) (a1 : A) (p1 : population) :
  m_archi (isl m) = false ->
  algo_evolve (m_algo (isl m)) (m_pop (isl m)) = Ok (a1, p1) ->
  is_blocking (with_pop_algo (isl m) p1 a1) = false ->
  (forall w, (interruption_point w).1 = true) ->
  evolution_round m =
  (Throw thread_interrupted,
   {| isl := with_pop_algo (isl m) p1 a1; env := (interruption_point (env m)).2;
      trace := (trace m ++ [ev_algo_evolve]) ++ [ev_interruption_point] |}).
Proof.
  intros Harchi Hev Hnb Hfire. destruct m as [i w tr]. cbn in *.
  unfold evolution_round, mbind, run_bind, get_island, when, mret, run_ret,
    do_algo_evolve, do_interruption_point.
  cbn. rewrite Harchi. cbn. rewrite Hev. cbn. rewrite Harchi. cbn.
  unfold is_blocking in Hnb. cbn in Hnb. unfold is_blocking. cbn. rewrite Hnb. cbn.
  specialize (Hfire w). destruct (interruption_point w) as [b w']. cbn in Hfire.
  subst b. reflexivity.
Qed.

(** X18. An interruption that is delivered at the first interruption point
    ends the worker of [evolve(n)] after one call of the algorithm, however
    large [n] is.  [join] returns as after a run that went to its end: the
    island holds the result of that one call and is not busy, and no error
    message is printed for the interruption. *)
Theorem interrupted_worker_stops_after_one_call (fuel k : nat) (m : machine)
    (a1 : A) (p1 : population) :
  AlgorithmLaws Alg ->
  m_archi (isl m) = false -> is_blocking (isl m) = false ->
  m_evo_thread (isl m) = Some {| th_body := int_evolver (S k); th_joined := false |} ->
  algo_evolve (m_algo (isl m)) (m_pop (isl m)) = Ok (a1, p1) ->
  (forall w, (interruption_point w).1 = true) ->
  let out := join fuel m in
  out.1 = Ok tt /\ busy (isl out.2) = false /\
  m_pop (isl out.2) = p1 /\ m_algo (isl out.2) = a1 /\
  evolve_calls (trace out.2) = S (evolve_calls (trace m)) /\
  (forall msg, ev_print msg ∈ trace out.2 ->
     ev_print msg ∈ trace m \/ msg = "Error calculating evolution time.").
Proof.
  intros HA Harchi Hnb Hth Hev Hfire out. subst out.
  assert (is_blocking (with_pop_algo (isl m) p1 a1) = false) as Hnb1.
  { destruct (algo_evolve_stable _ _ _ _ Hev) as [Hb Hp].
    unfold is_blocking in *. cbn. rewrite Hb, Hp. exact Hnb. }
  destruct (read_clock_spec m) as [Hi Htr].
  assert (exists mj start,
            juice_impl fuel (int_evolver (S k)) m = (start, (Throw thread_interrupted, mj)) /\
            isl mj = with_pop_algo (isl m) p1 a1 /\
            trace mj = (trace m ++ [ev_algo_evolve]) ++ [ev_interruption_point])
    as (mj & start & Hj & Hisl & Htrace).
  { unfold juice_impl. destruct (read_clock m) as [start m1]. cbn [fst snd] in *.
    unfold mbind, run_bind, get_island, when. rewrite Hi, Harchi. cbn [andb].
    unfold mret, run_ret. cbn [int_loop]. unfold mbind, run_bind.
    rewrite (evolution_round_interrupted m1 a1 p1)
      by (rewrite ?Hi; assumption).
    eexists _, start. split; [reflexivity|]. cbn. rewrite Hi, Htr. auto. }
  assert (evolver_call fuel (int_evolver (S k)) m = add_evolution_time start mj) as Hcall.
  { rewrite (evolver_call_Throw fuel (int_evolver (S k)) m thread_interrupted)
      by (rewrite Hj; reflexivity).
    rewrite Hnb, Hj. reflexivity. }
  rewrite (join_running fuel _ m Hth) by (rewrite Hcall; apply add_evolution_time_Ok).
  rewrite Hcall. cbn [fst snd isl trace].
  destruct (add_evolution_time_spec start mj) as (_ & Hisl2 & _).
  cbn zeta in *.
  split; [reflexivity|]. split; [reflexivity|].
  rewrite Hisl2, Hisl.
  split; [destruct ((0 <=? _) && (_ <? _))%Z; reflexivity|].
  split; [destruct ((0 <=? _) && (_ <? _))%Z; reflexivity|].
  destruct (add_evolution_time_trace start mj) as [-> | ->]; rewrite Htrace.
  - split.
    + rewrite !evolve_calls_app.
      replace (evolve_calls [ev_algo_evolve]) with 1%nat by reflexivity.
      replace (evolve_calls [ev_interruption_point]) with 0%nat by reflexivity. lia.
    + intros msg. rewrite !elem_of_app, !list_elem_of_singleton.
      intros [[H | [=]] | [=]]. left; exact H.
  - split.
    + rewrite !evolve_calls_app.
      replace (evolve_calls [ev_algo_evolve]) with 1%nat by reflexivity.
      replace (evolve_calls [ev_interruption_point]) with 0%nat by reflexivity.
      replace (evolve_calls [ev_print "Error calculating evolution time."])
        with 0%nat by reflexivity.
      lia.
    + intros msg. rewrite !elem_of_app, !list_elem_of_singleton.
      intros [[[H | [=]] | [=]] | [= ->]]; [left; exact H | right; reflexivity].
Qed.

(** *** Evolving for a given time *)

(** The loop of [t_evolver] calls the algorithm at least once. *)
Lemma t_loop_calls (fuel : nat) (m_t start : Z) :
  forall m : machine,
    exists suf,
      extends m (t_loop fuel m_t start m).2 suf /\
      ((0 < fuel)%nat -> (1 <= evolve_calls suf)%nat) /\
      (evolve_calls suf <= fuel)%nat.
Proof.
  induction fuel as [|fuel IH]; intros m.
  - exists []. cbn. split_and!; [apply extends_refl | lia | lia].
  - destruct (evolution_round_spec m) as (s1 & Hext1 & _ & Hc1 & _).
    cbn [t_loop]. unfold mbind, run_bind, do_local_time.
    destruct (evolution_round m) as [[[]| e |] m1]; cbn [fst snd] in *;
      [| exists s1; rewrite Hc1; split_and!; [exact Hext1 | lia | lia] ..].
    destruct (read_clock_spec m1) as [Hi Htr].
    destruct (read_clock m1) as [now m2]. cbn [fst snd] in *.
    assert (forall r : result unit * machine,
              (exists suf, extends m2 r.2 suf /\ (evolve_calls suf <= fuel)%nat) ->
              exists suf, extends m r.2 suf /\
                 ((0 < S fuel)%nat -> (1 <= evolve_calls suf)%nat) /\
                 (evolve_calls suf <= S fuel)%nat) as Hcont.
    { intros r (s2 & Hext2 & Hle). exists (s1 ++ s2).
      rewrite evolve_calls_app, Hc1. split_and!; [|lia|lia].
      unfold extends in *. rewrite Hext2, Htr, Hext1, app_assoc. reflexivity. }
    assert (forall r : result unit,
              exists suf, extends m2 (r, m2).2 suf /\ (evolve_calls suf <= fuel)%nat)
      as Hstop.
    { intros r. exists []. split; [apply extends_refl | cbn; lia]. }
    assert (exists suf, extends m2 (t_loop fuel m_t start m2).2 suf /\
              (evolve_calls suf <= fuel)%nat) as Hrec.
    { destruct (IH m2) as (s2 & Hext2 & _ & Hle). exists s2. auto. }
    destruct (total_milliseconds (now - start) <? 0)%Z.
    + apply (Hcont (t_loop fuel m_t start m2)). exact Hrec.
    + unfold lift_result.
      destruct (numeric_cast_size_t (total_milliseconds (now - start))) as [v| e |];
        cbn [fst snd].
      * destruct (v <? m_t)%Z.
        -- apply (Hcont (t_loop fuel m_t start m2)). exact Hrec.
        -- apply (Hcont (Ok tt, m2)). apply Hstop.
      * apply (Hcont (Throw e, m2)). apply Hstop.
      * apply (Hcont (Diverge, m2)). apply Hstop.
Qed.

(** A loop that returns has gone through its rounds until a reading of the
    clock has shown the time to be up, with one call of the algorithm in
    every round. *)
Lemma t_loop_rounds (fuel : nat) (m_t start : Z) :
  forall m m' : machine,
    t_loop fuel m_t start m = (Ok tt, m') ->
    exists k, (1 <= k <= fuel)%nat /\ t_rounds m_t start m k m' /\
      evolve_calls (trace m') = (evolve_calls (trace m) + k)%nat.
Proof.
  induction fuel as [|fuel IH]; intros m m' H; [discriminate|].
  cbn [t_loop] in H. unfold mbind, run_bind, do_local_time in H.
  destruct (evolution_round_spec m) as (s1 & Hext1 & _ & Hc1 & _).
  destruct (evolution_round m) as [[[]| e |] m1] eqn:Hround; cbn [fst snd] in *;
    [|discriminate..].
  destruct (read_clock_spec m1) as [Hi Htr].
  destruct (read_clock m1) as [now m2] eqn:Hrc. cbn [fst snd] in *.
  assert (evolve_calls (trace m2) = (evolve_calls (trace m) + 1)%nat) as Hcalls.
  { unfold extends in Hext1. rewrite Htr, Hext1, evolve_calls_app, Hc1. reflexivity. }
  assert (forall k, (1 <= k <= fuel)%nat /\ t_rounds m_t start m2 k m' /\
                    evolve_calls (trace m') = (evolve_calls (trace m2) + k)%nat ->
            (total_milliseconds (now - start) < 0 \/
             total_milliseconds (now - start) < Z.min m_t (2 ^ size_t_bits))%Z ->
            exists k, (1 <= k <= S fuel)%nat /\ t_rounds m_t start m k m' /\
              evolve_calls (trace m') = (evolve_calls (trace m) + k)%nat) as Hmore.
  { intros k (Hk & Hr & Hc) Hless. exists (S k). split; [lia|]. split; [|lia].
    apply (t_rounds_more m_t start m m1 m' k Hround); rewrite Hrc; assumption. }
  destruct (Z.ltb_spec (total_milliseconds (now - start)) 0) as [Hneg | Hpos].
  - destruct (IH m2 m' H) as (k & Hk). apply (Hmore k Hk). left. exact Hneg.
  - unfold lift_result, numeric_cast_size_t in H.
    destruct (Z.leb_spec 0 (total_milliseconds (now - start))); [|lia].
    destruct (Z.ltb_spec (total_milliseconds (now - start)) (2 ^ size_t_bits));
      cbn [andb fst snd] in H; [|discriminate].
    destruct (Z.ltb_spec (total_milliseconds (now - start)) m_t).
    + destruct (IH m2 m' H) as (k & Hk). apply (Hmore k Hk). right. lia.
    + injection H as <-. exists 1%nat. split; [lia|]. split; [|exact Hcalls].
      pose proof (t_rounds_last m_t start m m1 Hround) as Hlast.
      rewrite Hrc in Hlast. apply Hlast; cbn [fst]; lia.
Qed.

(** The last reading of the clock in the rounds shows the time to be up. *)
Lemma t_rounds_end (m_t start : Z) (m m' : machine) (k : nat) :
  t_rounds m_t start m k m' ->
  exists m1, m' = (read_clock m1).2 /\
    (0 <= total_milliseconds ((read_clock m1).1 - start))%Z /\
    (m_t <= total_milliseconds ((read_clock m1).1 - start))%Z.
Proof.
  induction 1 as [m m1 Hround H0 Ht | m m1 m' k Hround Hless Hrest IH].
  - exists m1. split; [reflexivity|]. split; [lia | exact Ht].
  - exact IH.
Qed.

(** The machine on which the loops of the workers start: the clock has been
    read and, on an island of an archipelago that is not blocking, the
    barrier has been awaited. *)
Local Abbreviation loop_start m :=
  ((when (m_archi (isl (read_clock m).2) && negb (is_blocking (isl (read_clock m).2)))
      do_sync_island_start (read_clock m).2).2).

Lemma t_worker_spec (fuel : nat) (t : Z) (m : machine) :
  (0 < fuel)%nat ->
  let start := (juice_impl fuel (t_evolver t) m).1 in
  let worker := (juice_impl fuel (t_evolver t) m).2 in
  let out := evolver_call fuel (t_evolver t) m in
  let ms := total_milliseconds ((read_clock worker.2).1 - start) in
  (exists suf, trace worker.2 = trace m ++ suf /\
     (1 <= evolve_calls suf)%nat /\ (evolve_calls suf <= fuel)%nat) /\
  (worker.1 = Ok tt ->
   (start = (read_clock m).1 /\
    exists k, (1 <= k <= fuel)%nat /\
      t_rounds t start (loop_start m) k worker.2 /\
      evolve_calls (trace worker.2) = (evolve_calls (trace m) + k)%nat) /\
   out.1 = Ok tt /\
   m_evo_time (isl out.2) =
     (if ((0 <=? ms) && (ms <? 2 ^ size_t_bits))%Z
      then ((m_evo_time (isl m) + ms) mod 2 ^ size_t_bits)%Z
      else m_evo_time (isl m)) /\
   ((forall w, ((local_time w).1 <= (local_time (local_time w).2).1)%Z) ->
    (0 <= ms)%Z /\ (t <= ms)%Z)).
Proof.
  intros Hfuel start worker out ms. subst start worker out ms.
  destruct (juice_impl_spec fuel (t_evolver t) m) as (_ & _ & (_ & Htime & _) & _).
  unfold evolver_call. unfold juice_impl in *.
  destruct (read_clock_spec m) as [Hi Htr].
  destruct (read_clock m) as [start m1]. cbn [fst snd] in *.
  unfold mbind, run_bind, get_island in *.
  set (m2 := when (m_archi (isl m1) && negb (is_blocking (isl m1)))
               do_sync_island_start m1) in *.
  assert (m2.1 = Ok tt /\
          exists s0, trace m2.2 = trace m ++ s0 /\ evolve_calls s0 = 0%nat)
    as (Hok2 & s0 & Htr2 & Hc0).
  { subst m2. unfold when.
    destruct (m_archi (isl m1) && negb (is_blocking (isl m1))); cbn.
    - split; [reflexivity|]. exists [ev_sync_island_start].
      rewrite Htr. split; reflexivity.
    - split; [reflexivity|]. exists []. rewrite app_nil_r, Htr.
      split; reflexivity. }
  destruct m2 as [r2 m2'] eqn:Hm2. cbn [fst snd] in *. subst r2.
  destruct (t_loop_calls fuel t start m2') as (s & Hext & Hone & Hle).
  pose proof (t_loop_rounds fuel t start m2') as Hrounds.
  destruct (t_loop fuel t start m2') as [r mj]. cbn [fst snd] in *.
  split.
  - exists (s0 ++ s). unfold extends in Hext.
    rewrite Hext, Htr2, app_assoc, evolve_calls_app, Hc0.
    split_and!; [reflexivity | apply Hone; exact Hfuel | lia].
  - intros ->. destruct (Hrounds mj eq_refl) as (k & Hk & Hr & Hc).
    split; [|split; [apply add_evolution_time_Ok | split]].
    + split; [reflexivity|]. exists k. split; [exact Hk|]. split; [exact Hr|].
      rewrite Hc, Htr2, evolve_calls_app, Hc0. lia.
    + destruct (add_evolution_time_spec start mj) as (_ & Hisl & _). cbn zeta in Hisl.
      rewrite Hisl.
      destruct ((0 <=? _) && (_ <? _))%Z; cbn [with_evo_time m_evo_time];
        rewrite Htime; reflexivity.
    + intros Hmono. destruct (t_rounds_end _ _ _ _ _ Hr) as (m3 & -> & H0 & Ht).
      destruct (read_clock_env m3) as [Hnow3 Henv3].
      destruct (read_clock_env (read_clock m3).2) as [Hnow _].
      rewrite Hnow, Henv3. rewrite Hnow3 in H0, Ht.
      assert (total_milliseconds ((local_time (env m3)).1 - start) <=
              total_milliseconds ((local_time (local_time (env m3)).2).1 - start))%Z
        as Hge.
      { unfold total_milliseconds. apply Z.quot_le_mono; [lia|].
        specialize (Hmono (env m3)). lia. }
      lia.
Qed.

(** X19. The worker of [evolve_t(t)] calls the algorithm at least once,
    also for [t = 0].  When it returns it has gone through [k] rounds, with
    one call of the algorithm and one reading of the clock in each: the
    readings before the last have shown a negative time or less than [t]
    milliseconds since the start, and the last has shown at least [t].  The
    milliseconds [ms] that are added to the evolution time are those from
    the start to one more reading at the end (added when they are not
    negative and fit [std::size_t]); when the clock does not go back between
    two readings in a row, [ms] is at least [t].  On a blocking island
    [evolve_t(t)] is that worker run in place. *)
Theorem evolve_t_runs_until_time_is_up (fuel : nat) (t : Z) (m : machine) :
  (0 < fuel)%nat ->
  let start := (juice_impl fuel (t_evolver t) m).1 in
  let worker := (juice_impl fuel (t_evolver t) m).2 in
  let out := evolver_call fuel (t_evolver t) m in
  let ms := total_milliseconds ((read_clock worker.2).1 - start) in
  (exists suf, trace worker.2 = trace m ++ suf /\
     (1 <= evolve_calls suf)%nat /\ (evolve_calls suf <= fuel)%nat) /\
  (worker.1 = Ok tt ->
   (start = (read_clock m).1 /\
    exists k, (1 <= k <= fuel)%nat /\
      t_rounds t start (loop_start m) k worker.2 /\
      evolve_calls (trace worker.2) = (evolve_calls (trace m) + k)%nat) /\
   out.1 = Ok tt /\
   m_evo_time (isl out.2) =
     (if ((0 <=? ms) && (ms <? 2 ^ size_t_bits))%Z
      then ((m_evo_time (isl m) + ms) mod 2 ^ size_t_bits)%Z
      else m_evo_time (isl m)) /\
   ((forall w, ((local_time w).1 <= (local_time (local_time w).2).1)%Z) ->
    (0 <= ms)%Z /\ (t <= ms)%Z)) /\
  (busy (isl m) = false -> is_blocking (isl m) = true ->
   (0 <= t < 2 ^ size_t_bits)%Z -> island_evolve_t fuel t m = out).
Proof.
  intros Hfuel start worker out ms.
  destruct (t_worker_spec fuel t m Hfuel) as [H1 H2].
  split; [exact H1|]. split; [exact H2|].
  intros Hidle Hb Ht. subst out.
  unfold island_evolve_t, mbind, run_bind. rewrite (join_idle fuel m Hidle).
  unfold lift_result, numeric_cast_size_t.
  destruct (Z.leb_spec 0 t); [|lia]. destruct (Z.ltb_spec t (2 ^ size_t_bits)); [|lia].
  cbn. rewrite Hb. reflexivity.
Qed.

(** *** Immigrants *)

Lemma place_immigrants_spec (immigrants : list individual_type) (rep : list (nat * nat)) :
  forall p p' : population,
    place_immigrants immigrants rep p = Some p' ->
    pop_problem p' = pop_problem p /\ pop_size p' = pop_size p /\
    Forall (fun pr => (pr.1 < pop_size p)%nat /\ (pr.2 < length immigrants)%nat) rep /\
    forall s,
      get_individual p' s =
      match last (filter (fun pr => pr.1 = s) rep) with
      | Some pr => immigrants !!! pr.2
      | None => get_individual p s
      end.
Proof.
  induction rep as [|[slot k] rep IH]; intros p p' H; cbn [place_immigrants] in H.
  - injection H as <-. split_and!; [reflexivity | reflexivity | constructor|].
    intros s. reflexivity.
  - destruct (Nat.ltb_spec slot (length (m_container p))) as [Hslot|]; [|discriminate].
    destruct (Nat.ltb_spec k (length immigrants)) as [Hk|]; [|discriminate].
    cbn [andb] in H. apply IH in H as (Hprob & Hsize & Hall & Hslots).
    rewrite update_champion_problem in Hprob.
    unfold pop_size in Hsize, Hall. rewrite update_champion_container in Hsize, Hall.
    cbn in Hprob, Hsize, Hall. rewrite length_insert in Hsize, Hall.
    split_and!; [exact Hprob | exact Hsize | constructor; [cbn; auto | exact Hall]|].
    intros s. rewrite Hslots. rewrite filter_cons. cbn [fst].
    unfold get_individual at 1. rewrite update_champion_container. cbn [m_container].
    destruct (decide (slot = s)) as [-> | Hne].
    + rewrite last_cons. destruct (last (filter _ rep)); [reflexivity|].
      cbn. apply list_lookup_total_insert_eq. exact Hslot.
    + destruct (last (filter _ rep)); [reflexivity|].
      apply list_lookup_total_insert_ne. exact Hne.
Qed.

Lemma place_immigrants_Some (immigrants : list individual_type) (rep : list (nat * nat)) :
  forall p : population,
    Forall (fun pr => (pr.1 < pop_size p)%nat /\ (pr.2 < length immigrants)%nat) rep ->
    is_Some (place_immigrants immigrants rep p).
Proof.
  induction rep as [|[slot k] rep IH]; intros p Hall; cbn [place_immigrants]; [eauto|].
  apply Forall_cons in Hall as [[Hslot Hk] Hall]. cbn in Hslot, Hk.
  unfold pop_size in Hslot.
  destruct (Nat.ltb_spec slot (length (m_container p))); [|lia].
  destruct (Nat.ltb_spec k (length immigrants)); [|lia].
  cbn [andb]. apply IH.
  unfold pop_size in *. rewrite update_champion_container. cbn.
  rewrite length_insert. exact Hall.
Qed.

(** X20. [accept_immigrants] goes through on an island of an archipelago
    whose replacement policy names slots of the population and immigrants
    of the list only.  It then leaves the problem, the number of
    individuals and everything of the island outside the population as they
    were; a slot the policy names holds the immigrant of the last placement
    that names it, and every other slot holds the individual it held. *)
Theorem accept_immigrants_places (r_policy : replacement_policy)
    (immigrants : list individual_type) (i : island) :
  let rep := r_policy immigrants (m_pop i) in
  (is_Some (accept_immigrants r_policy immigrants i) <->
     m_archi i = true /\
     Forall (fun pr => (pr.1 < pop_size (m_pop i))%nat /\
                       (pr.2 < length immigrants)%nat) rep) /\
  (forall i' : island, accept_immigrants r_policy immigrants i = Some i' ->
     pop_problem (m_pop i') = pop_problem (m_pop i) /\
     pop_size (m_pop i') = pop_size (m_pop i) /\
     m_algo i' = m_algo i /\ m_archi i' = m_archi i /\
     m_evo_time i' = m_evo_time i /\ m_evo_thread i' = m_evo_thread i /\
     m_migr_prob i' = m_migr_prob i /\
     forall s,
       get_individual (m_pop i') s =
       match last (filter (fun pr => pr.1 = s) rep) with
       | Some pr => immigrants !!! pr.2
       | None => get_individual (m_pop i) s
       end).
Proof.
  intros rep. unfold accept_immigrants. fold rep. split.
  - destruct (m_archi i); [|split; [intros [? [=]] | intros [[=] _]]].
    split.
    + intros [i' H].
      destruct (place_immigrants immigrants rep (m_pop i)) as [p'|] eqn:E; [|discriminate].
      split; [reflexivity|]. apply (place_immigrants_spec _ _ _ _ E).
    + intros [_ Hall].
      destruct (place_immigrants_Some immigrants rep (m_pop i) Hall) as [p' ->].
      cbn. eauto.
  - intros i' H. destruct (m_archi i) eqn:Harchi; [|discriminate].
    destruct (place_immigrants immigrants rep (m_pop i)) as [p'|] eqn:E; [|discriminate].
    cbn in H. injection H as <-. cbn.
    destruct (place_immigrants_spec _ _ _ _ E) as (Hprob & Hsize & _ & Hslots).
    split_and!; auto.
Qed.

(** *** Assignment *)

(** X21. The assignment of an island joins the island assigned to, then
    joins the source in the surroundings that the first join has left, and
    then copies: when it returns, the island assigned to has the population,
    the algorithm, the archipelago, the evolution time and the migration
    probability of the source as that second join has left it, and no
    thread handle: it is not busy and [interrupt] on it does nothing.  The
    source is no longer busy either, and a source that was not busy is
    unchanged.  A source whose thread had [n] calls of the algorithm to make
    (on an island of its own, no interruption delivered) has made them: the
    copy holds the result of [evolve_n n] on the source, and the evolution
    time of the source plus the milliseconds of that worker. *)
Theorem island_assign_copies_joined_source (fuel : nat) (source src' : island)
    (m m' : machine) :
  island_assign fuel source m = (Ok src', m') ->
  (exists m1,
     join fuel m = (Ok tt, m1) /\
     let ms := {| isl := source; env := env m1; trace := trace m1 |} in
     join fuel ms = (Ok tt, {| isl := src'; env := env m'; trace := trace m' |}) /\
     ((0 <= m_evo_time source < 2 ^ size_t_bits)%Z ->
      m_evo_time (isl m') =
        ((m_evo_time source + join_ms fuel ms) mod 2 ^ size_t_bits)%Z) /\
     (forall (n : nat) (a' : A) (p' : population),
        m_evo_thread source = Some {| th_body := int_evolver n; th_joined := false |} ->
        m_archi source = false ->
        (forall w, (interruption_point w).1 = false) ->
        evolve_n n (m_algo source) (m_pop source) = Ok (a', p') ->
        m_pop (isl m') = p' /\ m_algo (isl m') = a' /\
        m_evo_thread src' = Some {| th_body := int_evolver n; th_joined := true |} /\
        evolve_calls (trace m') = (evolve_calls (trace m1) + n)%nat)) /\
  busy src' = false /\ (busy source = false -> src' = source) /\
  isl m' = with_evo_thread src' None /\
  m_pop (isl m') = m_pop src' /\ m_algo (isl m') = m_algo src' /\
  m_evo_time (isl m') = m_evo_time src' /\ m_archi (isl m') = m_archi src' /\
  m_migr_prob (isl m') = m_migr_prob src' /\
  busy (isl m') = false /\ interrupt m' = (Ok tt, m').
Proof.
  unfold island_assign. intros H.
  destruct (join fuel m) as [[[]| e |] m1] eqn:E1; [|discriminate..].
  set (m1' := {| isl := source; env := env m1; trace := trace m1 |}) in *.
  destruct (join_spec fuel m1') as (_ & _ & _ & Hbusy).
  pose proof (join_idle fuel m1') as Hidle.
  pose proof (join_time fuel m1') as Htime.
  pose proof (fun ev => join_running fuel ev m1') as Hrun.
  destruct (join fuel m1') as [[[]| e |] m2] eqn:E2; [|discriminate..].
  cbn [fst snd] in *. injection H as <- <-.
  split; [|split_and!; try reflexivity].
  - exists m1. split; [reflexivity|]. cbn zeta. fold m1'. cbn [env trace].
    split; [rewrite E2; destruct m2; reflexivity|]. split; [exact Htime|].
    intros n a' p' Hth Harchi Hquiet Hn.
    destruct (evolver_call_standalone fuel n m1' a' p' Harchi Hquiet Hn)
      as (Hok & Hp & Ha & _ & _ & Hc).
    specialize (Hrun (int_evolver n) Hth Hok). injection Hrun as ->.
    cbn [isl trace with_evo_thread m_pop m_algo m_evo_thread].
    split_and!; [exact Hp | exact Ha | reflexivity | exact Hc].
  - exact (Hbusy eq_refl).
  - intros Hs. specialize (Hidle Hs). injection Hidle as ->. reflexivity.
Qed.

End island_more.

(** ** The further properties on the examples *)

(** The indices of individual 0 among eight, from the counting generator. *)
Lemma pick_indices_distinct_in_range_witness :
  (1 <= 8)%nat /\
  @pick_indices nat nat counter_rng 20 8 0 0%nat =
    Ok ({| r1 := 1; r2 := 2; r3 := 3; r4 := 4; r5 := 5; r6 := 6; r7 := 7 |}, 8%nat) /\
  NoDup [0; 1; 2; 3; 4; 5; 6; 7]%nat /\
  Forall (fun k => (k < 8)%nat) [1; 2; 3; 4; 5; 6; 7]%nat.
Proof.
  split; [lia|]. split; [reflexivity|].
  exact (@pick_indices_distinct_in_range nat nat counter_rng counter_rng_laws 20 8 0
           0%nat 8%nat
           {| r1 := 1; r2 := 2; r3 := 3; r4 := 4; r5 := 5; r6 := 6; r7 := 7 |}
           ltac:(lia) eq_refl).
Defined.

(** Among seven individuals the sampling for individual 0 does not end. *)
Lemma pick_indices_needs_eight_witness :
  (0 < 7)%nat /\ (7 < 8)%nat /\
  @pick_indices nat nat counter_rng 1000 7 0 0%nat = Diverge.
Proof.
  split; [lia|]. split; [lia|].
  exact (@pick_indices_needs_eight nat nat counter_rng counter_rng_laws 1000 7 0 0%nat
           ltac:(lia) ltac:(lia)).
Defined.

(** DE/rand/1/bin on rows of three components of which two are continuous,
    with CR = 1/2 and the draws 0 and 0.1: both continuous components are
    replaced and the third is kept. *)
Lemma binomial_crossover_components_witness :
  let r := {| r1 := 1; r2 := 2; r3 := 3; r4 := 4; r5 := 5; r6 := 6; r7 := 7 |} in
  let t := (@build_trial nat nat counter_rng (1 # 2) rows3 [100; 200; 300]%Q 0 r 7 2
              (1 # 2) ([], 0%nat, 1%nat)).1.1 in
  (7%Z ∈ [6; 7; 8; 9; 10; 12; 14; 16; 18]%Z) /\ (0 < 2)%nat /\
  (2 <= length (rows3 !!! 0%nat))%nat /\
  length t = 3%nat /\
  t !!! 0%nat = mutation_of (1 # 2) rows3 [100; 200; 300]%Q 0 r 7 (rows3 !!! 0%nat) 0 /\
  t !!! 2%nat = (rows3 !!! 0%nat) !!! 2%nat /\
  map Qred t = [1 # 2; 21 # 2; 20]%Q.
Proof.
  intros r t.
  assert (7%Z ∈ [6; 7; 8; 9; 10; 12; 14; 16; 18]%Z) as Hin
    by (apply elem_of_cons; right; apply elem_of_cons; left; reflexivity).
  assert (2 <= length (rows3 !!! 0%nat))%nat as Hlen by (vm_compute; lia).
  destruct (@binomial_crossover_components nat nat counter_rng counter_rng_laws
              (1 # 2) rows3 [100; 200; 300]%Q 0 r 7 2 (1 # 2) [] 0%nat 1%nat
              Hin ltac:(lia) Hlen) as (_ & Hl & _ & _ & _ & Hlast & Hkeep & _).
  split; [exact Hin|]. split; [lia|]. split; [exact Hlen|].
  split; [exact Hl|]. split; [exact Hlast|]. split; [exact (Hkeep 2%nat ltac:(lia))|].
  vm_compute. reflexivity.
Defined.

(** DE/rand/1/exp on the same rows with three continuous components, from
    position 1 with CR = 1/2: the draws 0 and 0.1 are below CR, so all three
    components are replaced. *)
Lemma exponential_crossover_run_witness :
  let r := {| r1 := 1; r2 := 2; r3 := 3; r4 := 4; r5 := 5; r6 := 6; r7 := 7 |} in
  let e := mutation_of (1 # 2) rows3 [100; 200; 300]%Q 0 r 2 in
  let t := (@build_trial nat nat counter_rng (1 # 2) rows3 [100; 200; 300]%Q 0 r 2 3
              (1 # 2) ([], 0%nat, 1%nat)).1.1 in
  (2%Z ∈ exponential_variants) /\ (0 < 3)%nat /\ (3 <= length (rows3 !!! 0%nat))%nat /\
  (@exp_loop nat nat counter_rng 3 3 (1 # 2) e (rows3 !!! 0%nat) 1 0 0%nat).1.2 = 3%nat /\
  (forall j, (j < 3)%nat ->
     t !!! ((1 + j) mod 3)%nat = e (rows3 !!! 0%nat) ((1 + j) mod 3)%nat) /\
  map Qred t = [1 # 2; 21 # 2; 41 # 2]%Q.
Proof.
  intros r e t.
  assert (2%Z ∈ exponential_variants) as Hin
    by (apply elem_of_cons; right; apply elem_of_cons; left; reflexivity).
  assert (3 <= length (rows3 !!! 0%nat))%nat as Hlen by (vm_compute; lia).
  destruct (@exponential_crossover_run nat nat counter_rng counter_rng_laws
              (1 # 2) rows3 [100; 200; 300]%Q 0 r 2 3 (1 # 2) [] 0%nat 1%nat
              Hin ltac:(lia) Hlen) as (_ & _ & _ & Hset & _).
  split; [exact Hin|]. split; [lia|]. split; [exact Hlen|].
  split; [reflexivity|]. split; [exact Hset|].
  vm_compute. reflexivity.
Defined.

(** Two generations on the example population. *)
Lemma evolve_keeps_parameters_and_size_witness :
  exists a' p',
    @evolve nat nat counter_rng scan_ranking lp64 20 (sade 2 2 0 false) pop8 = Ok (a', p') /\
    m_gen a' = 2%Z /\ m_variant a' = 2%Z /\ m_restart a' = false /\
    pop_problem p' = sphere 1 /\ pop_size p' = 8%nat.
Proof.
  destruct (@evolve nat nat counter_rng scan_ranking lp64 20 (sade 2 2 0 false) pop8)
    as [[a' p']| e |] eqn:E.
  - exists a', p'. split; [reflexivity|].
    destruct (@evolve_keeps_parameters_and_size nat nat counter_rng scan_ranking lp64 20
                (sade 2 2 0 false) a' pop8 p' E)
      as (H1 & H2 & _ & _ & _ & H6 & H7 & H8).
    auto.
  - vm_compute in E. discriminate E.
  - vm_compute in E. discriminate E.
Defined.

(** After them F and CR have eight entries, and a second call would keep
    them. *)
Lemma evolve_remembers_adaptation_witness :
  exists a' p',
    @evolve nat nat counter_rng scan_ranking lp64 20 (sade 2 2 0 false) pop8 = Ok (a', p') /\
    m_gen (sade 2 2 0 false) <> 0%Z /\
    length (m_f a') = 8%nat /\ length (m_cr a') = 8%nat /\
    needs_init a' (pop_size p') = false /\
    algo (@initial_state nat nat counter_rng a' p') = a'.
Proof.
  destruct (@evolve nat nat counter_rng scan_ranking lp64 20 (sade 2 2 0 false) pop8)
    as [[a' p']| e |] eqn:E.
  - exists a', p'. split; [reflexivity|].
    assert (m_gen (sade 2 2 0 false) <> 0%Z) as Hgen by discriminate.
    destruct (@evolve_remembers_adaptation nat nat counter_rng scan_ranking lp64 20
                (sade 2 2 0 false) a' pop8 p' E Hgen) as (H1 & H2 & H3 & H4).
    split_and!; [exact Hgen | exact H1 | exact H2 | exact H3 | exact (H4 eq_refl)].
  - vm_compute in E. discriminate E.
  - vm_compute in E. discriminate E.
Defined.

(** Scheme 0 on the example: the draws of F are 0.1 and 0.55, those of CR
    are 0 and 0.5. *)
Lemma scheme_0_keeps_F_CR_in_range_witness :
  exists a' p',
    @evolve nat nat counter_rng scan_ranking lp64 20 (sade 2 2 0 false) pop8 = Ok (a', p') /\
    m_variant_adptv (sade 2 2 0 false) = 0%Z /\
    needs_init (sade 2 2 0 false) (pop_size pop8) = true /\
    Forall F_in_range (m_f a') /\ Forall CR_in_range (m_cr a').
Proof.
  destruct (@evolve nat nat counter_rng scan_ranking lp64 20 (sade 2 2 0 false) pop8)
    as [[a' p']| e |] eqn:E.
  - exists a', p'. split; [reflexivity|]. split; [reflexivity|]. split; [reflexivity|].
    apply (@scheme_0_keeps_F_CR_in_range nat nat counter_rng scan_ranking lp64
             counter_rng_laws 20 (sade 2 2 0 false) a' pop8 p');
      [reflexivity | discriminate | discriminate | exact E].
  - vm_compute in E. discriminate E.
  - vm_compute in E. discriminate E.
Defined.

(** Two generations of DE/rand/1/bin on eight points whose second component
    is an integer: the second component of the last point is still -3. *)
Lemma evolve_keeps_integer_part_witness :
  exists a' p',
    @evolve nat nat counter_rng scan_ranking lp64 20 (sade 2 7 0 false) pop8_mixed =
      Ok (a', p') /\
    (1 <= m_variant (sade 2 7 0 false) <= 18)%Z /\
    (7 < pop_size pop8_mixed)%nat /\
    (Dc_of (Pf := lp64) (pop_problem pop8_mixed) <= 1)%nat /\
    cur_x (get_individual p' 7) !!! 1%nat = (-3)%Q.
Proof.
  destruct (@evolve nat nat counter_rng scan_ranking lp64 20 (sade 2 7 0 false) pop8_mixed)
    as [[a' p']| e |] eqn:E.
  - exists a', p'. split; [reflexivity|].
    assert (1 <= m_variant (sade 2 7 0 false) <= 18)%Z as Hv by (cbn; lia).
    assert (7 < pop_size pop8_mixed)%nat as Hi by (vm_compute; lia).
    assert (Dc_of (Pf := lp64) (pop_problem pop8_mixed) <= 1)%nat as Hj
      by (vm_compute; lia).
    split; [exact Hv|]. split; [exact Hi|]. split; [exact Hj|].
    rewrite (@evolve_keeps_integer_part nat nat counter_rng scan_ranking lp64
               counter_rng_laws 20 (sade 2 7 0 false) a' pop8_mixed p' Hv E 7 1 Hi Hj).
    reflexivity.
  - vm_compute in E. discriminate E.
  - vm_compute in E. discriminate E.
Defined.

(** [evolve(-1)] and [evolve_t(-1)] on an island that is not busy. *)
Lemma evolve_rejects_negative_count_witness :
  let m := machine_of (island_of bool true pop8 0 None) 0%Z in
  ~ (0 <= -1 < 2 ^ 64)%Z /\ busy (isl m) = false /\
  @island_evolve bool idle_algorithm Z (ticking 1000) lp64 0 (-1) m =
    (Throw bad_numeric_cast, m) /\
  @island_evolve_t bool idle_algorithm Z (ticking 1000) lp64 0 (-1) m =
    (Throw bad_numeric_cast, m).
Proof.
  intros m.
  assert (~ (0 <= -1 < 2 ^ size_t_bits (Platform := lp64))%Z) as Hn by (cbn; lia).
  split; [exact Hn|]. split; [reflexivity|].
  exact (proj2 (@evolve_rejects_negative_count bool idle_algorithm Z (ticking 1000) lp64
                  0 (-1) m Hn) eq_refl).
Defined.

(** An island whose thread has two calls to make: the first join runs them,
    the second one and the accessors change nothing. *)
Lemma join_is_idempotent_witness :
  let m := machine_of (island_of bool false pop8 0
                         (Some {| th_body := int_evolver 2; th_joined := false |})) 0%Z in
  let m1 := (@join bool idle_algorithm Z (ticking 1000) lp64 0 m).2 in
  (@join bool idle_algorithm Z (ticking 1000) lp64 0 m).1 = Ok tt /\
  evolve_calls (trace m1) = 2%nat /\ busy (isl m1) = false /\
  @join bool idle_algorithm Z (ticking 1000) lp64 0 m1 = (Ok tt, m1) /\
  @get_size bool idle_algorithm Z (ticking 1000) lp64 0 m1 = (Ok 8%nat, m1).
Proof.
  intros m m1.
  assert ((@join bool idle_algorithm Z (ticking 1000) lp64 0 m).1 = Ok tt) as Hok
    by reflexivity.
  destruct (@join_is_idempotent bool idle_algorithm Z (ticking 1000) lp64 0 m Hok)
    as (Hbusy & Hjoin & _ & _ & _ & Hsize & _).
  split; [exact Hok|]. split; [reflexivity|]. split; [exact Hbusy|].
  split; [exact Hjoin | exact Hsize].
Defined.

(** The island with the algorithm of this file, not blocking:
    [get_population] after [evolve(2)] returns what two calls of [evolve]
    in a row leave of the example population. *)
Lemma evolve_then_get_population_witness :
  let alg := @de_self_adaptive_algorithm nat nat counter_rng scan_ranking lp64 20 in
  let m := machine_of (island_of _ (sade 1 2 0 false) pop8 0 None) 0%Z in
  exists a' p',
    evolve_n (Alg := alg) 2 (sade 1 2 0 false) pop8 = Ok (a', p') /\
    ((@island_evolve _ alg Z (ticking 1000) lp64 0 2 ≫=
       fun _ => @get_population _ alg Z (ticking 1000) lp64 0) m).1 = Ok p' /\
    map (fun ind => map Qred (cur_x ind)) (m_container p') =
      [[1 # 2]; [1]; [201 # 100]; [-4 # 5]; [-19 # 10]; [-2]; [-1 # 20]; [0]]%Q.
Proof.
  intros alg m.
  destruct (evolve_n (Alg := alg) 2 (sade 1 2 0 false) pop8) as [[a' p']| e |] eqn:E.
  - exists a', p'. split; [reflexivity|].
    destruct (@evolve_then_get_population _ alg Z (ticking 1000) lp64 0 2 m a' p'
                eq_refl eq_refl ltac:(cbn; lia) (fun w => eq_refl) (fun w => eq_refl) E)
      as (Hout & _).
    split; [exact Hout|].
    vm_compute in E. injection E as _ <-. vm_compute. reflexivity.
  - vm_compute in E. discriminate E.
  - vm_compute in E. discriminate E.
Defined.

(** Setting the algorithm [true] on an island that holds [false]. *)
Lemma set_then_get_algorithm_witness :
  let m := machine_of (island_of bool false pop8 7 None) 0%Z in
  let out := (@set_algorithm bool idle_algorithm Z (ticking 1000) lp64 0 true ≫=
                fun _ => @get_algorithm bool idle_algorithm Z (ticking 1000) lp64 0) m in
  (@join bool idle_algorithm Z (ticking 1000) lp64 0 m).1 = Ok tt /\
  out.1 = Ok true /\ m_pop (isl out.2) = pop8 /\ m_evo_time (isl out.2) = 7%Z.
Proof.
  intros m out.
  assert ((@join bool idle_algorithm Z (ticking 1000) lp64 0 m).1 = Ok tt) as Hok
    by reflexivity.
  destruct (@set_then_get_algorithm bool idle_algorithm Z (ticking 1000) lp64 0 true m Hok)
    as (Hget & Hm & _).
  split; [exact Hok|]. split; [exact Hget|]. subst out. rewrite Hm. split; reflexivity.
Defined.

(** A blocking island whose algorithm has one call left: [evolve(3)] throws
    at the second call, and the evolution time stays at 0. *)
Lemma blocking_evolve_reports_errors_witness :
  let m := machine_of (island_of nat 1%nat pop8 0 None) 0%Z in
  let out := @island_evolve nat (budget_algorithm true) Z (ticking 1000) lp64 0 3 m in
  busy (isl m) = false /\ is_blocking (Alg := budget_algorithm true) (isl m) = true /\
  (0 <= 3 < 2 ^ 64)%Z /\
  out.1 = Throw (value_error "no calls left") /\
  m_evo_time (isl out.2) = 0%Z /\ evolve_calls (trace out.2) = 2%nat.
Proof.
  intros m out.
  destruct (@blocking_evolve_reports_errors nat (budget_algorithm true) Z (ticking 1000)
              lp64 0 3 m (value_error "no calls left") eq_refl eq_refl
              ltac:(cbn; lia) eq_refl) as (Heq & Htime & _).
  split; [reflexivity|]. split; [reflexivity|]. split; [lia|].
  subst out. split; [rewrite Heq; reflexivity|]. split; [exact Htime | reflexivity].
Defined.

(** The same algorithm in a thread: [join] returns, the message is on the
    output, and the millisecond between the start of the worker and the
    reading of the clock after the throw is on the evolution time. *)
Lemma join_swallows_errors_witness :
  let m := machine_of (island_of nat 1%nat pop8 0
                         (Some {| th_body := int_evolver 3; th_joined := false |})) 0%Z in
  let out := @join nat (budget_algorithm false) Z (ticking 1000) lp64 0 m in
  is_blocking (Alg := budget_algorithm false) (isl m) = false /\
  out.1 = Ok tt /\ busy (isl out.2) = false /\
  trace out.2 = [ev_algo_evolve; ev_interruption_point; ev_algo_evolve;
                 ev_print "Error during island evolution"] /\
  m_evo_time (isl out.2) = 1%Z.
Proof.
  intros m out.
  assert (is_blocking (Alg := budget_algorithm false) (isl m) = false) as Hnb
    by reflexivity.
  destruct (@join_swallows_errors nat (budget_algorithm false) Z (ticking 1000) lp64
              0 m Hnb) as (_ & Hthrown).
  destruct (Hthrown (int_evolver 3) (value_error "no calls left") eq_refl eq_refl)
    as (Hok & Hbusy & _ & _ & _ & Htime).
  split; [exact Hnb|]. split; [exact Hok|]. split; [exact Hbusy|].
  split; [reflexivity|]. etransitivity; [exact Htime | reflexivity].
Defined.

(** A thread with five calls to make and an interruption waiting: one call
    is made. *)
Lemma interrupted_worker_stops_after_one_call_witness :
  let m := machine_of (island_of bool false pop8 0
                         (Some {| th_body := int_evolver 5; th_joined := false |})) 0%Z in
  let out := @join bool idle_algorithm Z (interrupting 1000) lp64 0 m in
  AlgorithmLaws idle_algorithm /\
  out.1 = Ok tt /\ busy (isl out.2) = false /\ m_pop (isl out.2) = pop8 /\
  evolve_calls (trace out.2) = 1%nat /\
  trace out.2 = [ev_algo_evolve; ev_interruption_point].
Proof.
  intros m out.
  destruct (@interrupted_worker_stops_after_one_call bool idle_algorithm Z
              (interrupting 1000) lp64 0 4 m false pop8 idle_algorithm_laws
              eq_refl eq_refl eq_refl eq_refl (fun w => eq_refl))
    as (Hok & Hbusy & Hpop & _ & Hcalls & _).
  split; [exact idle_algorithm_laws|]. split; [exact Hok|]. split; [exact Hbusy|].
  split; [exact Hpop|]. split; [exact Hcalls | reflexivity].
Defined.

(** [evolve_t(3)] on a blocking island with a clock that advances by one
    millisecond at every reading: the readings after the rounds show 1, 2
    and 3 milliseconds, so there are three rounds and three calls, and the
    reading at the end puts four milliseconds on the evolution time. *)
Lemma evolve_t_runs_until_time_is_up_witness :
  let m := machine_of (island_of bool true pop8 0 None) 0%Z in
  let worker := (juice_impl (Alg := idle_algorithm) (Env := ticking 1000) (Pf := lp64) 10
                   (t_evolver 3) m).2 in
  let out := @island_evolve_t bool idle_algorithm Z (ticking 1000) lp64 10 3 m in
  (0 < 10)%nat /\ worker.1 = Ok tt /\
  t_rounds (Alg := idle_algorithm) (Env := ticking 1000) (Pf := lp64) 3 0
    {| isl := isl m; env := 1000%Z; trace := [] |} 3 worker.2 /\
  out.1 = Ok tt /\ evolve_calls (trace out.2) = 3%nat /\
  m_evo_time (isl out.2) = 4%Z /\ (3 <= m_evo_time (isl out.2))%Z.
Proof.
  intros m worker out.
  destruct (@evolve_t_runs_until_time_is_up bool idle_algorithm Z (ticking 1000) lp64
              10 3 m ltac:(lia)) as (_ & Hdone & Hblocking).
  assert (worker.1 = Ok tt) as Hworker by reflexivity.
  destruct (Hdone Hworker) as ((_ & k & _ & Hrounds & Hcalls) & Hok & Htime & Hmono).
  destruct (Hmono (fun w => ltac:(cbn; lia))) as [_ Hge].
  pose proof (Hblocking eq_refl eq_refl ltac:(cbn; lia)) as Heq.
  vm_compute in Hcalls. subst k.
  split; [lia|]. split; [exact Hworker|]. split; [exact Hrounds|].
  subst out. rewrite Heq.
  split; [exact Hok|]. split; [reflexivity|]. split; [reflexivity|].
  rewrite Htime. exact Hge.
Defined.

(** The assignment of an island whose thread has five calls to make, with
    an algorithm that has seven calls left, to an island that is not busy:
    the copy holds the algorithm with two calls left. *)
Lemma island_assign_copies_joined_source_witness :
  let source := island_of nat 7%nat pop8 0
                  (Some {| th_body := int_evolver 5; th_joined := false |}) in
  let m := machine_of (island_of nat 9%nat pop8 0 None) 0%Z in
  let out := @island_assign nat (budget_algorithm false) Z (ticking 1000) lp64 0 source m in
  (exists src', out.1 = Ok src' /\ busy src' = false /\
     m_evo_time (isl out.2) = m_evo_time src') /\
  busy source = true /\ m_evo_thread (isl out.2) = None /\
  evolve_n (Alg := budget_algorithm false) 5 7%nat pop8 = Ok (2%nat, pop8) /\
  m_algo (isl out.2) = 2%nat /\ m_pop (isl out.2) = pop8 /\
  m_evo_time (isl out.2) = 1%Z /\
  evolve_calls (trace out.2) = 5%nat /\
  @interrupt nat Z (ticking 1000) out.2 = (Ok tt, out.2).
Proof.
  intros source m out.
  destruct out as [r m'] eqn:E.
  assert (exists src', r = Ok src') as [src' ->]
    by (vm_compute in E; injection E as <- _; eauto).
  destruct (@island_assign_copies_joined_source nat (budget_algorithm false) Z
              (ticking 1000) lp64 0 source src' m m' E)
    as ((m1 & Hj1 & _ & _ & Hcalls) & Hbusy & _ & Hisl & _ & _ & Htime & _ & _ & _ & Hint).
  destruct (Hcalls 5%nat 2%nat pop8 eq_refl eq_refl (fun w => eq_refl) eq_refl)
    as (Hp & Ha & _ & Hc).
  injection Hj1 as <-.
  cbn [fst snd]. split; [exists src'; auto|].
  split; [reflexivity|]. split; [rewrite Hisl; reflexivity|].
  split; [reflexivity|]. split; [exact Ha|]. split; [exact Hp|].
  split; [|split; [exact Hc | exact Hint]].
  vm_compute in E. injection E as _ <-. reflexivity.
Defined.

(** An island of an archipelago receives one immigrant, which the policy
    puts into slot 2; with no immigrant to take the same policy fails. *)
Lemma accept_immigrants_places_witness :
  let i := {| m_pop := pop8; m_algo := false; m_archi := true; m_evo_time := 0%Z;
              m_evo_thread := None; m_migr_prob := 0%Q |} in
  let immigrants := [individual_at (sphere 1) [0%Q]] in
  (exists i', accept_immigrants first_into_slot_2 immigrants i = Some i' /\
     pop_size (m_pop i') = 8%nat /\
     get_individual (m_pop i') 2 = individual_at (sphere 1) [0%Q] /\
     get_individual (m_pop i') 3 = get_individual pop8 3) /\
  accept_immigrants first_into_slot_2 [] i = None.
Proof.
  intros i immigrants.
  destruct (@accept_immigrants_places bool first_into_slot_2 immigrants i)
    as [Hiff Hplaced].
  destruct (proj2 Hiff) as [i' Hi'].
  { split; [reflexivity|]. repeat constructor. }
  split.
  - exists i'. split; [exact Hi'|].
    destruct (Hplaced i' Hi') as (_ & Hsize & _ & _ & _ & _ & _ & Hslots).
    split; [exact Hsize|]. split; [exact (Hslots 2%nat) | exact (Hslots 3%nat)].
  - destruct (@accept_immigrants_places bool first_into_slot_2 [] i) as [Hnone _].
    destruct (accept_immigrants first_into_slot_2 [] i) as [i0|] eqn:E; [|reflexivity].
    exfalso. destruct (proj1 Hnone (mk_is_Some _ _ eq_refl)) as [_ Hall].
    apply Forall_cons in Hall as [[_ Hk] _]. cbn in Hk. lia.
Defined.


(** [evolve(1)] twice on the island with the algorithm of this file gives
    the population that [evolve(2)] gives. *)
Lemma evolve_twice_adds_up_witness :
  let alg := @de_self_adaptive_algorithm nat nat counter_rng scan_ranking lp64 20 in
  let m := machine_of (island_of _ (sade 1 2 0 false) pop8 0 None) 0%Z in
  let twice := (@island_evolve _ alg Z (ticking 1000) lp64 0 1 ≫= fun _ =>
                @island_evolve _ alg Z (ticking 1000) lp64 0 1 ≫= fun _ =>
                @get_population _ alg Z (ticking 1000) lp64 0) m in
  let once := (@island_evolve _ alg Z (ticking 1000) lp64 0 2 ≫= fun _ =>
               @get_population _ alg Z (ticking 1000) lp64 0) m in
  exists a' p',
    evolve_n (Alg := alg) 2 (sade 1 2 0 false) pop8 = Ok (a', p') /\
    twice.1 = Ok p' /\ twice.1 = once.1 /\ evolve_calls (trace twice.2) = 2%nat.
Proof.
  intros alg m twice once.
  destruct (evolve_n (Alg := alg) 2 (sade 1 2 0 false) pop8) as [[a' p']| e |] eqn:E.
  - exists a', p'. split; [reflexivity|].
    destruct (@evolve_twice_adds_up _ alg Z (ticking 1000) lp64 0 1 1 m a' p'
                eq_refl eq_refl ltac:(cbn; lia) ltac:(cbn; lia)
                (fun w => eq_refl) (fun w => eq_refl) E)
      as (Hout & _ & _ & Hcalls).
    split; [exact Hout|]. split; [|exact Hcalls].
    subst twice once. rewrite Hout. vm_compute in E. injection E as _ <-.
    vm_compute. reflexivity.
  - vm_compute in E. discriminate E.
  - vm_compute in E. discriminate E.
Defined.

(** The example in the middle of its first sweep: the trial of slot 0 has
    been accepted, so [popold] no longer holds what the population holds in
    slot 0.  The trial of slot 2 is [5/2], with fitness [25/4]: it beats the
    fitness 9 that the population holds for slot 2, and is stored. *)
Lemma generations_mirror_population_witness :
  exists st st' t,
    @deme_loop nat nat counter_rng lp64 20 8 2 0 st0 = Ok st /\
    popold st !!! 0%nat <> cur_x (get_individual (pop st) 0) /\
    @individual_step nat nat counter_rng lp64 20 8 2 st = Ok st' /\
    map Qred t = [5 # 2] /\
    map Qred (cur_f (get_individual (pop st) 2)) = [9%Q] /\
    compare_fitness (sphere 1) (objfun (sphere 1) t)
      (cur_f (get_individual (pop st) 2)) = true /\
    cur_x (get_individual (pop st') 2) = t /\
    cur_f (get_individual (pop st') 2) = objfun (sphere 1) t.
Proof.
  destruct (@deme_loop nat nat counter_rng lp64 20 8 2 0 st0) as [st| e |] eqn:E;
    [|vm_compute in E; discriminate E..].
  destruct (@individual_step nat nat counter_rng lp64 20 8 2 st) as [st'| e |] eqn:E';
    [|vm_compute in E; injection E as <-; vm_compute in E'; discriminate E'..].
  destruct (@generations_mirror_population nat nat counter_rng scan_ranking lp64 20)
    as (_ & _ & _ & _ & Hall).
  destruct (Hall (sade 2 2 0 false) pop8 0%nat 2%nat st0 st st' eq_refl
              ltac:(cbn; lia) E E') as (t & F & CR & g & u & Hmk & Hx & Hf).
  exists st, st', t. vm_compute in E. injection E as <-.
  vm_compute in Hmk. injection Hmk as <- <- <- <- <-.
  split; [reflexivity|]. split; [vm_compute; discriminate|].
  split; [exact E'|]. split; [reflexivity|]. split; [reflexivity|].
  split; [reflexivity|]. split; [exact Hx | exact Hf].
Defined.

